(** * quicktype C++ backend: reference classification and emitted serializers

    A shallow embedding of [src/quicktype-core/language/CPlusPlus.ts]
    ([CPlusPlusRenderer]).  The renderer is a pure transform from a type
    graph to text: type nodes become an inductive type, the per-declaration
    include map becomes a [gmap] keyed by the rendered type name, and the
    renderer's output becomes the list of calls it makes to the line
    emitter of its base class. *)

From Stdlib Require Import Ascii String DecimalString.
From stdpp Require Import gmap strings list fin_maps.

Open Scope string_scope.
Open Scope list_scope.

(** ** JavaScript values that may be [null] or [undefined]

    The source compares results against [null] in some places and against
    [undefined] in others, with the strict operators [===] / [!==], so the
    two absent values are kept apart. *)

Inductive Nullable (A : Type) : Type :=
| JsUndefined
| JsNull
| JsVal (a : A).
Arguments JsUndefined {A}.
Arguments JsNull {A}.
Arguments JsVal {A} a.

(** [x !== undefined] *)
Definition neq_undefined {A} (x : Nullable A) : bool :=
  match x with JsUndefined => false | _ => true end.

(** [x !== null] *)
Definition neq_null {A} (x : Nullable A) : bool :=
  match x with JsNull => false | _ => true end.

(** [x === null] *)
Definition eq_null {A} (x : Nullable A) : bool := negb (neq_null x).

(** ** Type graph nodes

    [Name] is the identifier the naming pass assigned to a named type or a
    property, already resolved ([nameForNamedType] followed by
    [sourcelikeToString]).  [TypeKind] is the [kind] string of a node.
    Classes and enums are referred to by name: neither [cppType] nor
    [generatedTypes] looks inside them, and this is where a cyclic graph is
    cut. A union carries its members in the iteration order of its
    member set. *)

Abbreviation Name := string (only parsing).
Abbreviation TypeKind := string (only parsing).

#[warnings="-register-all"]
Inductive Ty : Type :=
| AnyType
| NullType
| BoolType
| IntegerType
| DoubleType
| StringType
| ArrayType (items : Ty)
| ClassType (name : Name)
| MapType (values : Ty)
| EnumType (name : Name)
| UnionType (name : Name) (members : list Ty).

Definition kind (t : Ty) : TypeKind :=
  match t with
  | AnyType => "any"
  | NullType => "null"
  | BoolType => "bool"
  | IntegerType => "integer"
  | DoubleType => "double"
  | StringType => "string"
  | ArrayType _ => "array"
  | ClassType _ => "class"
  | MapType _ => "map"
  | EnumType _ => "enum"
  | UnionType _ _ => "union"
  end.

Definition members (t : Ty) : list Ty :=
  match t with UnionType _ ms => ms | _ => [] end.

Definition isUnionType (t : Ty) : bool :=
  match t with UnionType _ _ => true | _ => false end.

Definition isClassType (t : Ty) : bool :=
  match t with ClassType _ => true | _ => false end.

#[global] Instance Ty_inhabited : Inhabited Ty := populate AnyType.

(** ** Helpers the renderer imports

    [CPlusPlus.ts] imports the functions below from [collection-utils],
    [../Type] and [../TypeUtils]; these files are not among the sources.
    Each is modelled after the way the renderer uses its result. *)

(** Modelled from the spec: [iterableFind] of [collection-utils] is
    missing.  It yields the first element satisfying the predicate and
    [undefined] when there is none (line 1067 tests its result against
    [undefined]). *)
Fixpoint iterableFind {A} (p : A -> bool) (it : list A) : Nullable A :=
  match it with
  | [] => JsUndefined
  | x :: rest => if p x then JsVal x else iterableFind p rest
  end.

(** Modelled from the spec: [iterableFirst] of [collection-utils] is
    missing.  The first element, [undefined] for an empty collection. *)
Definition iterableFirst {A} (it : list A) : Nullable A :=
  match it with [] => JsUndefined | x :: _ => JsVal x end.

(** Modelled from the spec: [UnionType.findMember] of [../Type] is
    missing.  Members are unique by kind (section 3); [findMember(kind)]
    is the member of that kind, [undefined] when the union has none
    (line 812). *)
Definition findMember (u : Ty) (k : TypeKind) : Nullable Ty :=
  iterableFind (fun t => bool_decide (kind t = k)) (members u).

(** Comparison of two strings by code units, as [<] does on JavaScript
    strings; every kind string is ASCII. *)
Definition string_ltb (a b : string) : bool :=
  match String.compare a b with Lt => true | _ => false end.

(** Modelled from the spec: the ordering [removeNullFromUnion] applies
    when its second argument is [true] is missing.  It sorts the members
    by their kind string and keeps members of equal kind in their
    order. *)
Fixpoint insertByKind (t : Ty) (sorted : list Ty) : list Ty :=
  match sorted with
  | [] => [t]
  | x :: rest =>
      if string_ltb (kind x) (kind t) then x :: insertByKind t rest
      else t :: x :: rest
  end.

Definition setSortByKind (s : list Ty) : list Ty :=
  foldr insertByKind [] s.

(** Modelled from the spec: [removeNullFromUnion] of [../TypeUtils] is
    missing.  A union is a set of members that may include null
    (section 3); the function returns the null member, or [null] when the
    union has none (lines 609, 742 and 935 compare it with [null]),
    paired with the other members, sorted by kind when [sortBy] is
    [true]. *)
Definition removeNullFromUnion (u : Ty) (sortBy : bool)
  : Nullable Ty * list Ty :=
  let sort := fun s => if sortBy then setSortByKind s else s in
  match findMember u "null" with
  | JsVal nullType =>
      (JsVal nullType,
       sort (filter (fun m => kind m ≠ "null") (members u)))
  | _ => (JsNull, sort (members u))
  end.

(** Modelled from the spec: [nullableFromUnion] of [../TypeUtils] is
    missing.  A union of null and exactly one other member collapses to
    the optional of that member (section 3): the function returns that
    member, and [null] for every other union (line 672). *)
Definition nullableFromUnion (u : Ty) : Nullable Ty :=
  let '(hasNull, nonNulls) := removeNullFromUnion u false in
  if eq_null hasNull then JsNull
  else if bool_decide (length nonNulls ≠ 1) then JsNull
  else iterableFirst nonNulls.

(** ** Include records (lines 257-330) *)

Inductive IncludeKind := ForwardDeclare | Include.

#[global] Instance IncludeKind_eq_dec : EqDecision IncludeKind.
Proof. solve_decision. Defined.

Record IncludeRecord := mkIncludeRecord {
  inc_kind : option IncludeKind;
  inc_typeKind : option TypeKind
}.

Record TypeRecord := mkTypeRecord {
  tr_name : Name;
  tr_type : Ty;
  tr_level : nat;
  tr_variant : bool;
  tr_forceInclude : bool
}.

(** A class property as [forEachClassProperty] hands it to its callback:
    the member name, the wire name and the type. *)
Record ClassProperty := mkClassProperty {
  cp_name : Name;
  cp_jsonName : string;
  cp_type : Ty
}.

(** What [emitIncludes] is called on: a class with its properties in
    declared order, an enum, or a union. *)
Inductive Definition_ :=
| DefClass (n : Name) (props : list ClassProperty)
| DefEnum (n : Name)
| DefUnion (u : Ty).

Section ReferenceClassifier.

(** [unionNeedsName], which the renderer inherits from
    [ConvenienceRenderer]: whether a union is emitted under a name of its
    own. *)
Variable unionNeedsName : Ty -> bool.

(** *** [generatedTypes] (lines 691-751)

    [recur] pushes onto the shared [result] array; here it returns the
    records it pushes, in order.  The loop over [nonNulls] runs over the
    members and skips the null one, which is the second component of
    [removeNullFromUnion(t)] (see [recur_union]). *)
Fixpoint recur (isClassMember forceInclude isVariant : bool) (l : nat)
         (t : Ty) {struct t} : list TypeRecord :=
  match t with
  | ArrayType items => recur isClassMember forceInclude isVariant (S l) items
  | ClassType n =>
      [ mkTypeRecord n t l isVariant forceInclude ]
  | MapType values => recur isClassMember forceInclude isVariant (S l) values
  | EnumType n =>
      [ mkTypeRecord n t l isVariant false ]
  | UnionType n ms =>
      let named := unionNeedsName t && isClassMember in
      let forceInclude := if named then true else forceInclude in
      let pushed :=
        if named then [ mkTypeRecord n t l true forceInclude ] else [] in
      let isVariant := neq_null (fst (removeNullFromUnion t false)) in
      pushed ++
      (fix each (tts : list Ty) : list TypeRecord :=
         match tts with
         | [] => []
         | alt :: rest =>
             (if bool_decide (kind alt = "null") then []
              else recur isClassMember forceInclude isVariant (S l) alt)
             ++ each rest
         end) ms
  | _ => []
  end.

Definition generatedTypes (isClassMember : bool) (theType : Ty)
  : list TypeRecord :=
  recur isClassMember false false 0 theType.

(** *** [updateIncludes] (lines 1533-1584) *)

(** The record computed for one [TypeRecord] (lines 1539-1569). *)
Definition propRecordFor (t : TypeRecord) : IncludeRecord :=
  match tr_type t with
  | ClassType _ =>
      let k := if bool_decide (tr_level t = 0) then Include
               else ForwardDeclare in
      let k := if tr_forceInclude t then Include else k in
      mkIncludeRecord (Some k) (Some "class")
  | EnumType _ => mkIncludeRecord (Some ForwardDeclare) (Some "enum")
  | UnionType _ _ =>
      let maybeNull := fst (removeNullFromUnion (tr_type t) true) in
      if neq_undefined maybeNull then
        mkIncludeRecord (Some Include) (Some "union")
      else if tr_forceInclude t then
        mkIncludeRecord (Some Include) (Some "union")
      else
        mkIncludeRecord (Some ForwardDeclare) (Some "union")
  | _ => mkIncludeRecord None None
  end.

(** The merge into the include map (lines 1571-1582). *)
Definition mergeInclude (includes : gmap string IncludeRecord)
           (typeName : string) (propRecord : IncludeRecord)
  : gmap string IncludeRecord :=
  match includes !! typeName with
  | Some incKind =>
      if bool_decide (inc_kind incKind = Some ForwardDeclare)
      then <[typeName := propRecord]> includes
      else includes
  | None => <[typeName := propRecord]> includes
  end.

Definition includeStep (includes : gmap string IncludeRecord)
           (t : TypeRecord) : gmap string IncludeRecord :=
  mergeInclude includes (tr_name t) (propRecordFor t).

Definition updateIncludes (isClassMember : bool)
           (includes : gmap string IncludeRecord) (propertyType : Ty)
  : gmap string IncludeRecord :=
  foldl includeStep includes (generatedTypes isClassMember propertyType).

(** *** The include map of [emitIncludes] (lines 1586-1599) *)

Definition emitIncludes_map (c : Definition_) : gmap string IncludeRecord :=
  match c with
  | DefUnion u => updateIncludes false ∅ u
  | DefClass _ props =>
      foldl (fun includes property =>
               updateIncludes true includes (cp_type property)) ∅ props
  | DefEnum _ => ∅
  end.

(** All the records [emitIncludes] feeds to the merge, in order. *)
Definition declRecords (c : Definition_) : list TypeRecord :=
  match c with
  | DefUnion u => generatedTypes false u
  | DefClass _ props =>
      flat_map (fun property => generatedTypes true (cp_type property)) props
  | DefEnum _ => []
  end.

End ReferenceClassifier.

(** ** Source text ([Sourcelike]) and the renderer's output

    A [Sourcelike] is a string, a [Name], an annotated source, or an array
    of sources.  Strings that contain a double quote are written with a
    backquote in its place and passed through [q]. *)

Definition dq : string := String (Ascii.ascii_of_nat 34) EmptyString.

Fixpoint q (s : string) : string :=
  match s with
  | EmptyString => EmptyString
  | String c rest =>
      String (if Ascii.eqb c "`"%char then Ascii.ascii_of_nat 34 else c) (q rest)
  end.

Inductive Annotation := anyTypeIssueAnnotation | nullTypeIssueAnnotation.

#[warnings="-register-all"]
Inductive Sourcelike : Type :=
| SStr (s : string)
| SName (n : Name)
| SAnn (a : Annotation) (s : Sourcelike)
| SArr (parts : list Sourcelike).

Coercion SStr : string >-> Sourcelike.

Fixpoint sourcelikeToString (s : Sourcelike) : string :=
  match s with
  | SStr x => x
  | SName n => n
  | SAnn _ x => sourcelikeToString x
  | SArr parts =>
      (fix each (ps : list Sourcelike) : string :=
         match ps with
         | [] => EmptyString
         | p :: rest => sourcelikeToString p +:+ each rest
         end) parts
  end.

(** Modelled from the spec: [maybeAnnotated] of [../Source] is missing.
    Any and null types are rendered with a fidelity-loss marker
    (section 4.1): the source is annotated when [doAnnotate] is set. *)
Definition maybeAnnotated (doAnnotate : bool) (a : Annotation)
           (sl : Sourcelike) : Sourcelike :=
  if doAnnotate then SAnn a sl else sl.

(** Modelled from the spec: [arrayIntercalate] of [collection-utils] is
    missing.  The items with the separator between neighbours. *)
Fixpoint arrayIntercalate {A} (separator : A) (items : list A) : list A :=
  match items with
  | [] => []
  | [x] => [x]
  | x :: rest => x :: separator :: arrayIntercalate separator rest
  end.

(** The calls the renderer makes to the emitter it inherits, in order.
    [indent(f)] brackets what [f] emits. *)
Inductive Emission : Type :=
| EmitLine (parts : list Sourcelike)
| IndentBegin
| IndentEnd
| EnsureBlankLine
| PreventBlankLine
| EmitDescription (description : option (list string)).

Definition emitLine (parts : list Sourcelike) : list Emission :=
  [EmitLine parts].

Definition indent (f : list Emission) : list Emission :=
  [IndentBegin] ++ f ++ [IndentEnd].

(** [emitBlock] (lines 551-565) *)
Definition emitBlock (line : Sourcelike) (withSemicolon : bool)
           (f : list Emission) (withIndent : bool) : list Emission :=
  emitLine [line; SStr " {"]
  ++ [PreventBlankLine]
  ++ (if withIndent then indent f else f)
  ++ [PreventBlankLine]
  ++ (if withSemicolon then emitLine [SStr "};"] else emitLine [SStr "}"]).

(** ** Names generated for the validation runtime (lines 262-289) *)

Inductive GlobalNames :=
| ClassMemberConstraints
| ClassMemberConstraintException
| ValueTooLowException
| ValueTooHighException
| ValueTooShortException
| ValueTooLongException
| InvalidPatternException
| CheckConstraint.

Definition GlobalNames_key (g : GlobalNames) : string :=
  match g with
  | ClassMemberConstraints => "ClassMemberConstraints"
  | ClassMemberConstraintException => "ClassMemberConstraintException"
  | ValueTooLowException => "ValueTooLowException"
  | ValueTooHighException => "ValueTooHighException"
  | ValueTooShortException => "ValueTooShortException"
  | ValueTooLongException => "ValueTooLongException"
  | InvalidPatternException => "InvalidPatternException"
  | CheckConstraint => "CheckConstraint"
  end.

Inductive MemberNames :=
| MinValue | GetMinValue | SetMinValue
| MaxValue | GetMaxValue | SetMaxValue
| MinLength | GetMinLength | SetMinLength
| MaxLength | GetMaxLength | SetMaxLength
| Pattern | GetPattern | SetPattern.

Definition MemberNames_key (m : MemberNames) : string :=
  match m with
  | MinValue => "MinValue" | GetMinValue => "GetMinValue"
  | SetMinValue => "SetMinValue"
  | MaxValue => "MaxValue" | GetMaxValue => "GetMaxValue"
  | SetMaxValue => "SetMaxValue"
  | MinLength => "MinLength" | GetMinLength => "GetMinLength"
  | SetMinLength => "SetMinLength"
  | MaxLength => "MaxLength" | GetMaxLength => "GetMaxLength"
  | SetMaxLength => "SetMaxLength"
  | Pattern => "Pattern" | GetPattern => "GetPattern"
  | SetPattern => "SetPattern"
  end.

(** [optionalType] (line 250) *)
Definition optionalType : string := "std::shared_ptr".

Record TypeContext := mkTypeContext {
  needsForwardIndirection : bool;
  needsOptionalIndirection : bool;
  inJsonNamespace : bool
}.

(** The renderer's fields and inherited methods that the modelled
    functions read. *)
Record Renderer := mkRenderer {
  (** [_options.codeFormat]: getters and setters instead of structs *)
  codeFormat : bool;
  (** [_namespaceNames] *)
  namespaceNames : list string;
  (** [_namedTypeNameStyle] and [_memberNameStyle] *)
  namedTypeNameStyle : string -> string;
  memberNameStyle : string -> string;
  (** [_gettersAndSettersForPropertyName]: getter, mutable getter,
      setter *)
  gettersAndSettersForPropertyName : Name -> Name * Name * Name;
  (** [isForwardDeclaredType], from the declaration order *)
  isForwardDeclaredType : Ty -> bool;
  (** [stringEscape] *)
  stringEscape : string -> string;
  (** [descriptionForClassProperty] *)
  descriptionForClassProperty : Name -> string -> option (list string)
}.

Section Emitters.

Variable this : Renderer.

(** [setupGlobalNames] stores the styled key of every [GlobalNames] and
    [MemberNames] value; the lookups read it back. *)
Definition lookupGlobalName (type : GlobalNames) : string :=
  namedTypeNameStyle this (GlobalNames_key type).

Definition lookupMemberName (type : MemberNames) : string :=
  memberNameStyle this (MemberNames_key type).

(** [constraintMember] (lines 753-755) *)
Definition constraintMember (jsonName : string) : string :=
  memberNameStyle this (jsonName +:+ "Constraint").

(** [ourQualifier], [jsonQualifier], [variantIndirection]
    (lines 621-632) *)
Definition ourQualifier (inJsonNamespace : bool) : Sourcelike :=
  if inJsonNamespace
  then SArr [SArr (arrayIntercalate (SStr "::")
                     (map SStr (namespaceNames this))); SStr "::"]
  else SArr [].

Definition jsonQualifier (inJsonNamespace : bool) : Sourcelike :=
  if inJsonNamespace then SArr [] else SStr "nlohmann::".

Definition variantIndirection (needIndirection : bool)
           (typeSrc : Sourcelike) : Sourcelike :=
  if negb needIndirection then typeSrc
  else SArr [SStr optionalType; SStr "<"; typeSrc; SStr ">"].

(** *** [cppType] (lines 634-685)

    In the union case the source renders [nullableFromUnion(unionType)],
    a member of the union; the inner loop renders the first non-null
    member, which is that member whenever [nullableFromUnion] returns
    one (see [cppType_union]). *)
Fixpoint cppType (t : Ty) (ctx : TypeContext) (withIssues : bool)
         {struct t} : Sourcelike :=
  let inJsonNamespace := inJsonNamespace ctx in
  match t with
  | AnyType =>
      maybeAnnotated withIssues anyTypeIssueAnnotation
        (SArr [jsonQualifier inJsonNamespace; SStr "json"])
  | NullType =>
      maybeAnnotated withIssues nullTypeIssueAnnotation
        (SArr [jsonQualifier inJsonNamespace; SStr "json"])
  | BoolType => SStr "bool"
  | IntegerType => SStr "int64_t"
  | DoubleType => SStr "double"
  | StringType => SStr "std::string"
  | ArrayType items =>
      SArr [SStr "std::vector<";
            cppType items (mkTypeContext false true inJsonNamespace)
              withIssues;
            SStr ">"]
  | ClassType n =>
      variantIndirection
        (needsForwardIndirection ctx && isForwardDeclaredType this t)
        (SArr [ourQualifier inJsonNamespace; SName n])
  | MapType values =>
      SArr [SStr "std::map<std::string, ";
            cppType values (mkTypeContext false true inJsonNamespace)
              withIssues;
            SStr ">"]
  | EnumType n => SArr [ourQualifier inJsonNamespace; SName n]
  | UnionType n ms =>
      match nullableFromUnion t with
      | JsVal _ =>
          SArr [SStr optionalType; SStr "<";
                (fix first (tts : list Ty) : Sourcelike :=
                   match tts with
                   | [] => SArr []
                   | alt :: rest =>
                       if bool_decide (kind alt = "null") then first rest
                       else cppType alt
                              (mkTypeContext false false inJsonNamespace)
                              withIssues
                   end) ms;
                SStr ">"]
      | _ => SArr [ourQualifier inJsonNamespace; SName n]
      end
  end.

(** *** [cppTypeInOptional] (lines 582-604)

    [typeList] is the flat array the loop pushes onto. *)
Fixpoint typeListLoop (ctx : TypeContext) (withIssues : bool)
         (typeList : list Sourcelike) (nonNulls : list Ty)
  : list Sourcelike :=
  match nonNulls with
  | [] => typeList
  | t :: rest =>
      let typeList :=
        if bool_decide (length typeList ≠ 0)
        then typeList ++ [SStr ", "] else typeList in
      let typeList :=
        typeList ++
        [cppType t (mkTypeContext true false (inJsonNamespace ctx))
           withIssues] in
      typeListLoop ctx withIssues typeList rest
  end.

Definition cppTypeInOptional (nonNulls : list Ty) (ctx : TypeContext)
           (withIssues : bool) : Sourcelike :=
  match nonNulls with
  | [t] => cppType t ctx withIssues
  | _ =>
      SArr [SStr "boost::variant<";
            SArr (typeListLoop ctx withIssues [] nonNulls);
            SStr ">"]
  end.

(** *** [variantType] (lines 606-619); [None] when the assertion
    fails. *)
Definition variantType (u : Ty) (inJsonNamespace : bool)
  : option Sourcelike :=
  let '(maybeNull, nonNulls) := removeNullFromUnion u true in
  if bool_decide (2 ≤ length nonNulls)%nat then
    let indirection := neq_null maybeNull in
    let variant :=
      cppTypeInOptional nonNulls
        (mkTypeContext (negb indirection) (negb indirection)
           inJsonNamespace) true in
    if negb indirection then Some variant
    else Some (SArr [SStr optionalType; SStr "<"; variant; SStr ">"])
  else None.

End Emitters.

Section ClassEmitters.

Variable this : Renderer.

Abbreviation cppType := (cppType this).
Abbreviation cppTypeInOptional := (cppTypeInOptional this).
Abbreviation ourQualifier := (ourQualifier this).
Abbreviation lookupGlobalName := (lookupGlobalName this).
Abbreviation lookupMemberName := (lookupMemberName this).
Abbreviation constraintMember := (constraintMember this).

(** [emitMember] (lines 757-759) *)
Definition emitMember (cppType name : Sourcelike) : list Emission :=
  emitLine [cppType; SStr " "; name; SStr ";"].

(** [constraints !== undefined && constraints.has(jsonName)] *)
Definition hasConstraint (constraints : option (gmap string string))
           (jsonName : string) : bool :=
  match constraints with
  | None => false
  | Some m => bool_decide (is_Some (m !! jsonName))
  end.

(** [property.type instanceof UnionType &&
     property.type.findMember("null") !== undefined] *)
Definition isNullableUnion (t : Ty) : bool :=
  isUnionType t && neq_undefined (findMember t "null").

(** *** [emitClassMembers] (lines 761-867) *)

(** The body of the second [forEachClassProperty] callback for the
    getter/setter format (lines 797-864). *)
Definition emitAccessors (constraints : option (gmap string string))
           (property : ClassProperty) : list Emission :=
  let name := cp_name property in
  let jsonName := cp_jsonName property in
  let '(getterName, mutableGetterName, setterName) :=
    gettersAndSettersForPropertyName this name in
  let rendered :=
    cppType (cp_type property) (mkTypeContext true true false) true in
  let checkConst := lookupGlobalName CheckConstraint in
  (if isNullableUnion (cp_type property) then
     emitLine [rendered; SStr " "; SName getterName;
               SStr "() const { return "; SName name; SStr "; }"]
     ++
     (if hasConstraint constraints jsonName then
        emitLine [SStr "void "; SName setterName; SStr "("; rendered;
                  SStr " value) { if (value) "; SStr checkConst;
                  SStr (q "(`"); SName name; SStr (q "`, ");
                  SStr (constraintMember jsonName);
                  SStr ", *value); this->"; SName name;
                  SStr " = value; }"]
      else
        emitLine [SStr "void "; SName setterName; SStr "("; rendered;
                  SStr " value) { this->"; SName name;
                  SStr " = value; }"])
   else
     emitLine [SStr "const "; rendered; SStr " & "; SName getterName;
               SStr "() const { return "; SName name; SStr "; }"]
     ++ emitLine [rendered; SStr " & "; SName mutableGetterName;
                  SStr "() { return "; SName name; SStr "; }"]
     ++
     (if hasConstraint constraints jsonName then
        emitLine [SStr "void "; SName setterName; SStr "(const ";
                  rendered; SStr "& value) { "; SStr checkConst;
                  SStr (q "(`"); SName name; SStr (q "`, ");
                  SStr (constraintMember jsonName);
                  SStr ", value); this->"; SName name;
                  SStr " = value; }"]
      else
        emitLine [SStr "void "; SName setterName; SStr "(const ";
                  rendered; SStr "& value) { this->"; SName name;
                  SStr " = value; }"]))
  ++ [EnsureBlankLine].

Definition emitClassMembers (c : Name) (props : list ClassProperty)
           (constraints : option (gmap string string)) : list Emission :=
  (if codeFormat this then
     emitLine [SStr "private:"]
     ++ flat_map
          (fun property =>
             emitMember
               (cppType (cp_type property) (mkTypeContext true true false)
                  true)
               (SName (cp_name property))
             ++
             (if hasConstraint constraints (cp_jsonName property) then
                let cnst := lookupGlobalName ClassMemberConstraints in
                emitMember (SStr cnst)
                  (SStr (constraintMember (cp_jsonName property)))
              else []))
          props
     ++ [EnsureBlankLine]
     ++ emitLine [SStr "public:"]
   else [])
  ++ flat_map
       (fun property =>
          [EmitDescription
             (descriptionForClassProperty this c (cp_jsonName property))]
          ++
          (if negb (codeFormat this) then
             emitMember
               (cppType (cp_type property) (mkTypeContext true true false)
                  true)
               (SName (cp_name property))
           else emitAccessors constraints property))
       props.

(** *** [emitClassFunctions] (lines 926-1020) *)

(** The callback of the [from_json] loop (lines 930-1006): the statement
    that reads one property. *)
Definition fromJsonProperty (property : ClassProperty) : list Emission :=
  let name := cp_name property in
  let json := cp_jsonName property in
  let ourQualifier := ourQualifier true in
  let '(_, _, setterName) :=
    gettersAndSettersForPropertyName this name in
  let t := cp_type property in
  let '(maybeNull, nonNulls) := removeNullFromUnion t true in
  if isUnionType t && neq_null maybeNull then
    if codeFormat this then
      emitLine [SStr "_x."; SName setterName; SStr "( "; ourQualifier;
                SStr "get_optional<";
                cppTypeInOptional nonNulls
                  (mkTypeContext false false true) false;
                SStr (q ">(_j, `"); SStr (stringEscape this json);
                SStr (q "`) );")]
    else
      emitLine [SStr "_x."; SName name; SStr " = "; ourQualifier;
                SStr "get_optional<";
                cppTypeInOptional nonNulls
                  (mkTypeContext false false true) false;
                SStr (q ">(_j, `"); SStr (stringEscape this json);
                SStr (q "`);")]
  else if bool_decide (kind t = "null") || bool_decide (kind t = "any")
  then
    if codeFormat this then
      emitLine [SStr "_x."; SName setterName; SStr "( "; ourQualifier;
                SStr (q "get_untyped(_j, `");
                SStr (stringEscape this json); SStr (q "`) );")]
    else
      emitLine [SStr "_x."; SName name; SStr " = "; ourQualifier;
                SStr (q "get_untyped(_j, `");
                SStr (stringEscape this json); SStr (q "`);")]
  else
    let cppType := cppType t (mkTypeContext true true true) false in
    if codeFormat this then
      emitLine [SStr "_x."; SName setterName; SStr (q "( _j.at(`");
                SStr (stringEscape this json); SStr (q "`).get<");
                cppType; SStr ">() );"]
    else
      emitLine [SStr "_x."; SName name; SStr (q " = _j.at(`");
                SStr (stringEscape this json); SStr (q "`).get<");
                cppType; SStr ">();"].

(** The callback of the [to_json] loop (lines 1011-1018). *)
Definition toJsonProperty (property : ClassProperty) : list Emission :=
  let name := cp_name property in
  let json := cp_jsonName property in
  let '(getterName, _, _) :=
    gettersAndSettersForPropertyName this name in
  if codeFormat this then
    emitLine [SStr (q "_j[`"); SStr (stringEscape this json);
              SStr (q "`] = _x."); SName getterName; SStr "();"]
  else
    emitLine [SStr (q "_j[`"); SStr (stringEscape this json);
              SStr (q "`] = _x."); SName name; SStr ";"].

Definition emitClassFunctions (props : list ClassProperty)
           (className : Name) : list Emission :=
  let ourQualifier := ourQualifier true in
  emitBlock
    (SArr [SStr "inline void from_json(const json& _j, "; ourQualifier;
           SName className; SStr "& _x)"])
    false (flat_map fromJsonProperty props) true
  ++ [EnsureBlankLine]
  ++ emitBlock
       (SArr [SStr "inline void to_json(json& _j, const "; ourQualifier;
              SName className; SStr "& _x)"])
       false
       (emitLine [SStr "_j = json::object();"]
        ++ flat_map toJsonProperty props)
       true.

(** *** The read helpers of [emitHelperFunctions] (lines 1402-1422) *)

Definition getUntypedBody : list Emission :=
  emitBlock (SArr [SStr "if (j.find(property) != j.end())"]) false
    (emitLine [SStr "return j.at(property).get<json>();"]) true
  ++ emitLine [SStr "return json();"].

Definition emitGetUntyped : list Emission :=
  emitBlock
    (SArr [SStr "inline json get_untyped(const json &j, const char *property)"])
    false getUntypedBody true.

Definition getOptionalBody : list Emission :=
  emitBlock (SArr [SStr "if (j.find(property) != j.end())"]) false
    (emitLine [SStr "return j.at(property).get<"; SStr optionalType;
               SStr "<T>>();"]) true
  ++ emitLine [SStr "return "; SStr optionalType; SStr "<T>();"].

Definition emitGetOptional : list Emission :=
  emitLine [SStr "template <typename T>"]
  ++ emitBlock
       (SArr [SStr "inline "; SStr optionalType;
              SStr "<T> get_optional(const json &j, const char *property)"])
       false getOptionalBody true.

End ClassEmitters.

Section UnionEmitters.

Variable this : Renderer.

Abbreviation cppType := (cppType this).
Abbreviation cppTypeInOptional := (cppTypeInOptional this).

(** [i.toString()] for a loop counter *)
Definition toString (i : nat) : string :=
  NilEmpty.string_of_uint (Nat.to_uint i).

(** *** [emitUnionFunctions] (lines 1045-1111) *)

Definition functionForKind : list (string * string) :=
  [ ("bool", "is_boolean");
    ("integer", "is_number_integer");
    ("double", "is_number");
    ("string", "is_string");
    ("class", "is_object");
    ("map", "is_object");
    ("array", "is_array");
    ("enum", "is_string") ].

(** The loop of lines 1064-1081; [onFirst] is its mutable flag. *)
Fixpoint fromJsonProbes (nonNulls : list Ty) (onFirst : bool)
         (table : list (string * string)) : list Emission :=
  match table with
  | [] => []
  | (kind_, func) :: rest =>
      match iterableFind (fun t => bool_decide (kind t = kind_)) nonNulls
      with
      | JsVal typeForKind =>
          emitLine [SStr (if onFirst then "if" else "else if");
                    SStr " (_j."; SStr func; SStr "())"]
          ++ indent
               (emitLine [SStr "_x = _j.get<";
                          cppType typeForKind
                            (mkTypeContext true true true) false;
                          SStr ">();"])
          ++ fromJsonProbes nonNulls false rest
      | _ => fromJsonProbes nonNulls onFirst rest
      end
  end.

Definition unionFromJsonBody (u : Ty) : list Emission :=
  let nonNulls := snd (removeNullFromUnion u true) in
  fromJsonProbes nonNulls true functionForKind
  ++ emitLine [SStr (q "else throw `Could not deserialize`;")].

(** The loop of lines 1087-1107; [i] is its counter. *)
Fixpoint toJsonCases (i : nat) (nonNulls : list Ty) : list Emission :=
  match nonNulls with
  | [] => []
  | t :: rest =>
      emitLine [SStr "case "; SStr (toString i); SStr ":"]
      ++ indent
           (emitLine [SStr "_j = boost::get<";
                      cppType t (mkTypeContext true true true) false;
                      SStr ">(_x);"]
            ++ emitLine [SStr "break;"])
      ++ toJsonCases (S i) rest
  end.

Definition unionToJsonSwitch (u : Ty) : list Emission :=
  let nonNulls := snd (removeNullFromUnion u true) in
  toJsonCases 0 nonNulls
  ++ emitLine
       [SStr (q "default: throw `Input JSON does not conform to schema`;")].

Definition emitUnionFunctions (u : Ty) : list Emission :=
  let nonNulls := snd (removeNullFromUnion u true) in
  let variantType :=
    cppTypeInOptional nonNulls (mkTypeContext false false true) false in
  emitBlock
    (SArr [SStr "inline void from_json(const json& _j, "; variantType;
           SStr "& _x)"])
    false (unionFromJsonBody u) true
  ++ [EnsureBlankLine]
  ++ emitBlock
       (SArr [SStr "inline void to_json(json& _j, const "; variantType;
              SStr "& _x)"])
       false
       (emitBlock (SStr "switch (_x.which())") false
          (unionToJsonSwitch u) true)
       true.

(** The [default] line of the enum encoder, for comparison with the
    union encoder (line 1150 of [emitEnumFunctions]). *)
Definition enumToJsonDefault : list Emission :=
  emitLine [SStr (q "default: throw `This should not happen`;")].

(** The final [else] of the enum decoder (line 1133). *)
Definition enumFromJsonElse : list Emission :=
  emitLine [SStr (q "else throw `Input JSON does not conform to schema`;")].

End UnionEmitters.

Section ConstraintEmitters.

Variable this : Renderer.

Abbreviation lookupGlobalName := (lookupGlobalName this).
Abbreviation lookupMemberName := (lookupMemberName this).

(** *** The two checkers of [emitConstraintClasses] (lines 1297-1390) *)

(** Lines 1302-1330: the body of the checker for [int64_t] values. *)
Definition checkConstraintInt64Body : list Emission :=
  let getterMinValue := lookupMemberName GetMinValue in
  let getterMaxValue := lookupMemberName GetMaxValue in
  emitBlock
    (SArr [SStr "if (c."; SStr getterMinValue;
           SStr "() != boost::none && value < *c."; SStr getterMinValue;
           SStr "())"])
    false
    (emitLine
       [SStr "throw "; SStr (lookupGlobalName ValueTooLowException);
        SStr (q " (`Value too low for `+ name + ` (` + std::to_string(value)+ `<`+std::to_string(*c.");
        SStr getterMinValue; SStr (q "())+`)`);")])
    true
  ++ [EnsureBlankLine]
  ++ emitBlock
       (SArr [SStr "if (c."; SStr getterMaxValue;
              SStr "() != boost::none && value > *c."; SStr getterMaxValue;
              SStr "())"])
       false
       (emitLine
          [SStr "throw "; SStr (lookupGlobalName ValueTooHighException);
           SStr (q " (`Value too high for `+name+` (` + std::to_string(value)+ `>`+std::to_string(*c.");
           SStr getterMaxValue; SStr (q "())+`)`);")])
       true
  ++ [EnsureBlankLine].

(** Lines 1297-1332. *)
Definition emitCheckConstraintInt64 : list Emission :=
  let checkConst := lookupGlobalName CheckConstraint in
  let classConstraint := lookupGlobalName ClassMemberConstraints in
  emitBlock
    (SArr [SStr "void "; SStr checkConst;
           SStr "(const std::string & name, const "; SStr classConstraint;
           SStr " & c, int64_t value)"])
    false checkConstraintInt64Body true.

(** Lines 1345-1388: the body of the checker for string values. *)
Definition checkConstraintStringBody : list Emission :=
  let getterMinLength := lookupMemberName GetMinLength in
  let getterMaxLength := lookupMemberName GetMaxLength in
  let getterPattern := lookupMemberName GetPattern in
  emitBlock
    (SArr [SStr "if (c."; SStr getterMinLength;
           SStr "() != boost::none && value.length() < *c.";
           SStr getterMinLength; SStr "())"])
    false
    (emitLine
       [SStr "throw "; SStr (lookupGlobalName ValueTooShortException);
        SStr (q " (`Value too short for `+name+` (` + std::to_string(value.length())+ `<`+std::to_string(*c.");
        SStr getterMinLength; SStr (q "())+`)`);")])
    true
  ++ [EnsureBlankLine]
  ++ emitBlock
       (SArr [SStr "if (c."; SStr getterMaxLength;
              SStr "() != boost::none && value.length() > *c.";
              SStr getterMaxLength; SStr "())"])
       false
       (emitLine
          [SStr "throw "; SStr (lookupGlobalName ValueTooLongException);
           SStr (q " (`Value too long for `+name+` (` + std::to_string(value.length())+ `>`+std::to_string(*c.");
           SStr getterMaxLength; SStr (q "())+`)`);")])
       true
  ++ [EnsureBlankLine]
  ++ emitBlock
       (SArr [SStr "if (c."; SStr getterPattern;
              SStr "() != boost::none)"])
       false
       (emitLine [SStr "std::smatch result;"]
        ++ emitLine [SStr "std::regex_search(value, result, std::regex( *c.";
                     SStr getterPattern; SStr "() ));"]
        ++ emitBlock (SArr [SStr "if (result.empty())"]) false
             (emitLine
                [SStr "throw ";
                 SStr (lookupGlobalName InvalidPatternException);
                 SStr (q " (`Value doesn't match pattern for `+name+` (` + value+ `!=`+*c.");
                 SStr getterPattern; SStr (q "()+`)`);")])
             true)
       true
  ++ [EnsureBlankLine].

(** Lines 1335-1390. *)
Definition emitCheckConstraintString : list Emission :=
  let checkConst := lookupGlobalName CheckConstraint in
  let classConstraint := lookupGlobalName ClassMemberConstraints in
  emitBlock
    (SArr [SStr "void "; SStr checkConst;
           SStr "(const std::string & name, const "; SStr classConstraint;
           SStr " & c, const std::string & value)"])
    false checkConstraintStringBody true.

End ConstraintEmitters.

(** ** Reading the emitted statements

    The claims about the generated program are stated on the emitted
    lines through three small readers: one executes a body made of
    [if (...) { ... }] blocks, [throw] and [return] statements, one
    executes the [if / else if / else throw] chain of the union decoder,
    and one lists the cases of the encoder's [switch]. *)

Definition lineText (parts : list Sourcelike) : string :=
  sourcelikeToString (SArr parts).

(** [s] begins with [pre]. *)
Fixpoint startsWith (pre s : string) {struct pre} : bool :=
  match pre with
  | EmptyString => true
  | String a pre' =>
      match s with
      | EmptyString => false
      | String b s' => Ascii.eqb a b && startsWith pre' s'
      end
  end.

(** A line [header {], as [emitBlock] opens a block. *)
Definition blockHeader (parts : list Sourcelike) : option Sourcelike :=
  match parts with
  | [line; SStr s] => if String.eqb s " {" then Some line else None
  | _ => None
  end.

(** A line [}] or [};], as [emitBlock] closes a block. *)
Definition isBlockClose (parts : list Sourcelike) : bool :=
  match parts with
  | [SStr s] => String.eqb s "}" || String.eqb s "};"
  | _ => false
  end.

(** A statement that leaves the function. *)
Definition leavesFunction (parts : list Sourcelike) : bool :=
  startsWith "throw " (lineText parts)
  || startsWith "return " (lineText parts).

Inductive Outcome :=
| Leaves (statement : list Sourcelike)
| FallsThrough.

(** Execution of a function body: [holds] tells whether the condition
    of a block header is true; [skipping] counts the blocks being
    skipped. *)
Fixpoint runBlocks (holds : string -> bool) (skipping : nat)
         (body : list Emission) : Outcome :=
  match body with
  | [] => FallsThrough
  | EmitLine parts :: rest =>
      match skipping with
      | S d =>
          match blockHeader parts with
          | Some _ => runBlocks holds (S (S d)) rest
          | None =>
              if isBlockClose parts then runBlocks holds d rest
              else runBlocks holds (S d) rest
          end
      | O =>
          match blockHeader parts with
          | Some header =>
              if holds (sourcelikeToString header)
              then runBlocks holds 0 rest
              else runBlocks holds 1 rest
          | None =>
              if isBlockClose parts then runBlocks holds 0 rest
              else if leavesFunction parts then Leaves parts
              else runBlocks holds 0 rest
          end
      end
  | _ :: rest => runBlocks holds skipping rest
  end.

(** The exception class a [throw] statement constructs. *)
Definition thrownException (o : Outcome) : option string :=
  match o with
  | Leaves (SStr kw :: SStr exception :: _) =>
      if String.eqb kw "throw " then Some exception else None
  | _ => None
  end.

(** *** The union decoder's probe chain *)

Inductive DecodeOutcome :=
| DecodesAs (cppType : Sourcelike)
| Throws (message : string)
| Malformed.

(** [test func] tells whether [_j.func()] holds for the incoming value.
    The body is read as one statement: [onFirst] tells that no branch has
    been read yet, so the next one has to open the chain with [if]; every
    later branch has to continue it with [else if], and the final
    [else throw] needs a branch before it.  Anything else, such as a
    second [if] that would start a statement of its own, is not a chain. *)
Fixpoint runProbeChain (test : string -> bool) (onFirst : bool)
         (body : list Emission) : DecodeOutcome :=
  match body with
  | EmitLine [SStr kw; SStr open; SStr func; SStr close]
      :: IndentBegin
      :: EmitLine [SStr assign; ty; SStr get]
      :: IndentEnd :: rest =>
      if String.eqb kw (if onFirst then "if" else "else if")
         && String.eqb open " (_j." && String.eqb close "())"
         && String.eqb assign "_x = _j.get<" && String.eqb get ">();"
      then if test func then DecodesAs ty
           else runProbeChain test false rest
      else Malformed
  | [EmitLine [SStr s]] =>
      if negb onFirst && startsWith "else throw " s then Throws s
      else Malformed
  | _ => Malformed
  end.

(** The alternatives of the probe chain, in probe order. *)
Fixpoint probeTypes (body : list Emission) : list Sourcelike :=
  match body with
  | EmitLine [SStr _; SStr _; SStr _; SStr _]
      :: IndentBegin
      :: EmitLine [SStr _; ty; SStr _]
      :: IndentEnd :: rest => ty :: probeTypes rest
  | _ => []
  end.

(** The runtime kinds of a JSON value and the kind tests of the JSON
    library the emitted code calls. *)
Inductive JsonValueKind :=
| JNull | JBoolean | JNumberInteger | JNumberFloat | JString | JObject
| JArray.

Definition jsonTest (v : JsonValueKind) (func : string) : bool :=
  match v with
  | JNull => false
  | JBoolean => String.eqb func "is_boolean"
  | JNumberInteger =>
      String.eqb func "is_number_integer" || String.eqb func "is_number"
  | JNumberFloat => String.eqb func "is_number"
  | JString => String.eqb func "is_string"
  | JObject => String.eqb func "is_object"
  | JArray => String.eqb func "is_array"
  end.

(** *** The union encoder's switch *)

(** The [(index, type)] pairs of the [case] branches, in order. *)
Fixpoint switchCases (body : list Emission) : list (string * Sourcelike) :=
  match body with
  | EmitLine [SStr kw; SStr i; SStr colon]
      :: IndentBegin
      :: EmitLine [SStr assign; ty; SStr get]
      :: EmitLine [SStr brk]
      :: IndentEnd :: rest =>
      if String.eqb kw "case " && String.eqb colon ":"
         && String.eqb assign "_j = boost::get<"
         && String.eqb get ">(_x);" && String.eqb brk "break;"
      then (i, ty) :: switchCases rest
      else []
  | _ => []
  end.

(** The statement of the [default] branch, when the switch ends with
    one. *)
Definition defaultBranch (body : list Emission) : option string :=
  match last body with
  | Some (EmitLine [SStr s]) =>
      if startsWith "default: " s
      then Some (String.substring 9 (String.length s - 9) s)
      else None
  | _ => None
  end.

(** *** The statement that reads one class property *)

Inductive ReadStrategy := OptionalRead | UntypedRead | StrictRead.

(** The reader a [from_json] statement calls: the fifth part of each of
    the three statements is a different literal. *)
Definition readStrategyOf (parts : list Sourcelike) : option ReadStrategy :=
  match parts !! 4%nat with
  | Some (SStr s) =>
      if String.eqb s "get_optional<" then Some OptionalRead
      else if String.eqb s (q "get_untyped(_j, `") then Some UntypedRead
      else if String.eqb s (q "`).get<") then Some StrictRead
      else None
  | _ => None
  end.

(** The call of the constraint checker inside a setter: the name
    argument, the constraint argument and the text that follows. *)
Fixpoint checkConstraintCall (checkConst : string) (parts : list Sourcelike)
  : option (Sourcelike * Sourcelike * Sourcelike) :=
  match parts with
  | [] => None
  | p :: rest =>
      match p, rest with
      | SStr c, SStr open :: nameArg :: SStr sep :: constraintArg
                  :: valueArg :: _ =>
          if String.eqb c checkConst && String.eqb open (q "(`")
             && String.eqb sep (q "`, ")
          then Some (nameArg, constraintArg, valueArg)
          else checkConstraintCall checkConst rest
      | _, _ => checkConstraintCall checkConst rest
      end
  end.

(** ** Concrete inputs used in examples *)

(** Modelled from the spec: [ConvenienceRenderer.unionNeedsName] is
    missing.  A union that collapses to the optional of one member has no
    declaration of its own (section 4.1); every other union is named. *)
Definition unionNeedsName_default (u : Ty) : bool :=
  eq_null (nullableFromUnion u).

Definition exampleRenderer : Renderer :=
  mkRenderer true ["quicktype"] (fun s => s) (fun s => s)
    (fun n => ("get_" +:+ n, "getMutable_" +:+ n, "set_" +:+ n))
    (fun _ => false) (fun s => s) (fun _ _ => None).

(** *** What a checker declares and what its errors are built from *)

(** The names a parameter list declares: the word before each comma and
    before the closing parenthesis. *)
Fixpoint declaredWords (current s : string) : list string :=
  match s with
  | EmptyString => []
  | String c rest =>
      if Ascii.eqb c ","%char || Ascii.eqb c ")"%char
      then current :: declaredWords EmptyString rest
      else if Ascii.eqb c " "%char || Ascii.eqb c "("%char
      then declaredWords EmptyString rest
      else declaredWords (current +:+ String c EmptyString) rest
  end.

(** The parameters of a checker, read off the line that opens it:
    [void Name(const std::string & name, const Class & c, T value) {]. *)
Definition checkerParameters (e : Emission) : option (list string) :=
  match e with
  | EmitLine [SArr [SStr kw; SStr _; SStr front; SStr _; SStr back];
              SStr open] =>
      if String.eqb kw "void " && String.eqb open " {"
      then Some (declaredWords EmptyString front
                 ++ declaredWords EmptyString back)
      else None
  | _ => None
  end.

(** The operands of a concatenation: the text is cut at every [+]
    outside a string literal, and the spaces outside literals are
    dropped. *)
Fixpoint plusOperands (inLiteral : bool) (current s : string)
  : list string :=
  match s with
  | EmptyString => [current]
  | String c rest =>
      if Ascii.eqb c (Ascii.ascii_of_nat 34)
      then plusOperands (negb inLiteral) (current +:+ String c EmptyString)
             rest
      else if negb inLiteral && Ascii.eqb c "+"%char
      then current :: plusOperands false EmptyString rest
      else if negb inLiteral && Ascii.eqb c " "%char
      then plusOperands false current rest
      else plusOperands inLiteral (current +:+ String c EmptyString) rest
    end.

(** What the message of a [throw] statement is built from: the exception
    class, and the operands that follow the opening literal and the
    literal [" ("], which are the name and the rejected quantity. *)
Definition thrownMessage (e : Emission)
  : option (string * option string * option string) :=
  match e with
  | EmitLine [SStr kw; SStr exception; SStr message; SStr _; SStr _] =>
      if String.eqb kw "throw " then
        let operands := plusOperands false EmptyString message in
        Some (exception, operands !! 1%nat, operands !! 3%nat)
      else None
  | _ => None
  end.

(** The checker calls of a sequence of emitted lines. *)
Definition checkConstraintCalls (checkConst : string) (lines : list Emission)
  : list (Sourcelike * Sourcelike * Sourcelike) :=
  omap (fun e =>
          match e with
          | EmitLine parts => checkConstraintCall checkConst parts
          | _ => None
          end) lines.

(** Every record of the include map has a defined kind, as in every map
    [updateIncludes] builds from the empty one. *)
Definition includesDefined (includes : gmap string IncludeRecord) : Prop :=
  forall k r, includes !! k = Some r -> inc_kind r <> None.

(** ** The properties as the specification words them *)


(** The probes of the union decoder, in the order of the specification:
    boolean, integer, double, string, class-shaped object, map-shaped
    object, array, string-as-enum. *)
Inductive Probe :=
| ProbeBoolean | ProbeInteger | ProbeDouble | ProbeString
| ProbeClassObject | ProbeMapObject | ProbeArray | ProbeStringEnum.

Definition spec_probeOrder : list Probe :=
  [ProbeBoolean; ProbeInteger; ProbeDouble; ProbeString; ProbeClassObject;
   ProbeMapObject; ProbeArray; ProbeStringEnum].

(** The kind of alternative a probe decodes into. *)
Definition probeKind (p : Probe) : TypeKind :=
  match p with
  | ProbeBoolean => "bool"
  | ProbeInteger => "integer"
  | ProbeDouble => "double"
  | ProbeString => "string"
  | ProbeClassObject => "class"
  | ProbeMapObject => "map"
  | ProbeArray => "array"
  | ProbeStringEnum => "enum"
  end.

(** The runtime kind test of a probe. *)
Definition probeTest (p : Probe) : string :=
  match p with
  | ProbeBoolean => "is_boolean"
  | ProbeInteger => "is_number_integer"
  | ProbeDouble => "is_number"
  | ProbeString | ProbeStringEnum => "is_string"
  | ProbeClassObject | ProbeMapObject => "is_object"
  | ProbeArray => "is_array"
  end.

(** The alternative the first matching probe selects; probes whose kind
    is absent from the union are skipped. *)
Fixpoint spec_firstMatch (test : string -> bool) (alternatives : list Ty)
         (order : list Probe) : option Ty :=
  match order with
  | [] => None
  | p :: rest =>
      match find (fun t => bool_decide (kind t = probeKind p)) alternatives
      with
      | Some alt =>
          if test (probeTest p) then Some alt
          else spec_firstMatch test alternatives rest
      | None => spec_firstMatch test alternatives rest
      end
  end.

(** The checks of the constraint checker, in the order of the
    specification, and the exception of each. *)
Inductive Check :=
| CheckMinimum | CheckMaximum | CheckMinLength | CheckMaxLength
| CheckPattern.





(** The conditions the emitted checkers test for each check. *)
Definition checkGuards (this : Renderer) (ck : Check) : list string :=
  let getter g := lookupMemberName this g in
  match ck with
  | CheckMinimum =>
      ["if (c." +:+ getter GetMinValue
       +:+ "() != boost::none && value < *c." +:+ getter GetMinValue
       +:+ "())"]
  | CheckMaximum =>
      ["if (c." +:+ getter GetMaxValue
       +:+ "() != boost::none && value > *c." +:+ getter GetMaxValue
       +:+ "())"]
  | CheckMinLength =>
      ["if (c." +:+ getter GetMinLength
       +:+ "() != boost::none && value.length() < *c."
       +:+ getter GetMinLength +:+ "())"]
  | CheckMaxLength =>
      ["if (c." +:+ getter GetMaxLength
       +:+ "() != boost::none && value.length() > *c."
       +:+ getter GetMaxLength +:+ "())"]
  | CheckPattern =>
      ["if (c." +:+ getter GetPattern +:+ "() != boost::none)";
       "if (result.empty())"]
  end.

(** The bounds a constraint object is constructed with, as the
    initializer of the class writes them. *)
Record ConstraintValues := mkConstraintValues {
  cv_minValue : option Z;
  cv_maxValue : option Z
}.

(** The constraint class holds each numeric bound in a
    [boost::optional<int>] (the [cppType] of the members at lines
    300-303, declared at line 1241): a bound is narrowed to the 32 bits
    of an [int], wrapping around in two's complement. *)
Definition intOfBound (bound : Z) : Z :=
  ((bound + 2 ^ 31) mod 2 ^ 32 - 2 ^ 31)%Z.

(** The truth of the numeric conditions for an [int64_t] value: the
    held [int] is widened to 64 bits for the comparison, which changes
    nothing. *)
Definition int64GuardHolds (this : Renderer) (c : ConstraintValues)
           (value : Z) (header : string) : bool :=
  if bool_decide (header ∈ checkGuards this CheckMinimum) then
    match cv_minValue c with
    | Some bound => bool_decide (value < intOfBound bound)%Z
    | None => false
    end
  else if bool_decide (header ∈ checkGuards this CheckMaximum) then
    match cv_maxValue c with
    | Some bound => bool_decide (value > intOfBound bound)%Z
    | None => false
    end
  else false.

(** ** More concrete inputs *)

(** A union of a double and an integer. *)
Definition exampleNumberUnion : Ty :=
  UnionType "Number" [DoubleType; IntegerType].

(** A constrained property whose wire name differs from its member
    name. *)
Definition exampleProperty : ClassProperty :=
  mkClassProperty "first_name" "firstName" StringType.

Definition exampleConstraints : option (gmap string string) :=
  Some {[ "firstName" := "firstNameConstraint(boost::none, boost::none, 1, 10, boost::none)" ]}.

(** A class with a by-value member, a sequence member and a named union
    member. *)
Definition exampleClass : Definition_ :=
  DefClass "Owner"
    [ mkClassProperty "direct" "direct" (ClassType "Direct");
      mkClassProperty "items" "items" (ArrayType (ClassType "Item"));
      mkClassProperty "choice" "choice"
        (UnionType "Choice" [IntegerType; ClassType "Alt"]) ].

(** * Further functions of the renderer *)

(** ** [emitNamespaces] (lines 567-580)

    [f] is what the callback emits. *)
Fixpoint emitNamespaces (namespaceNames : list string) (f : list Emission)
  : list Emission :=
  match namespaceNames with
  | [] => f
  | first :: rest =>
      emitBlock (SArr [SStr "namespace "; SStr first]) false
        (emitNamespaces rest f)
        (bool_decide (length namespaceNames = 1))
  end.

(** [emitInclude] (lines 470-472) *)
Definition emitInclude (global : bool) (name : Sourcelike) : list Emission :=
  emitLine [SStr "#include "; SStr (if global then "<" else dq); name;
            SStr (if global then ">" else dq)].

(** ** A JavaScript [Map], with its iteration order

    Entries are kept in the order their keys were first set; setting a
    key again replaces the value in place. *)
Section JsMap.

Context {K V : Type} `{EqDecision K}.

Fixpoint mapGet (m : list (K * V)) (k : K) : option V :=
  match m with
  | [] => None
  | (k', v) :: rest => if decide (k' = k) then Some v else mapGet rest k
  end.

Fixpoint mapSet (m : list (K * V)) (k : K) (v : V) : list (K * V) :=
  match m with
  | [] => [(k, v)]
  | (k', v') :: rest =>
      if decide (k' = k) then (k, v) :: rest else (k', v') :: mapSet rest k v
  end.

End JsMap.

(** ** [emitIncludes] (lines 1586-1651)

    The include map is a [Map] whose iteration order decides the order
    of the emitted lines, so [updateIncludes] is run here on the ordered
    map. *)
Section IncludeEmitter.

Variable this : Renderer.
Variable unionNeedsName : Ty -> bool.

(** [_enumType] *)
Variable enumType : string.

(** The merge of lines 1571-1582 on the ordered map. *)
Definition mergeIncludeOrdered (includes : list (string * IncludeRecord))
           (typeName : string) (propRecord : IncludeRecord)
  : list (string * IncludeRecord) :=
  match mapGet includes typeName with
  | Some incKind =>
      if bool_decide (inc_kind incKind = Some ForwardDeclare)
      then mapSet includes typeName propRecord
      else includes
  | None => mapSet includes typeName propRecord
  end.

Definition updateIncludesOrdered (isClassMember : bool)
           (includes : list (string * IncludeRecord)) (propertyType : Ty)
  : list (string * IncludeRecord) :=
  foldl (fun includes t =>
           mergeIncludeOrdered includes (tr_name t) (propRecordFor t))
    includes (generatedTypes unionNeedsName isClassMember propertyType).

(** Lines 1591-1599: the map [emitIncludes] fills. *)
Definition includesOf (c : Definition_) : list (string * IncludeRecord) :=
  match c with
  | DefUnion u => updateIncludesOrdered false [] u
  | DefClass _ props =>
      foldl (fun includes property =>
               updateIncludesOrdered true includes (cp_type property))
        [] props
  | DefEnum _ => []
  end.

(** The callback of the first [forEach] (lines 1604-1616): the include
    line of one entry, if any. *)
Definition includeLine (defName : string) (entry : string * IncludeRecord)
  : list Emission :=
  let '(name, rec) := entry in
  if bool_decide (name = defName) then []
  else if bool_decide (inc_kind rec ≠ Some ForwardDeclare)
       then emitInclude false (SArr [SStr name; SStr ".hpp"])
       else [].

(** Whether the first [forEach] counts the entry in [numIncludes],
    respectively [numForwards]. *)
Definition countsAsInclude (defName : string)
           (entry : string * IncludeRecord) : bool :=
  negb (bool_decide (fst entry = defName))
  && bool_decide (inc_kind (snd entry) ≠ Some ForwardDeclare).

Definition countsAsForward (defName : string)
           (entry : string * IncludeRecord) : bool :=
  negb (bool_decide (fst entry = defName))
  && bool_decide (inc_kind (snd entry) = Some ForwardDeclare).

(** The callback of the second [forEach] (lines 1624-1645): the forward
    declaration of one entry, if any; [None] when it panics. *)
Definition forwardLine (defName : string) (entry : string * IncludeRecord)
  : option (list Emission) :=
  let '(name, rec) := entry in
  if bool_decide (name = defName) then Some []
  else if bool_decide (inc_kind rec ≠ Some ForwardDeclare) then Some []
  else if bool_decide (inc_typeKind rec = Some "class")
          || bool_decide (inc_typeKind rec = Some "union")
  then
    if codeFormat this
    then Some (emitLine [SStr "class "; SStr name; SStr ";"])
    else Some (emitLine [SStr "struct "; SStr name; SStr ";"])
  else if bool_decide (inc_typeKind rec = Some "enum")
  then Some (emitLine [SStr "enum class "; SStr name; SStr " : ";
                       SStr enumType; SStr ";"])
  else None.

(** The second [forEach]: all forward declarations, or a panic. *)
Fixpoint forwardLines (defName : string)
         (includes : list (string * IncludeRecord))
  : option (list Emission) :=
  match includes with
  | [] => Some []
  | entry :: rest =>
      match forwardLine defName entry with
      | None => None
      | Some lines =>
          match forwardLines defName rest with
          | None => None
          | Some more => Some (lines ++ more)
          end
      end
  end.

Definition emitIncludes (c : Definition_) (defName : string)
  : option (list Emission) :=
  let includes := includesOf c in
  if bool_decide (length includes ≠ 0) then
    let numForwards := length (filter (countsAsForward defName) includes) in
    let numIncludes := length (filter (countsAsInclude defName) includes) in
    let included := flat_map (includeLine defName) includes in
    let blank := if bool_decide (0 < numIncludes) then [EnsureBlankLine]
                 else [] in
    if bool_decide (0 < numForwards) then
      match forwardLines defName includes with
      | None => None
      | Some forwards =>
          Some (included ++ blank
                ++ emitNamespaces (namespaceNames this) forwards
                ++ [EnsureBlankLine])
      end
    else Some (included ++ blank ++ [EnsureBlankLine])
  else Some [].

End IncludeEmitter.

(** The header a line includes, and the name a line forward
    declares. *)
Definition includedHeader (e : Emission) : option string :=
  match e with
  | EmitLine [SStr kw; SStr _; file; SStr _] =>
      if String.eqb kw "#include " then Some (sourcelikeToString file)
      else None
  | _ => None
  end.

Definition forwardDeclared (e : Emission) : option string :=
  match e with
  | EmitLine [SStr kw; SStr name; SStr semi] =>
      if (String.eqb kw "class " || String.eqb kw "struct ")
         && String.eqb semi ";"
      then Some name else None
  | EmitLine [SStr kw; SStr name; SStr colon; SStr _; SStr semi] =>
      if String.eqb kw "enum class " && String.eqb colon " : "
         && String.eqb semi ";"
      then Some name else None
  | _ => None
  end.

(** ** [emitEnumFunctions] (lines 1113-1153)

    An enum case as [forEachEnumCase] hands it to its callback: the case
    name and the wire label. *)
Record EnumCase := mkEnumCase {
  ec_name : Name;
  ec_jsonName : string
}.

Section EnumEmitters.

Variable this : Renderer.

(** The loop of lines 1117-1132; [onFirst] is its mutable flag. *)
Fixpoint enumFromJsonCases (enumName : Name) (onFirst : bool)
         (cases : list EnumCase) : list Emission :=
  match cases with
  | [] => []
  | c :: rest =>
      let maybeElse := if onFirst then EmptyString else "else " in
      emitLine [SStr maybeElse; SStr (q "if (_j == `");
                SStr (stringEscape this (ec_jsonName c));
                SStr (q "`) _x = "); ourQualifier this true; SName enumName;
                SStr "::"; SName (ec_name c); SStr ";"]
      ++ enumFromJsonCases enumName false rest
  end.

Definition enumFromJsonBody (cases : list EnumCase) (enumName : Name)
  : list Emission :=
  enumFromJsonCases enumName true cases ++ enumFromJsonElse.

(** The loop of lines 1138-1149. *)
Definition enumToJsonCases (cases : list EnumCase) (enumName : Name)
  : list Emission :=
  flat_map
    (fun c =>
       emitLine [SStr "case "; ourQualifier this true; SName enumName;
                 SStr "::"; SName (ec_name c); SStr (q ": _j = `");
                 SStr (stringEscape this (ec_jsonName c));
                 SStr (q "`; break;")])
    cases.

Definition enumToJsonSwitch (cases : list EnumCase) (enumName : Name)
  : list Emission :=
  enumToJsonCases cases enumName ++ enumToJsonDefault.

Definition emitEnumFunctions (cases : list EnumCase) (enumName : Name)
  : list Emission :=
  let ourQualifier := ourQualifier this true in
  emitBlock
    (SArr [SStr "inline void from_json(const json& _j, "; ourQualifier;
           SName enumName; SStr "& _x)"])
    false (enumFromJsonBody cases enumName) true
  ++ [EnsureBlankLine]
  ++ emitBlock
       (SArr [SStr "inline void to_json(json& _j, const "; ourQualifier;
              SName enumName; SStr "& _x)"])
       false
       (emitBlock (SStr "switch (_x)") false
          (enumToJsonSwitch cases enumName) true)
       true.

End EnumEmitters.

(** *** Reading the enum decoder and encoder *)

Inductive EnumDecodeOutcome :=
| AssignsCase (caseName : string)
| DecodeThrows (statement : string)
| DecodeMalformed.

(** [equals lit] tells whether [_j == "lit"] holds for the incoming
    value.  The body is read as one statement: [onFirst] tells that no
    branch has been read yet, so the next [if] has to stand without
    [else]; every later one has to be an [else if], and the final
    [else throw] needs a branch before it.  A later [if] without [else]
    would start a statement of its own and is not read as a chain. *)
Fixpoint runEnumDecoder (equals : string -> bool) (onFirst : bool)
         (body : list Emission) : EnumDecodeOutcome :=
  match body with
  | EmitLine [SStr maybeElse; SStr test; SStr lit; SStr assign; _; _;
              SStr sep; SName caseName; SStr semi] :: rest =>
      if String.eqb maybeElse (if onFirst then EmptyString else "else ")
         && String.eqb test (q "if (_j == `")
         && String.eqb assign (q "`) _x = ")
         && String.eqb sep "::" && String.eqb semi ";"
      then if equals lit then AssignsCase caseName
           else runEnumDecoder equals false rest
      else DecodeMalformed
  | [EmitLine [SStr s]] =>
      if negb onFirst && startsWith "else throw " s then DecodeThrows s
      else DecodeMalformed
  | _ => DecodeMalformed
  end.

Inductive EnumEncodeOutcome :=
| WritesLiteral (lit : string)
| EncodeThrows (statement : string)
| EncodeMalformed.

(** [isActive name] tells whether the value being encoded is the case
    [name]; the switch jumps to the first label that is. *)
Fixpoint runEnumEncoder (isActive : string -> bool) (body : list Emission)
  : EnumEncodeOutcome :=
  match body with
  | EmitLine [SStr kw; _; _; SStr sep; SName caseName; SStr assign;
              SStr lit; SStr brk] :: rest =>
      if String.eqb kw "case " && String.eqb sep "::"
         && String.eqb assign (q ": _j = `")
         && String.eqb brk (q "`; break;")
      then if isActive caseName then WritesLiteral lit
           else runEnumEncoder isActive rest
      else EncodeMalformed
  | [EmitLine [SStr s]] =>
      if startsWith "default: throw " s then EncodeThrows s
      else EncodeMalformed
  | _ => EncodeMalformed
  end.

(** The two lines that open a namespace block and the two that close
    one. *)
Definition namespaceOpen (name : string) : list Emission :=
  [EmitLine [SArr [SStr "namespace "; SStr name]; SStr " {"];
   PreventBlankLine].

Definition namespaceClose : list Emission :=
  [PreventBlankLine; EmitLine [SStr "}"]].

(** The type whose header a line includes: [#include "Name.hpp"]. *)
Definition includedType (e : Emission) : option string :=
  match e with
  | EmitLine [SStr kw; SStr _; SArr [SStr name; SStr ext]; SStr _] =>
      if String.eqb kw "#include " && String.eqb ext ".hpp" then Some name
      else None
  | _ => None
  end.

(** ** The keys the class decoder reads and the encoder writes *)

(** The key a [from_json] statement reads. *)
Definition fromJsonKey (e : Emission) : option string :=
  match e with
  | EmitLine parts =>
      let at_ (i : nat) :=
        match parts !! i with Some (SStr key) => Some key | _ => None end in
      match readStrategyOf parts with
      | Some OptionalRead => at_ 7
      | Some UntypedRead => at_ 5
      | Some StrictRead => at_ 3
      | None => None
      end
  | _ => None
  end.

(** The key a [to_json] statement writes. *)
Definition toJsonKey (e : Emission) : option string :=
  match e with
  | EmitLine (SStr open :: SStr key :: SStr assign :: _) =>
      if String.eqb open (q "_j[`") && String.eqb assign (q "`] = _x.")
      then Some key else None
  | _ => None
  end.

(** ** The generated names (lines 386-415)

    The renderer's constructor starts from empty tables and calls
    [setupGlobalNames]. *)

#[global] Instance GlobalNames_eq_dec : EqDecision GlobalNames.
Proof. solve_decision. Defined.

#[global] Instance MemberNames_eq_dec : EqDecision MemberNames.
Proof. solve_decision. Defined.

Record NameTables := mkNameTables {
  generatedGlobalNames : list (GlobalNames * string);
  generatedMemberNames : list (MemberNames * string);
  forbiddenGlobalNames : list string
}.

Definition emptyNameTables : NameTables := mkNameTables [] [] [].

(** Modelled from the spec: [numberEnumValues] of [../support/Support]
    is missing.  It lists the values of a numeric enum in declaration
    order. *)
Definition numberEnumValues_GlobalNames : list GlobalNames :=
  [ClassMemberConstraints; ClassMemberConstraintException;
   ValueTooLowException; ValueTooHighException; ValueTooShortException;
   ValueTooLongException; InvalidPatternException; CheckConstraint].

Definition numberEnumValues_MemberNames : list MemberNames :=
  [MinValue; GetMinValue; SetMinValue; MaxValue; GetMaxValue; SetMaxValue;
   MinLength; GetMinLength; SetMinLength; MaxLength; GetMaxLength;
   SetMaxLength; Pattern; GetPattern; SetPattern].

(** [keywords] (lines 135-236) *)
Definition keywords : list string :=
  ["alignas"; "alignof"; "and"; "and_eq"; "asm"; "atomic_cancel";
   "atomic_commit"; "atomic_noexcept"; "auto"; "bitand"; "bitor"; "bool";
   "break"; "case"; "catch"; "char"; "char16_t"; "char32_t"; "class";
   "compl"; "concept"; "const"; "constexpr"; "const_cast"; "continue";
   "co_await"; "co_return"; "co_yield"; "decltype"; "default"; "delete";
   "do"; "double"; "dynamic_cast"; "else"; "enum"; "explicit"; "export";
   "extern"; "false"; "float"; "for"; "friend"; "goto"; "if"; "import";
   "inline"; "int"; "long"; "module"; "mutable"; "namespace"; "new";
   "noexcept"; "not"; "not_eq"; "nullptr"; "operator"; "or"; "or_eq";
   "private"; "protected"; "public"; "register"; "reinterpret_cast";
   "requires"; "return"; "short"; "signed"; "sizeof"; "static";
   "static_assert"; "static_cast"; "struct"; "switch"; "synchronized";
   "template"; "this"; "thread_local"; "throw"; "true"; "try"; "typedef";
   "typeid"; "typename"; "union"; "unsigned"; "using"; "virtual"; "void";
   "volatile"; "wchar_t"; "while"; "xor"; "xor_eq"; "override"; "final";
   "transaction_safe"; "transaction_safe_dynamic"; "NULL"].

Section NameSetup.

Variable this : Renderer.

(** [addGlobalName] (lines 394-398) *)
Definition addGlobalName (tables : NameTables) (type : GlobalNames)
  : NameTables :=
  let genName := namedTypeNameStyle this (GlobalNames_key type) in
  mkNameTables
    (mapSet (generatedGlobalNames tables) type genName)
    (generatedMemberNames tables)
    (forbiddenGlobalNames tables ++ [genName]).

(** [addMemberName] (lines 400-402) *)
Definition addMemberName (tables : NameTables) (type : MemberNames)
  : NameTables :=
  mkNameTables
    (generatedGlobalNames tables)
    (mapSet (generatedMemberNames tables) type
       (memberNameStyle this (MemberNames_key type)))
    (forbiddenGlobalNames tables).

(** [setupGlobalNames] (lines 404-411) *)
Definition setupGlobalNames (tables : NameTables) : NameTables :=
  foldl addMemberName
    (foldl addGlobalName tables numberEnumValues_GlobalNames)
    numberEnumValues_MemberNames.

End NameSetup.

(** [lookupGlobalName] and [lookupMemberName] on the tables (lines
    386-392); [None] when [defined] throws. *)
Definition lookupGlobalNameIn (tables : NameTables) (type : GlobalNames)
  : option string :=
  mapGet (generatedGlobalNames tables) type.

Definition lookupMemberNameIn (tables : NameTables) (type : MemberNames)
  : option string :=
  mapGet (generatedMemberNames tables) type.

(** [forbiddenNamesForGlobalNamespace] (lines 413-415) *)
Definition forbiddenNamesForGlobalNamespace (tables : NameTables)
  : list string :=
  keywords ++ forbiddenGlobalNames tables.

(** ** [emitConstraintClasses] (lines 1230-1391) *)

(** [constraintMembers] (lines 291-311) *)
Record ConstraintMember := mkConstraintMember {
  cm_name : MemberNames;
  cm_getter : MemberNames;
  cm_setter : MemberNames;
  cm_cppType : string;
  cm_cppConstType : option string
}.

Definition constraintMembers : list ConstraintMember :=
  [ mkConstraintMember MinValue GetMinValue SetMinValue "int" None;
    mkConstraintMember MaxValue GetMaxValue SetMaxValue "int" None;
    mkConstraintMember MinLength GetMinLength SetMinLength "int" None;
    mkConstraintMember MaxLength GetMaxLength SetMaxLength "int" None;
    mkConstraintMember Pattern GetPattern SetPattern "std::string"
      (Some "const std::string &") ].

(** Modelled from the spec: [withDefault] of [collection-utils] is
    missing.  The value, or the default when it is undefined. *)
Definition withDefault {A} (x : option A) (default : A) : A :=
  match x with Some v => v | None => default end.

Inductive ForEachPosition := PosFirst | PosLast | PosMiddle | PosOnly.

(** Modelled from the spec: [iterableForEach] of [../Renderer] is
    missing.  It calls the emitter on every item with its position: the
    only one, the first, the last, or one in the middle. *)
Fixpoint iterableForEachFrom {A} (onFirst : bool) (items : list A)
         (emitter : A -> ForEachPosition -> list Emission) : list Emission :=
  match items with
  | [] => []
  | [v] => emitter v (if onFirst then PosOnly else PosLast)
  | v :: rest =>
      emitter v (if onFirst then PosFirst else PosMiddle)
      ++ iterableForEachFrom false rest emitter
  end.

Definition iterableForEach {A} (items : list A)
           (emitter : A -> ForEachPosition -> list Emission) : list Emission :=
  iterableForEachFrom true items emitter.

Section ConstraintClasses.

Variable this : Renderer.

(** [emitGetterSetter] (lines 1225-1228) *)
Definition emitGetterSetter (t getterName setterName memberName : string)
  : list Emission :=
  emitLine [SStr "void "; SStr setterName; SStr "("; SStr t; SStr " ";
            SStr memberName; SStr ") { this->"; SStr memberName; SStr " = ";
            SStr memberName; SStr "; }"]
  ++ emitLine [SStr "auto "; SStr getterName; SStr "() const { return ";
               SStr memberName; SStr "; }"].

(** Lines 1238-1270: the class that holds the bounds. *)
Definition emitConstraintsClass : list Emission :=
  let classConstraint := lookupGlobalName this ClassMemberConstraints in
  emitBlock (SArr [SStr "class "; SStr classConstraint]) true
    (emitLine [SStr "private:"]
     ++ flat_map
          (fun member =>
             emitMember
               (SArr [SStr "boost::optional<"; SStr (cm_cppType member);
                      SStr ">"])
               (SStr (lookupMemberName this (cm_name member))))
          constraintMembers
     ++ [EnsureBlankLine]
     ++ emitLine [SStr "public:"]
     ++ emitLine [SStr classConstraint; SStr "("]
     ++ indent
          (iterableForEach constraintMembers
             (fun member pos =>
                let comma :=
                  match pos with
                  | PosFirst | PosMiddle => SStr ","
                  | _ => SArr []
                  end in
                emitLine [SStr "boost::optional<"; SStr (cm_cppType member);
                          SStr "> ";
                          SStr (lookupMemberName this (cm_name member));
                          comma]))
     ++ (let args :=
           map (fun m =>
                  let member := lookupMemberName this (cm_name m) in
                  SArr [SStr member; SStr "("; SStr member; SStr ")"])
             constraintMembers in
         emitLine [SStr ") : ";
                   SArr (arrayIntercalate (SArr [SStr ", "]) args);
                   SStr " {}"])
     ++ emitLine [SStr classConstraint; SStr "() = default;"]
     ++ emitLine [SStr "virtual ~"; SStr classConstraint;
                  SStr "() = default;"]
     ++ flat_map
          (fun member =>
             [EnsureBlankLine]
             ++ emitGetterSetter
                  (withDefault (cm_cppConstType member) (cm_cppType member))
                  (lookupMemberName this (cm_getter member))
                  (lookupMemberName this (cm_setter member))
                  (lookupMemberName this (cm_name member)))
          constraintMembers)
    true.

(** [exceptions] (lines 1280-1286) *)
Definition exceptions : list GlobalNames :=
  [ValueTooLowException; ValueTooHighException; ValueTooShortException;
   ValueTooLongException; InvalidPatternException].

(** Lines 1273-1295: the exception classes. *)
Definition emitExceptionClasses : list Emission :=
  let classConstEx := lookupGlobalName this ClassMemberConstraintException in
  emitBlock
    (SArr [SStr "class "; SStr classConstEx;
           SStr " : public std::runtime_error"]) true
    (emitLine [SStr "public:"]
     ++ emitLine [SStr classConstEx;
                  SStr "(const std::string& msg) : std::runtime_error(msg) {}"])
    true
  ++ [EnsureBlankLine]
  ++ flat_map
       (fun ex =>
          let name := lookupGlobalName this ex in
          emitBlock
            (SArr [SStr "class "; SStr name; SStr " : public ";
                   SStr classConstEx]) true
            (emitLine [SStr "public:"]
             ++ emitLine [SStr name; SStr "(const std::string& msg) : ";
                          SStr classConstEx; SStr "(msg) {}"])
            true
          ++ [EnsureBlankLine])
       exceptions.

Definition emitConstraintClasses : list Emission :=
  emitConstraintsClass
  ++ [EnsureBlankLine]
  ++ emitExceptionClasses
  ++ emitCheckConstraintInt64 this
  ++ [EnsureBlankLine]
  ++ emitCheckConstraintString this.

End ConstraintClasses.

(** *** Reading the declarations of the validation runtime *)

(** The class a line declares and its base: [class Name : public Base {]. *)
Definition declaredSubclass (e : Emission) : option (string * string) :=
  match e with
  | EmitLine [SArr [SStr kw; SStr name; SStr pub; SStr base]; SStr open] =>
      if String.eqb kw "class " && String.eqb pub " : public "
         && String.eqb open " {"
      then Some (name, base) else None
  | _ => None
  end.

(** The exception class a [throw] statement constructs. *)
Definition thrownClass (e : Emission) : option string :=
  match e with
  | EmitLine (SStr kw :: SStr exception :: _) =>
      if String.eqb kw "throw " then Some exception else None
  | _ => None
  end.

(** The getter a line declares: [auto name() const { return member; }]. *)
Definition declaredGetter (e : Emission) : option string :=
  match e with
  | EmitLine [SStr kw; SStr getter; SStr body; SStr _; SStr close] =>
      if String.eqb kw "auto " && String.eqb body "() const { return "
         && String.eqb close "; }"
      then Some getter else None
  | _ => None
  end.

(** The getter a checker condition calls first: [if (c.name() ...]. *)
Definition calledGetter (e : Emission) : option string :=
  match e with
  | EmitLine [SArr (SStr kw :: SStr getter :: _); SStr open] =>
      if String.eqb kw "if (c." && String.eqb open " {" then Some getter
      else None
  | _ => None
  end.

(** The parameter a line of the constructor's parameter list declares,
    and whether a comma follows it. *)
Definition constructorParameter (e : Emission) : option (string * bool) :=
  match e with
  | EmitLine [SStr kw; SStr _; SStr close; SStr name; comma] =>
      if String.eqb kw "boost::optional<" && String.eqb close "> "
      then Some (name, match comma with SStr _ => true | _ => false end)
      else None
  | _ => None
  end.

(** ** [emitClass] and the constraints of a class (lines 123-131,
    869-924) *)

Section ClassDeclaration.

Variable this : Renderer.

(** JavaScript numbers and their conversion to a string when they are
    concatenated to one. *)
Variable number : Type.
Variable numberToString : number -> string.

(** [property.type] is a node of the type graph, and the constraints are
    attributes of the node: two properties whose types have the same
    structure may differ in them.  [TypeNode] is the type of nodes and
    [typeNode property] the node of [property.type], whose structure is
    [cp_type property]. *)
Variable TypeNode : Type.
Variable typeNode : ClassProperty -> TypeNode.

(** [minMaxValueForType], [minMaxLengthForType] and [patternForType] of
    [../Constraints] read the attributes of a node; [descriptionForType]
    reads the description of a named type. *)
Variable minMaxValueForType :
  TypeNode -> option (option number * option number).
Variable minMaxLengthForType :
  TypeNode -> option (option number * option number).
Variable patternForType : TypeNode -> option string.
Variable descriptionForType : Name -> option (list string).

Record TypeConstraints := mkTypeConstraints {
  tc_minMax : option (option number * option number);
  tc_minMaxLength : option (option number * option number);
  tc_pattern : option string
}.

(** [constraintsForType] (lines 123-131) *)
Definition constraintsForType (t : TypeNode) : option TypeConstraints :=
  let minMax := minMaxValueForType t in
  let minMaxLength := minMaxLengthForType t in
  let pattern := patternForType t in
  match minMax, minMaxLength, pattern with
  | None, None, None => None
  | _, _, _ => Some (mkTypeConstraints minMax minMaxLength pattern)
  end.

(** [minMax !== undefined && minMax[i] !== undefined ? minMax[i] :
    "boost::none"] *)
Definition boundOrNone (minMax : option (option number * option number))
           (pick : option number * option number -> option number) : string :=
  match minMax with
  | Some bounds =>
      match pick bounds with
      | Some n => numberToString n
      | None => "boost::none"
      end
  | None => "boost::none"
  end.

(** The argument list built at lines 876-886. *)
Definition constrArg (constraints : TypeConstraints) : string :=
  let constrArg := "(" in
  let constrArg := constrArg +:+ boundOrNone (tc_minMax constraints) fst in
  let constrArg := constrArg +:+ ", " in
  let constrArg := constrArg +:+ boundOrNone (tc_minMax constraints) snd in
  let constrArg := constrArg +:+ ", " in
  let constrArg :=
    constrArg +:+ boundOrNone (tc_minMaxLength constraints) fst in
  let constrArg := constrArg +:+ ", " in
  let constrArg :=
    constrArg +:+ boundOrNone (tc_minMaxLength constraints) snd in
  let constrArg := constrArg +:+ ", " in
  let constrArg :=
    constrArg +:+
    match tc_pattern constraints with
    | None => "boost::none"
    | Some pattern => q "std::string(`" +:+ pattern +:+ q "`)"
    end in
  constrArg +:+ ")".

(** [generateClassConstraints] (lines 869-892): the initializer of each
    constrained property under its wire name, or [None] for
    [undefined]. *)
Definition generateClassConstraints (props : list ClassProperty)
  : option (list (string * string)) :=
  let res :=
    foldl (fun res property =>
             match constraintsForType (typeNode property) with
             | None => res
             | Some constraints =>
                 let jsonName := cp_jsonName property in
                 mapSet res jsonName
                   (constraintMember this jsonName +:+ constrArg constraints)
             end) [] props in
  if bool_decide (length res = 0) then None else Some res.

(** The properties [generateClassConstraints] gives an entry to: those
    whose type carries constraints, under their wire names, in declared
    order. *)
Definition constrainedProperties (props : list ClassProperty)
  : list (string * TypeConstraints) :=
  omap (fun property =>
          match constraintsForType (typeNode property) with
          | None => None
          | Some constraints => Some (cp_jsonName property, constraints)
          end) props.

(** The value set at line 888 for a constrained property. *)
Definition initializerOf (entry : string * TypeConstraints) : string :=
  constraintMember this (fst entry) +:+ constrArg (snd entry).

(** The loop of lines 905-914; [numEmits] is its counter. *)
Fixpoint initializerLines (size numEmits : nat)
         (constraints : list (string * string)) : list Emission :=
  match constraints with
  | [] => []
  | (_propName, initializer) :: rest =>
      let numEmits := S numEmits in
      indent (if bool_decide (numEmits = size)
              then emitLine [SStr initializer]
              else emitLine [SStr initializer; SStr ","])
      ++ initializerLines size numEmits rest
  end.

(** [emitClass] (lines 894-924) *)
Definition emitClass (c : Name) (props : list ClassProperty)
           (className : Name) : list Emission :=
  [EmitDescription (descriptionForType c)]
  ++ emitBlock
       (SArr [SStr (if codeFormat this then "class " else "struct ");
              SName className])
       true
       (let constraints := generateClassConstraints props in
        (if codeFormat this then
           emitLine [SStr "public:"]
           ++ match constraints with
              | None => emitLine [SName className; SStr "() = default;"]
              | Some constraints =>
                  emitLine [SName className; SStr "() :"]
                  ++ initializerLines (length constraints) 0 constraints
                  ++ emitLine [SStr "{}"]
              end
           ++ emitLine [SStr "virtual ~"; SName className;
                        SStr "() = default;"]
           ++ [EnsureBlankLine]
         else [])
        ++ emitClassMembers this c props (list_to_map <$> constraints))
       true.

End ClassDeclaration.

(** *** Reading a class declaration *)

(** The initializers that follow a constructor head, each with whether
    a comma follows it. *)
Fixpoint initializersAfter (body : list Emission) : list (string * bool) :=
  match body with
  | IndentBegin :: EmitLine [SStr initializer] :: IndentEnd :: rest =>
      (initializer, false) :: initializersAfter rest
  | IndentBegin :: EmitLine [SStr initializer; SStr _] :: IndentEnd :: rest =>
      (initializer, true) :: initializersAfter rest
  | _ => []
  end.

(** The initializers of the constructor [Name() :] of a class. *)
Fixpoint constructorInitializers (body : list Emission)
  : list (string * bool) :=
  match body with
  | [] => []
  | e :: rest =>
      match e with
      | EmitLine [SName _; SStr head] =>
          if String.eqb head "() :" then initializersAfter rest
          else constructorInitializers rest
      | _ => constructorInitializers rest
      end
  end.

(** A line [Name() :], which opens a constructor's initializers. *)
Definition isConstructorHead (e : Emission) : bool :=
  match e with
  | EmitLine [SName _; SStr head] => String.eqb head "() :"
  | _ => false
  end.

(** The constraint member a line of the private section declares. *)
Definition declaredConstraintMember (e : Emission) : option string :=
  match e with
  | EmitLine [SStr _; SStr space; SStr member; SStr semi] =>
      if String.eqb space " " && String.eqb semi ";" then Some member
      else None
  | _ => None
  end.

(** A type whose rendering names nothing that lives in a namespace:
    neither the json value of an any or null type, nor a class, an enum
    or a union.  (A union that renders as the optional of such a type
    would qualify too; it is left out.) *)
Fixpoint namespaceFree (t : Ty) : bool :=
  match t with
  | BoolType | IntegerType | DoubleType | StringType => true
  | ArrayType items => namespaceFree items
  | MapType values => namespaceFree values
  | _ => false
  end.

(** * Proofs *)

(** ** Induction on type nodes, with the members of a union *)

Lemma Ty_members_ind (P : Ty -> Prop) :
  P AnyType -> P NullType -> P BoolType -> P IntegerType ->
  P DoubleType -> P StringType ->
  (forall items, P items -> P (ArrayType items)) ->
  (forall n, P (ClassType n)) ->
  (forall values, P values -> P (MapType values)) ->
  (forall n, P (EnumType n)) ->
  (forall n ms, Forall P ms -> P (UnionType n ms)) ->
  forall t, P t.
Proof.
  intros HAny HNull HBool HInt HDouble HString HArray HClass HMap HEnum
         HUnion.
  fix IH 1. intros [ | | | | | | items | n | values | n | n ms].
  - exact HAny.
  - exact HNull.
  - exact HBool.
  - exact HInt.
  - exact HDouble.
  - exact HString.
  - apply HArray, IH.
  - apply HClass.
  - apply HMap, IH.
  - apply HEnum.
  - apply HUnion.
    refine ((fix each (l : list Ty) : Forall P l :=
               match l with
               | [] => List.Forall_nil _
               | m :: rest => List.Forall_cons _ _ _ (IH m) (each rest)
               end) ms).
Qed.

(** ** The helpers on unions *)

Lemma iterableFind_undefined {A} (p : A -> bool) (it : list A) :
  iterableFind p it = JsUndefined <-> Forall (fun x => p x = false) it.
Proof.
  induction it as [|x it IH]; simpl.
  - split; [constructor | reflexivity].
  - destruct (p x) eqn:Hp.
    + split; [discriminate | intros H; inversion H; congruence].
    + rewrite IH. split; [by constructor | by inversion 1].
Qed.

Lemma iterableFind_never_null {A} (p : A -> bool) (it : list A) :
  iterableFind p it <> JsNull.
Proof. induction it as [|x it IH]; simpl; [|destruct (p x)]; congruence. Qed.

(** The first component of [removeNullFromUnion] is the null member or
    [null]; it is never [undefined]. *)
Lemma removeNullFromUnion_defined (u : Ty) (sortBy : bool) :
  neq_undefined (fst (removeNullFromUnion u sortBy)) = true.
Proof.
  unfold removeNullFromUnion. by destruct (findMember u "null").
Qed.

(** The first component does not depend on the sort. *)
Lemma removeNullFromUnion_fst (u : Ty) (sortBy : bool) :
  fst (removeNullFromUnion u sortBy)
  = match findMember u "null" with JsVal x => JsVal x | _ => JsNull end.
Proof. unfold removeNullFromUnion. by destruct (findMember u "null"). Qed.

Lemma filter_nonnull_id (ms : list Ty) :
  iterableFind (fun t => bool_decide (kind t = "null")) ms = JsUndefined ->
  filter (fun m => kind m ≠ "null") ms = ms.
Proof.
  rewrite iterableFind_undefined. induction 1 as [|m ms Hm _ IH]; [done|].
  rewrite filter_cons_True; [by rewrite IH|].
  by apply bool_decide_eq_false in Hm.
Qed.

(** Without sorting, the second component is the members other than
    null, in member order. *)
Lemma removeNullFromUnion_nonNulls (u : Ty) :
  snd (removeNullFromUnion u false)
  = filter (fun m => kind m ≠ "null") (members u).
Proof.
  unfold removeNullFromUnion, findMember.
  destruct (iterableFind _ (members u)) eqn:Hfind; simpl; try done.
  - by rewrite filter_nonnull_id.
  - by apply iterableFind_never_null in Hfind.
Qed.

Lemma iterableFind_defined {A} (p : A -> bool) (it : list A) :
  iterableFind p it <> JsUndefined <-> exists x, x ∈ it /\ p x = true.
Proof.
  induction it as [|x it IH]; simpl.
  - split; [done | intros (x & Hin & _); by apply elem_of_nil in Hin].
  - destruct (p x) eqn:Hp.
    + split; [intros _; exists x; split; [left | done] | done].
    + rewrite IH. split.
      * intros (y & Hin & Hy). exists y. split; [by right | done].
      * intros (y & Hin & Hy). apply elem_of_cons in Hin as [->|Hin];
          [congruence | by exists y].
Qed.

Lemma findMember_null_elem (u : Ty) :
  findMember u "null" <> JsUndefined <->
  exists m, m ∈ members u /\ kind m = "null".
Proof.
  unfold findMember. rewrite iterableFind_defined.
  split; intros (m & Hin & Hk); exists m; split; try done.
  - by apply bool_decide_eq_true in Hk.
  - by apply bool_decide_eq_true.
Qed.

(** ** The reference classifier *)

Lemma includesDefined_empty : includesDefined ∅.
Proof. intros k r H. by rewrite lookup_empty in H. Qed.

Lemma mergeInclude_lookup_ne includes k p n :
  k <> n -> mergeInclude includes k p !! n = includes !! n.
Proof.
  intros Hne. unfold mergeInclude.
  destruct (includes !! k) as [r|]; [case_bool_decide|];
    try done; by rewrite lookup_insert_ne.
Qed.

Lemma mergeInclude_lookup_eq includes k p :
  mergeInclude includes k p !! k
  = match includes !! k with
    | Some r =>
        if bool_decide (inc_kind r = Some ForwardDeclare) then Some p
        else Some r
    | None => Some p
    end.
Proof.
  unfold mergeInclude. destruct (includes !! k) as [r|] eqn:Hk.
  - case_bool_decide; [by rewrite lookup_insert_eq | done].
  - by rewrite lookup_insert_eq.
Qed.

(** A record that is not a forward declaration survives a merge. *)
Lemma mergeInclude_keeps includes k p n r :
  includes !! n = Some r -> inc_kind r <> Some ForwardDeclare ->
  mergeInclude includes k p !! n = Some r.
Proof.
  intros Hn Hkind. destruct (decide (k = n)) as [->|Hne].
  - rewrite mergeInclude_lookup_eq, Hn. by rewrite bool_decide_eq_false_2.
  - by rewrite mergeInclude_lookup_ne.
Qed.

Lemma foldl_includeStep_keeps records includes n r :
  includes !! n = Some r -> inc_kind r <> Some ForwardDeclare ->
  foldl includeStep includes records !! n = Some r.
Proof.
  revert includes. induction records as [|t records IH]; intros includes Hn Hk.
  - done.
  - simpl. apply IH; [|done]. unfold includeStep. by apply mergeInclude_keeps.
Qed.

Lemma mergeInclude_defined includes k p :
  includesDefined includes -> inc_kind p <> None ->
  includesDefined (mergeInclude includes k p).
Proof.
  intros Hdef Hp n r. destruct (decide (k = n)) as [->|Hne].
  - rewrite mergeInclude_lookup_eq.
    destruct (includes !! n) as [r0|] eqn:Hn.
    + case_bool_decide; intros [= <-]; [done | by eapply Hdef].
    + by intros [= <-].
  - rewrite mergeInclude_lookup_ne by done. apply Hdef.
Qed.

Lemma foldl_includeStep_defined records includes :
  includesDefined includes ->
  Forall (fun t => inc_kind (propRecordFor t) <> None) records ->
  includesDefined (foldl includeStep includes records).
Proof.
  intros Hdef Hrs. revert includes Hdef.
  induction Hrs as [|t records Ht _ IH]; intros includes Hdef; [done|].
  simpl. apply IH. by apply mergeInclude_defined.
Qed.

(** Strongest wins: a record classified [Include] decides its name. *)
Lemma include_wins records includes t :
  includesDefined includes ->
  Forall (fun t => inc_kind (propRecordFor t) <> None) records ->
  t ∈ records -> inc_kind (propRecordFor t) = Some Include ->
  inc_kind <$> (foldl includeStep includes records !! tr_name t)
  = Some (Some Include).
Proof.
  intros Hdef Hrs. revert includes Hdef.
  induction Hrs as [|t0 records Ht0 Hrs IH]; intros includes Hdef Hin Hinc.
  - by apply elem_of_nil in Hin.
  - simpl. apply elem_of_cons in Hin as [<-|Hin].
    + assert (exists r, includeStep includes t !! tr_name t = Some r
                        /\ inc_kind r = Some Include) as (r & Hr & Hk).
      { unfold includeStep. rewrite mergeInclude_lookup_eq.
        destruct (includes !! tr_name t) as [r0|] eqn:H0;
          [|by exists (propRecordFor t)].
        case_bool_decide as Hfd; [by exists (propRecordFor t)|].
        exists r0. split; [done|].
        specialize (Hdef _ _ H0).
        destruct (inc_kind r0) as [[]|]; congruence. }
      rewrite (foldl_includeStep_keeps _ _ _ _ Hr) by congruence.
      simpl. by rewrite Hk.
    + apply IH; [|done|done]. by apply mergeInclude_defined.
Qed.

(** A name whose records are all forward declarations ends as one. *)
Lemma forward_stays records includes n p :
  inc_kind p = Some ForwardDeclare ->
  Forall (fun t => tr_name t = n -> propRecordFor t = p) records ->
  includes !! n = Some p ->
  foldl includeStep includes records !! n = Some p.
Proof.
  intros Hp Hrs. revert includes.
  induction Hrs as [|t records Ht _ IH]; intros includes Hinit; [done|].
  simpl. apply IH. unfold includeStep.
  destruct (decide (tr_name t = n)) as [Hn|Hn].
  - rewrite Hn, mergeInclude_lookup_eq, Hinit, (Ht Hn).
    by rewrite bool_decide_eq_true_2.
  - by rewrite mergeInclude_lookup_ne.
Qed.

Lemma forward_only records includes n p :
  inc_kind p = Some ForwardDeclare ->
  Forall (fun t => tr_name t = n -> propRecordFor t = p) records ->
  Exists (fun t => tr_name t = n) records ->
  includes !! n = None ->
  foldl includeStep includes records !! n = Some p.
Proof.
  intros Hp Hrs. revert includes.
  induction Hrs as [|t records Ht Hrs IH]; intros includes Hex Hinit.
  - by apply Exists_nil in Hex.
  - simpl. destruct (decide (tr_name t = n)) as [Hn|Hn].
    + apply forward_stays; [done|done|]. unfold includeStep.
      by rewrite Hn, mergeInclude_lookup_eq, Hinit, (Ht Hn).
    + apply IH.
      * apply Exists_cons in Hex as [Hex|Hex]; done.
      * unfold includeStep. by rewrite mergeInclude_lookup_ne.
Qed.

Section ClassifierProofs.

Variable unionNeedsName : Ty -> bool.

Abbreviation generatedTypes := (generatedTypes unionNeedsName).
Abbreviation updateIncludes := (updateIncludes unionNeedsName).
Abbreviation emitIncludes_map := (emitIncludes_map unionNeedsName).
Abbreviation declRecords := (declRecords unionNeedsName).

(** The union case of [recur], as the source writes it: the optional
    push, then the loop over the second component of
    [removeNullFromUnion(t)]. *)
Lemma recur_union isClassMember forceInclude isVariant l n ms :
  recur unionNeedsName isClassMember forceInclude isVariant l (UnionType n ms)
  = let t := UnionType n ms in
    let named := unionNeedsName t && isClassMember in
    let forceInclude := if named then true else forceInclude in
    let '(hasNull, nonNulls) := removeNullFromUnion t false in
    (if named then [mkTypeRecord n t l true forceInclude] else [])
    ++ flat_map
         (recur unionNeedsName isClassMember forceInclude (neq_null hasNull)
            (S l))
         nonNulls.
Proof.
  pose proof (removeNullFromUnion_nonNulls (UnionType n ms)) as Hnn.
  destruct (removeNullFromUnion (UnionType n ms) false) as [hasNull nonNulls]
    eqn:Hrm.
  simpl in Hnn. subst nonNulls. cbn [recur]. rewrite Hrm.
  cbn [fst]. f_equal. clear Hrm.
  generalize (if unionNeedsName (UnionType n ms) && isClassMember
              then true else forceInclude) (neq_null hasNull).
  intros f v. simpl members.
  induction ms as [|m ms IH]; [done|].
  case_bool_decide as Hk.
  - rewrite filter_cons_False by (intros H; by apply H). by rewrite IH.
  - rewrite filter_cons_True by done. simpl. by rewrite IH.
Qed.

Lemma elem_of_flat_map {A B} (f : A -> list B) (l : list A) (y : B) :
  y ∈ flat_map f l <-> exists x, x ∈ l /\ y ∈ f x.
Proof.
  rewrite list_elem_of_In, in_flat_map.
  split; intros (x & Hx & Hy); exists x;
    by rewrite ?list_elem_of_In in *.
Qed.

(** [generatedTypes] records classes, enums and unions only, so every
    record it yields is given a kind. *)
Lemma recur_defined t : forall isClassMember forceInclude isVariant l r,
  r ∈ recur unionNeedsName isClassMember forceInclude isVariant l t ->
  inc_kind (propRecordFor r) <> None.
Proof.
  induction t as [ | | | | | | items IH | n | values IH | n | n ms IH]
    using Ty_members_ind; intros isCM f v l r Hr;
    try (by apply elem_of_nil in Hr).
  - by apply (IH isCM f v (S l)).
  - apply list_elem_of_singleton in Hr as ->. done.
  - by apply (IH isCM f v (S l)).
  - apply list_elem_of_singleton in Hr as ->. done.
  - rewrite recur_union in Hr. cbv zeta in Hr.
    pose proof (removeNullFromUnion_nonNulls (UnionType n ms)) as Hnn.
    destruct (removeNullFromUnion (UnionType n ms) false)
      as [hasNull nonNulls]. simpl in Hnn. subst nonNulls.
    apply elem_of_app in Hr as [Hr|Hr].
    + destruct (unionNeedsName (UnionType n ms) && isCM);
        [|by apply elem_of_nil in Hr].
      apply list_elem_of_singleton in Hr as ->.
      unfold propRecordFor. cbn [tr_type tr_forceInclude].
      by repeat case_match.
    + apply elem_of_flat_map in Hr as (m & Hm & Hr).
      apply list_elem_of_filter in Hm as [_ Hm].
      rewrite Forall_forall in IH. by eapply IH.
Qed.

(** Nesting levels only grow, and a class recorded at the level its
    walk started from is the walked type itself. *)
Lemma recur_level t : forall isClassMember forceInclude isVariant l r,
  r ∈ recur unionNeedsName isClassMember forceInclude isVariant l t ->
  l <= tr_level r
  /\ (isClassType (tr_type r) = true -> tr_level r = l -> t = tr_type r).
Proof.
  induction t as [ | | | | | | items IH | n | values IH | n | n ms IH]
    using Ty_members_ind; intros isCM f v l r Hr;
    try (by apply elem_of_nil in Hr).
  - apply (IH isCM f v (S l)) in Hr as [Hle _]. split; lia.
  - apply list_elem_of_singleton in Hr as ->. done.
  - apply (IH isCM f v (S l)) in Hr as [Hle _]. split; lia.
  - apply list_elem_of_singleton in Hr as ->. done.
  - rewrite recur_union in Hr. cbv zeta in Hr.
    pose proof (removeNullFromUnion_nonNulls (UnionType n ms)) as Hnn.
    destruct (removeNullFromUnion (UnionType n ms) false)
      as [hasNull nonNulls]. simpl in Hnn. subst nonNulls.
    apply elem_of_app in Hr as [Hr|Hr].
    + destruct (unionNeedsName (UnionType n ms) && isCM);
        [|by apply elem_of_nil in Hr].
      apply list_elem_of_singleton in Hr as ->. done.
    + apply elem_of_flat_map in Hr as (m & Hm & Hr).
      apply list_elem_of_filter in Hm as [_ Hm].
      rewrite Forall_forall in IH.
      apply (IH m Hm) in Hr as [Hle _]. split; lia.
Qed.

(** Once forced, inclusion stays forced for every class below. *)
Lemma recur_forced t : forall isClassMember isVariant l r,
  r ∈ recur unionNeedsName isClassMember true isVariant l t ->
  isClassType (tr_type r) = true -> tr_forceInclude r = true.
Proof.
  induction t as [ | | | | | | items IH | n | values IH | n | n ms IH]
    using Ty_members_ind; intros isCM v l r Hr Hc;
    try (by apply elem_of_nil in Hr).
  - by apply (IH isCM v (S l)).
  - apply list_elem_of_singleton in Hr as ->. done.
  - by apply (IH isCM v (S l)).
  - apply list_elem_of_singleton in Hr as ->. done.
  - rewrite recur_union in Hr. cbv zeta in Hr.
    pose proof (removeNullFromUnion_nonNulls (UnionType n ms)) as Hnn.
    destruct (removeNullFromUnion (UnionType n ms) false)
      as [hasNull nonNulls]. simpl in Hnn. subst nonNulls.
    replace (if unionNeedsName (UnionType n ms) && isCM then true else true)
      with true in Hr by (by destruct (_ && _)).
    apply elem_of_app in Hr as [Hr|Hr].
    + destruct (unionNeedsName (UnionType n ms) && isCM);
        [|by apply elem_of_nil in Hr].
      apply list_elem_of_singleton in Hr as ->. done.
    + apply elem_of_flat_map in Hr as (m & Hm & Hr).
      apply list_elem_of_filter in Hm as [_ Hm].
      rewrite Forall_forall in IH. by eapply IH.
Qed.

Lemma generatedTypes_defined isClassMember t :
  Forall (fun r => inc_kind (propRecordFor r) <> None)
    (generatedTypes isClassMember t).
Proof. apply Forall_forall. intros r. apply recur_defined. Qed.

(** The include map of a definition is the merge of its records. *)
Lemma emitIncludes_map_fold c :
  emitIncludes_map c = foldl includeStep ∅ (declRecords c).
Proof.
  destruct c as [n props| |u]; try done. simpl.
  generalize (∅ : gmap string IncludeRecord).
  induction props as [|p props IH]; intros includes; [done|].
  simpl. rewrite foldl_app. apply IH.
Qed.

Lemma declRecords_defined c :
  Forall (fun r => inc_kind (propRecordFor r) <> None) (declRecords c).
Proof.
  destruct c as [n props| |u]; simpl.
  - apply Forall_forall. intros r Hr.
    apply elem_of_flat_map in Hr as (p & _ & Hr).
    by eapply recur_defined.
  - constructor.
  - apply generatedTypes_defined.
Qed.

End ClassifierProofs.

(** ** Claims about the reference classifier *)

(** C1. In the include map of every definition, a class recorded at
    nesting level 0 is classified [Include]; such a record only comes from
    a member whose type is the class itself; and a name all of whose
    records are classes at a level above 0 without [forceInclude] is
    classified [ForwardDeclare]. *)
Theorem C1_level0_include_nested_forward
        (unionNeedsName : Ty -> bool) (c : Definition_) :
  (forall r, r ∈ declRecords unionNeedsName c ->
             isClassType (tr_type r) = true -> tr_level r = 0 ->
             inc_kind <$> (emitIncludes_map unionNeedsName c !! tr_name r)
             = Some (Some Include))
  /\ (forall isClassMember t r,
         r ∈ generatedTypes unionNeedsName isClassMember t ->
         isClassType (tr_type r) = true -> tr_level r = 0 -> t = tr_type r)
  /\ (forall n,
         (exists r, r ∈ declRecords unionNeedsName c /\ tr_name r = n) ->
         (forall r, r ∈ declRecords unionNeedsName c -> tr_name r = n ->
                    isClassType (tr_type r) = true /\ tr_level r <> 0
                    /\ tr_forceInclude r = false) ->
         emitIncludes_map unionNeedsName c !! n
         = Some (mkIncludeRecord (Some ForwardDeclare) (Some "class"))).
Proof.
  rewrite emitIncludes_map_fold. split; [|split].
  - intros r Hr Hclass Hlevel.
    apply include_wins;
      [apply includesDefined_empty | apply declRecords_defined | done |].
    unfold propRecordFor. destruct (tr_type r); try done.
    rewrite Hlevel. simpl. by destruct (tr_forceInclude r).
  - intros isCM t r Hr Hclass Hlevel.
    by apply recur_level in Hr as [_ Hr]; apply Hr.
  - intros n (r0 & Hr0 & Hn0) Hall.
    apply forward_only; [done| | |apply lookup_empty].
    + apply Forall_forall. intros r Hr Hn.
      destruct (Hall r Hr Hn) as (Hclass & Hlevel & Hforce).
      unfold propRecordFor. destruct (tr_type r); try done.
      rewrite Hforce. by rewrite bool_decide_eq_false_2.
    + apply Exists_exists. by exists r0.
Qed.

(** The class of [exampleClass] held by value is included, the class
    held in a sequence is forward declared. *)
Lemma C1_witness :
  inc_kind <$> (emitIncludes_map unionNeedsName_default exampleClass
                  !! "Direct") = Some (Some Include)
  /\ emitIncludes_map unionNeedsName_default exampleClass !! "Item"
     = Some (mkIncludeRecord (Some ForwardDeclare) (Some "class")).
Proof.
  destruct (C1_level0_include_nested_forward unionNeedsName_default
              exampleClass) as (Hinc & _ & Hfwd).
  split.
  - apply (Hinc (mkTypeRecord "Direct" (ClassType "Direct") 0 false false));
      [|reflexivity|reflexivity].
    vm_compute. left.
  - apply Hfwd.
    + exists (mkTypeRecord "Item" (ClassType "Item") 1 false false).
      split; [|reflexivity]. vm_compute. right. left.
    + intros r Hr Hn. vm_compute in Hr.
      repeat (apply elem_of_cons in Hr as [->|Hr]); try discriminate Hn;
        [done | by apply elem_of_nil in Hr].
Defined.

(** C2. Merging is monotonic: whatever records [updateIncludes] goes on
    to process, a name recorded as [Include] keeps its record, and a
    record that is replaced was a [ForwardDeclare] one. *)
Theorem C2_include_never_downgraded
        (records : list TypeRecord) (includes : gmap string IncludeRecord)
        (n : string) (r : IncludeRecord) :
  includes !! n = Some r ->
  (inc_kind r = Some Include ->
   foldl includeStep includes records !! n = Some r)
  /\ (foldl includeStep includes records !! n <> Some r ->
      inc_kind r = Some ForwardDeclare).
Proof.
  intros Hn. split.
  - intros Hk. apply foldl_includeStep_keeps; [done | congruence].
  - intros Hchanged.
    destruct (decide (inc_kind r = Some ForwardDeclare)) as [|Hk]; [done|].
    exfalso. apply Hchanged. by apply foldl_includeStep_keeps.
Qed.

(** A class first met by value and then inside a sequence stays
    included. *)
Lemma C2_witness :
  foldl includeStep
    {[ "Direct" := mkIncludeRecord (Some Include) (Some "class") ]}
    (generatedTypes unionNeedsName_default true
       (ArrayType (ClassType "Direct")))
    !! "Direct"
  = Some (mkIncludeRecord (Some Include) (Some "class")).
Proof.
  apply (C2_include_never_downgraded _ _ "Direct"
           (mkIncludeRecord (Some Include) (Some "class")));
    [apply lookup_singleton_eq | reflexivity].
Defined.

(** C3. For a named union that is the type of a class member,
    [generatedTypes] records the union itself with [forceInclude] set and
    walks its non-null alternatives with [forceInclude] set; in the
    include map of the class the union and every class among its
    alternatives, at any depth, are classified [Include]. *)
Theorem C3_named_union_member_forces_include
        (unionNeedsName : Ty -> bool) (className : string)
        (props : list ClassProperty) (p : ClassProperty)
        (n : string) (ms : list Ty) :
  p ∈ props -> cp_type p = UnionType n ms ->
  unionNeedsName (UnionType n ms) = true ->
  let u := UnionType n ms in
  let includes := emitIncludes_map unionNeedsName (DefClass className props) in
  generatedTypes unionNeedsName true u
  = mkTypeRecord n u 0 true true
    :: flat_map
         (recur unionNeedsName true true
            (neq_null (fst (removeNullFromUnion u false))) 1)
         (snd (removeNullFromUnion u false))
  /\ inc_kind <$> (includes !! n) = Some (Some Include)
  /\ (forall r, r ∈ generatedTypes unionNeedsName true u ->
                isClassType (tr_type r) = true ->
                tr_forceInclude r = true
                /\ inc_kind <$> (includes !! tr_name r)
                   = Some (Some Include))
  /\ (forall c, ClassType c ∈ ms ->
                inc_kind <$> (includes !! c) = Some (Some Include)).
Proof.
  intros Hp Htype Hnamed u includes.
  assert (generatedTypes unionNeedsName true u
          = mkTypeRecord n u 0 true true
            :: flat_map
                 (recur unionNeedsName true true
                    (neq_null (fst (removeNullFromUnion u false))) 1)
                 (snd (removeNullFromUnion u false))) as Hgen.
  { unfold generatedTypes, u. rewrite recur_union. cbv zeta.
    rewrite Hnamed.
    by destruct (removeNullFromUnion (UnionType n ms) false). }
  assert (forall r, r ∈ generatedTypes unionNeedsName true u ->
                    r ∈ declRecords unionNeedsName (DefClass className props))
    as Hsub.
  { intros r Hr. simpl. apply elem_of_flat_map. exists p.
    by rewrite Htype. }
  assert (forall r, r ∈ generatedTypes unionNeedsName true u ->
                    inc_kind (propRecordFor r) = Some Include ->
                    inc_kind <$> (includes !! tr_name r)
                    = Some (Some Include)) as Hwin.
  { intros r Hr Hk. unfold includes. rewrite emitIncludes_map_fold.
    apply include_wins;
      [apply includesDefined_empty | apply declRecords_defined
      | by apply Hsub | done]. }
  assert (forall r, r ∈ generatedTypes unionNeedsName true u ->
                    isClassType (tr_type r) = true ->
                    tr_forceInclude r = true) as Hforced.
  { intros r Hr Hc. rewrite Hgen in Hr.
    apply elem_of_cons in Hr as [->|Hr]; [done|].
    apply elem_of_flat_map in Hr as (m & _ & Hr).
    by eapply recur_forced. }
  split; [done|]. split; [|split].
  - apply (Hwin (mkTypeRecord n u 0 true true)); [rewrite Hgen; left|].
    unfold propRecordFor, u. cbn [tr_type tr_forceInclude].
    by rewrite removeNullFromUnion_defined.
  - intros r Hr Hc. split; [by apply Hforced|].
    apply Hwin; [done|]. unfold propRecordFor.
    destruct (tr_type r) eqn:Ht; try done.
    rewrite (Hforced r Hr) by (by rewrite Ht). done.
  - intros c Hc.
    apply (Hwin (mkTypeRecord c (ClassType c) 1
                   (neq_null (fst (removeNullFromUnion u false))) true));
      [|done].
    rewrite Hgen. right. apply elem_of_flat_map. exists (ClassType c).
    split; [|left].
    rewrite removeNullFromUnion_nonNulls. by apply list_elem_of_filter.
Qed.

(** The union member of [exampleClass] and its class alternative are
    both included. *)
Lemma C3_witness :
  inc_kind <$> (emitIncludes_map unionNeedsName_default exampleClass
                  !! "Choice") = Some (Some Include)
  /\ inc_kind <$> (emitIncludes_map unionNeedsName_default exampleClass
                     !! "Alt") = Some (Some Include).
Proof.
  destruct (C3_named_union_member_forces_include unionNeedsName_default
              "Owner"
              [ mkClassProperty "direct" "direct" (ClassType "Direct");
                mkClassProperty "items" "items"
                  (ArrayType (ClassType "Item"));
                mkClassProperty "choice" "choice"
                  (UnionType "Choice" [IntegerType; ClassType "Alt"]) ]
              (mkClassProperty "choice" "choice"
                 (UnionType "Choice" [IntegerType; ClassType "Alt"]))
              "Choice" [IntegerType; ClassType "Alt"])
    as (_ & Hunion & _ & Halt).
  - right. right. left.
  - reflexivity.
  - reflexivity.
  - split; [exact Hunion|]. apply Halt. right. left.
Defined.

(** C10. Every union record is classified [Include] by
    [updateIncludes]: the first component of [removeNullFromUnion] is
    never [undefined], so the guard holds whether or not the union has a
    null member and whatever [forceInclude] is; the branch that would
    forward declare a union is never taken. *)
Theorem C10_union_record_always_include
        (t : TypeRecord) (includes : gmap string IncludeRecord) :
  isUnionType (tr_type t) = true ->
  neq_undefined (fst (removeNullFromUnion (tr_type t) true)) = true
  /\ propRecordFor t = mkIncludeRecord (Some Include) (Some "union")
  /\ (includesDefined includes ->
      inc_kind <$> (includeStep includes t !! tr_name t)
      = Some (Some Include)).
Proof.
  intros Hu.
  assert (propRecordFor t = mkIncludeRecord (Some Include) (Some "union"))
    as Hp.
  { unfold propRecordFor. destruct (tr_type t); try done.
    by rewrite removeNullFromUnion_defined. }
  split; [apply removeNullFromUnion_defined|]. split; [done|].
  intros Hdef.
  apply (include_wins [t] includes t);
    [done | | left | by rewrite Hp].
  constructor; [by rewrite Hp | constructor].
Qed.

(** A union without a null member, reached without [forceInclude]. *)
Lemma C10_witness :
  propRecordFor (mkTypeRecord "Number" exampleNumberUnion 1 false false)
  = mkIncludeRecord (Some Include) (Some "union").
Proof.
  apply (C10_union_record_always_include
           (mkTypeRecord "Number" exampleNumberUnion 1 false false) ∅).
  reflexivity.
Defined.

(** ** The representation mapper *)

Lemma removeNullFromUnion_snd (u : Ty) (sortBy : bool) :
  snd (removeNullFromUnion u sortBy)
  = (if sortBy then setSortByKind else fun s => s)
      (filter (fun m => kind m ≠ "null") (members u)).
Proof.
  unfold removeNullFromUnion, findMember.
  destruct (iterableFind _ (members u)) eqn:Hfind.
  - rewrite filter_nonnull_id by done. by destruct sortBy.
  - by apply iterableFind_never_null in Hfind.
  - by destruct sortBy.
Qed.

Lemma neq_null_existsb (u : Ty) (sortBy : bool) :
  neq_null (fst (removeNullFromUnion u sortBy))
  = existsb (fun m => bool_decide (kind m = "null")) (members u).
Proof.
  rewrite removeNullFromUnion_fst. unfold findMember.
  induction (members u) as [|m ms IH]; [done|]. simpl.
  by destruct (bool_decide (kind m = "null")).
Qed.

Lemma neq_undefined_existsb (u : Ty) :
  neq_undefined (findMember u "null")
  = existsb (fun m => bool_decide (kind m = "null")) (members u).
Proof.
  unfold findMember. induction (members u) as [|m ms IH]; [done|]. simpl.
  by destruct (bool_decide (kind m = "null")).
Qed.

(** [nullableFromUnion] in terms of the members. *)
Lemma nullableFromUnion_members (u : Ty) :
  nullableFromUnion u
  = if existsb (fun m => bool_decide (kind m = "null")) (members u) then
      match filter (fun m => kind m ≠ "null") (members u) with
      | [alt] => JsVal alt
      | _ => JsNull
      end
    else JsNull.
Proof.
  unfold nullableFromUnion.
  pose proof (neq_null_existsb u false) as Hfst.
  pose proof (removeNullFromUnion_snd u false) as Hsnd.
  destruct (removeNullFromUnion u false) as [hasNull nonNulls].
  simpl in Hfst, Hsnd. subst nonNulls. unfold eq_null. rewrite Hfst.
  destruct (existsb _ _); [|done]. simpl.
  destruct (filter _ _) as [|alt [|alt' rest]]; done.
Qed.

Lemma nullableFromUnion_not_undefined (u : Ty) :
  nullableFromUnion u <> JsUndefined.
Proof.
  rewrite nullableFromUnion_members. by repeat case_match.
Qed.

(** A union has at least two members; with exactly one of them not null,
    another one is null. *)
Lemma single_alternative_nullable (n : string) (ms : list Ty) (alt : Ty) :
  2 <= length ms ->
  filter (fun m => kind m ≠ "null") ms = [alt] ->
  existsb (fun m => bool_decide (kind m = "null")) ms = true.
Proof.
  intros Hlen Hfilter.
  destruct (existsb _ ms) eqn:Hex; [done|]. exfalso.
  assert (filter (fun m => kind m ≠ "null") ms = ms) as Hid.
  { clear Hlen Hfilter. induction ms as [|m ms IH]; [done|].
    simpl in Hex. apply orb_false_iff in Hex as [Hm Hex].
    apply bool_decide_eq_false in Hm.
    rewrite filter_cons_True by done. by rewrite IH. }
  rewrite Hid in Hfilter. subst ms. simpl in Hlen. lia.
Qed.

Section MapperProofs.

Variable this : Renderer.

(** The union case of [cppType], as the source writes it. *)
Lemma cppType_union n ms ctx withIssues :
  cppType this (UnionType n ms) ctx withIssues
  = match nullableFromUnion (UnionType n ms) with
    | JsVal nullable =>
        SArr [SStr optionalType; SStr "<";
              cppType this nullable
                (mkTypeContext false false (inJsonNamespace ctx))
                withIssues;
              SStr ">"]
    | _ => SArr [ourQualifier this (inJsonNamespace ctx); SName n]
    end.
Proof.
  cbn [cppType]. destruct (nullableFromUnion (UnionType n ms)) eqn:Hn;
    try done.
  do 2 f_equal. f_equal.
  rewrite nullableFromUnion_members in Hn. simpl members in Hn.
  destruct (existsb _ ms); [|done].
  destruct (filter _ ms) as [|alt [|alt' rest]] eqn:Hf; try done.
  injection Hn as ->. clear -Hf.
  induction ms as [|m ms IH]; [done|].
  case_bool_decide as Hk.
  - rewrite filter_cons_False in Hf by (intros H; by apply H). by apply IH.
  - rewrite filter_cons_True in Hf by done. by injection Hf as ->.
Qed.

(** [cppType] never reads [needsOptionalIndirection]. *)
Lemma cppType_optional_indirection t fwd opt opt' inJson withIssues :
  cppType this t (mkTypeContext fwd opt inJson) withIssues
  = cppType this t (mkTypeContext fwd opt' inJson) withIssues.
Proof. by destruct t. Qed.

Lemma setSortByKind_singleton t : setSortByKind [t] = [t].
Proof. done. Qed.

End MapperProofs.

(** C4. A union with exactly one non-null alternative renders as the
    optional wrapping of that alternative: [nullableFromUnion] selects
    the alternative, the singleton case of [cppTypeInOptional] renders it
    directly, and [cppType] wraps that rendering in the optional
    indirection. *)
Theorem C4_single_alternative_renders_as_optional
        (this : Renderer) (n : string) (ms : list Ty) (alt : Ty)
        (ctx : TypeContext) (withIssues : bool) :
  2 <= length ms ->
  filter (fun m => kind m ≠ "null") ms = [alt] ->
  let u := UnionType n ms in
  let inner := mkTypeContext false false (inJsonNamespace ctx) in
  nullableFromUnion u = JsVal alt
  /\ cppTypeInOptional this (snd (removeNullFromUnion u true)) inner
       withIssues
     = cppType this alt inner withIssues
  /\ cppType this u ctx withIssues
     = variantIndirection true
         (cppTypeInOptional this (snd (removeNullFromUnion u true)) inner
            withIssues)
  /\ cppType this u ctx withIssues
     = SArr [SStr optionalType; SStr "<"; cppType this alt inner withIssues;
             SStr ">"].
Proof.
  intros Hlen Hfilter u inner.
  pose proof (single_alternative_nullable n ms alt Hlen Hfilter) as Hnull.
  assert (nullableFromUnion u = JsVal alt) as Hnullable.
  { rewrite nullableFromUnion_members. simpl members.
    by rewrite Hnull, Hfilter. }
  assert (snd (removeNullFromUnion u true) = [alt]) as Hsorted.
  { rewrite removeNullFromUnion_snd. simpl members. by rewrite Hfilter. }
  rewrite Hsorted. unfold u. rewrite cppType_union.
  fold u. rewrite Hnullable. done.
Qed.

(** An optional integer renders as a shared pointer to [int64_t]. *)
Lemma C4_witness :
  cppType exampleRenderer (UnionType "" [NullType; IntegerType])
    (mkTypeContext true true false) true
  = SArr [SStr optionalType; SStr "<";
          cppType exampleRenderer IntegerType
            (mkTypeContext false false false) true;
          SStr ">"].
Proof.
  apply (C4_single_alternative_renders_as_optional exampleRenderer ""
           [NullType; IntegerType] IntegerType
           (mkTypeContext true true false) true);
    [simpl; lia | reflexivity].
Defined.

(** ** The serialization emitter: class properties *)


(** ** The serialization emitter: unions *)

Lemma iterableFind_find {A} (p : A -> bool) (it : list A) :
  iterableFind p it
  = match find p it with Some x => JsVal x | None => JsUndefined end.
Proof.
  induction it as [|x it IH]; [done|]. simpl. by destruct (p x).
Qed.

Section UnionProofs.

Variable this : Renderer.

Let render (t : Ty) : Sourcelike :=
  cppType this t (mkTypeContext true true true) false.

(** The emitted lines are one chain, opened by [if] and continued by
    [else if], which decodes into the alternative of the first probe that
    is present and matches.  Without any probe the lines are the lone
    [else throw], which is no statement. *)
Lemma fromJsonProbes_chain test nonNulls tail order :
  startsWith "else throw " tail = true ->
  forall onFirst,
    runProbeChain test onFirst
      (fromJsonProbes this nonNulls onFirst
         (map (fun p => (probeKind p, probeTest p)) order)
       ++ [EmitLine [SStr tail]])
    = match spec_firstMatch test nonNulls order with
      | Some alt => DecodesAs (render alt)
      | None =>
          match omap (fun p =>
                        find (fun t => bool_decide (kind t = probeKind p))
                          nonNulls) order
          with
          | [] => if onFirst then Malformed else Throws tail
          | _ :: _ => Throws tail
          end
      end.
Proof.
  intros Htail. induction order as [|p order IH]; intros onFirst.
  - cbn [map fromJsonProbes app runProbeChain spec_firstMatch omap
         list_omap].
    rewrite Htail. by destruct onFirst.
  - cbn [map fromJsonProbes spec_firstMatch omap list_omap].
    rewrite iterableFind_find.
    destruct (find _ nonNulls) as [alt|]; [|apply IH].
    cbn [emitLine indent app runProbeChain].
    rewrite String.eqb_refl. cbn [andb]. cbn.
    destruct (test (probeTest p)); [done|]. rewrite IH.
    destruct (spec_firstMatch test nonNulls order); [done|].
    by destruct (omap _ order).
Qed.

(** The alternatives appear in the chain in probe order, absent kinds
    skipped. *)
Lemma fromJsonProbes_types nonNulls tail order :
  forall onFirst,
    probeTypes
      (fromJsonProbes this nonNulls onFirst
         (map (fun p => (probeKind p, probeTest p)) order)
       ++ [EmitLine [SStr tail]])
    = map render
        (omap (fun p =>
                 find (fun t => bool_decide (kind t = probeKind p))
                   nonNulls) order).
Proof.
  induction order as [|p order IH]; intros onFirst; [done|].
  cbn [map fromJsonProbes omap list_omap]. rewrite iterableFind_find.
  destruct (find _ nonNulls) as [alt|]; [|apply IH].
  cbn [emitLine indent app probeTypes map]. f_equal. apply IH.
Qed.

(** The cases of the switch are the sorted alternatives, numbered in
    order. *)
Lemma toJsonCases_switch tail nonNulls :
  forall i,
    switchCases (toJsonCases this i nonNulls ++ [EmitLine [SStr tail]])
    = imap (fun k t => (toString (i + k), render t)) nonNulls.
Proof.
  induction nonNulls as [|t nonNulls IH]; intros i; [done|].
  cbn [toJsonCases emitLine indent app switchCases]. cbn [String.eqb].
  cbn -[toString cppType imap switchCases toJsonCases].
  rewrite IH. cbn [imap]. rewrite Nat.add_0_r. f_equal.
  apply imap_ext. intros k x _. simpl. do 2 f_equal. lia.
Qed.

(** The type list of a variant lists the alternatives in order. *)
Lemma typeListLoop_spec ctx withIssues nonNulls :
  forall typeList, typeList <> [] ->
    typeListLoop this ctx withIssues typeList nonNulls
    = typeList
      ++ flat_map
           (fun t => [SStr ", ";
                      cppType this t
                        (mkTypeContext true false (inJsonNamespace ctx))
                        withIssues]) nonNulls.
Proof.
  induction nonNulls as [|t nonNulls IH]; intros typeList Hne.
  - simpl. by rewrite app_nil_r.
  - cbn [typeListLoop flat_map].
    rewrite bool_decide_eq_true_2 by (by destruct typeList).
    rewrite IH by (by destruct typeList).
    by rewrite <- !app_assoc.
Qed.

Lemma typeListLoop_intercalate ctx withIssues nonNulls :
  typeListLoop this ctx withIssues [] nonNulls
  = arrayIntercalate (SStr ", ")
      (map (fun t => cppType this t
                       (mkTypeContext true false (inJsonNamespace ctx))
                       withIssues) nonNulls).
Proof.
  destruct nonNulls as [|t nonNulls]; [done|].
  cbn [typeListLoop]. rewrite bool_decide_eq_false_2 by (intros H; by apply H).
  rewrite typeListLoop_spec by done. simpl app.
  revert t. induction nonNulls as [|t' nonNulls IH]; intros t; [done|].
  cbn [flat_map map arrayIntercalate app]. do 2 f_equal. apply IH.
Qed.

End UnionProofs.

(** C6. The emitted union decoder tests the runtime kind of the value in
    the order boolean, integer, double, string, class-shaped object,
    map-shaped object, array, string-as-enum, skipping the kinds the
    union lacks.  The tests form one statement, an [if] followed by
    [else if]s and a final [else throw]: it decodes into the alternative
    of the first test that holds and throws when none does.  (A union
    with no alternative of these kinds, which has nothing to decode
    into, would get the [else throw] alone.) *)
Theorem C6_union_decode_probe_order
        (this : Renderer) (u : Ty) (test : string -> bool) :
  let nonNulls := snd (removeNullFromUnion u true) in
  let render t := cppType this t (mkTypeContext true true true) false in
  functionForKind = map (fun p => (probeKind p, probeTest p)) spec_probeOrder
  /\ probeTypes (unionFromJsonBody this u)
     = map render
         (omap (fun p =>
                  find (fun t => bool_decide (kind t = probeKind p)) nonNulls)
            spec_probeOrder)
  /\ runProbeChain test true (unionFromJsonBody this u)
     = match spec_firstMatch test nonNulls spec_probeOrder with
       | Some alt => DecodesAs (render alt)
       | None =>
           match omap (fun p =>
                         find (fun t => bool_decide (kind t = probeKind p))
                           nonNulls) spec_probeOrder
           with
           | [] => Malformed
           | _ :: _ => Throws (q "else throw `Could not deserialize`;")
           end
       end.
Proof.
  intros nonNulls render. split; [reflexivity|]. split.
  - apply (fromJsonProbes_types this nonNulls _ spec_probeOrder true).
  - by apply (fromJsonProbes_chain this test nonNulls _ spec_probeOrder).
Qed.

(** A union of an integer and a string: an integer value decodes as the
    integer alternative, a string value as the string alternative, and a
    boolean value is rejected. *)
Lemma union_decode_scenario :
  let u := UnionType "IntOrString" [IntegerType; StringType] in
  let decode v :=
    runProbeChain (jsonTest v) true (unionFromJsonBody exampleRenderer u) in
  decode JNumberInteger = DecodesAs (SStr "int64_t")
  /\ decode JString = DecodesAs (SStr "std::string")
  /\ decode JBoolean = Throws (q "else throw `Could not deserialize`;").
Proof. by vm_compute. Qed.

(** ** The constraint synthesizer *)


(** A property bounded by 1 and 10: 0 is too low, 11 is too high and 5
    passes. *)
Lemma constraint_scenario :
  let c := mkConstraintValues (Some 1%Z) (Some 10%Z) in
  let check value :=
    runBlocks (int64GuardHolds exampleRenderer c value) 0
      (checkConstraintInt64Body exampleRenderer) in
  thrownException (check 0%Z) = Some "ValueTooLowException"
  /\ thrownException (check 11%Z) = Some "ValueTooHighException"
  /\ check 5%Z = FallsThrough.
Proof. by vm_compute. Qed.

(** A bound that does not fit an [int] is not the bound checked: with a
    maximum of 2^32 + 10 the constraint object holds 10, so 11 is
    rejected although it is below the maximum that was asked for. *)
Lemma constraint_bound_narrowed :
  let c := mkConstraintValues None (Some 4294967306%Z) in
  let check value :=
    runBlocks (int64GuardHolds exampleRenderer c value) 0
      (checkConstraintInt64Body exampleRenderer) in
  thrownException (check 11%Z) = Some "ValueTooHighException"
  /\ check 10%Z = FallsThrough.
Proof. by vm_compute. Qed.

(** ** The declaration emitter: checked setters *)

(** C8, as the specification words it, fails: the name handed to the
    checker by the setter of [exampleProperty] is its member name
    [first_name], not its wire name [firstName]. *)
Lemma C8_counterexample :
  hasConstraint exampleConstraints (cp_jsonName exampleProperty) = true
  /\ checkConstraintCalls (lookupGlobalName exampleRenderer CheckConstraint)
       (emitAccessors exampleRenderer exampleConstraints exampleProperty)
     = [(SName "first_name", SStr "firstNameConstraint",
         SStr ", value); this->")]
  /\ sourcelikeToString (SName "first_name") <> cp_jsonName exampleProperty.
Proof. by vm_compute. Qed.

Lemma checkConstraintCall_skip checkConst p rest :
  (forall c open nameArg sep constraintArg valueArg tail,
      p = SStr c ->
      rest = SStr open :: nameArg :: SStr sep :: constraintArg :: valueArg
               :: tail ->
      String.eqb open (q "(`") = false \/ String.eqb sep (q "`, ") = false) ->
  checkConstraintCall checkConst (p :: rest)
  = checkConstraintCall checkConst rest.
Proof.
  intros H. cbn [checkConstraintCall].
  destruct p as [c| | |]; try done.
  destruct rest as [|[open| | |] [|nameArg [|[sep| | |] [|constraintArg
                     [|valueArg tail]]]]]; try done.
  destruct (H c open nameArg sep constraintArg valueArg tail eq_refl eq_refl)
    as [-> | ->]; by rewrite ?andb_false_r.
Qed.

(** The rendering of a type is never the opening of a checker call. *)
Lemma cppType_not_open this t ctx withIssues open :
  cppType this t ctx withIssues = SStr open -> String.eqb open (q "(`") = false.
Proof.
  destruct t; cbn [cppType]; unfold maybeAnnotated, variantIndirection;
    repeat case_match; try discriminate; by intros [= <-].
Qed.

(** C8, amended. In the getter/setter format, the setter of every
    constrained property calls the checker exactly once, with the
    property's member name (the identifier the naming pass gave it, not
    its wire name) as the name, the property's constraint member as the
    constraint, and the value being set.  Both checkers take these as
    their parameters [name], [c] and [value], and every error they throw
    builds its message from [name] and from the rejected quantity: the
    value itself for a value too low, too high or not matching the
    pattern, but the length of the value for a value too short or too
    long. *)
Theorem C8_setter_passes_member_name
        (this : Renderer) (constraints : option (gmap string string))
        (property : ClassProperty) :
  hasConstraint constraints (cp_jsonName property) = true ->
  checkConstraintCalls (lookupGlobalName this CheckConstraint)
    (emitAccessors this constraints property)
  = [(SName (cp_name property),
      SStr (constraintMember this (cp_jsonName property)),
      SStr (if isNullableUnion (cp_type property)
            then ", *value); this->" else ", value); this->"))]
  /\ omap checkerParameters
       (emitCheckConstraintInt64 this ++ emitCheckConstraintString this)
     = [["name"; "c"; "value"]; ["name"; "c"; "value"]]
  /\ omap thrownMessage (emitCheckConstraintInt64 this)
     = [(lookupGlobalName this ValueTooLowException,
         Some "name", Some "std::to_string(value)");
        (lookupGlobalName this ValueTooHighException,
         Some "name", Some "std::to_string(value)")]
  /\ omap thrownMessage (emitCheckConstraintString this)
     = [(lookupGlobalName this ValueTooShortException,
         Some "name", Some "std::to_string(value.length())");
        (lookupGlobalName this ValueTooLongException,
         Some "name", Some "std::to_string(value.length())");
        (lookupGlobalName this InvalidPatternException,
         Some "name", Some "value")].
Proof.
  intros Hc. split; [|repeat split; by vm_compute].
  unfold emitAccessors. rewrite Hc.
  destruct (gettersAndSettersForPropertyName this (cp_name property))
    as [[getterName mutableGetterName] setterName].
  set (rendered := cppType this (cp_type property) _ true).
  set (checkConst := lookupGlobalName this CheckConstraint).
  assert (forall open, rendered = SStr open ->
                       String.eqb open (q "(`") = false) as Hrendered
      by (intros open; apply cppType_not_open).
  clearbody rendered checkConst. unfold checkConstraintCalls.
  destruct (isNullableUnion (cp_type property));
    cbn [emitLine app omap list_omap];
    repeat (rewrite checkConstraintCall_skip
              by (intros; simplify_eq;
                  first [done | by left | left; by eapply Hrendered]));
    cbn [checkConstraintCall]; by rewrite String.eqb_refl.
Qed.

(** The setter of [exampleProperty] hands its member name to the
    checker. *)
Lemma C8_witness :
  checkConstraintCalls (lookupGlobalName exampleRenderer CheckConstraint)
    (emitAccessors exampleRenderer exampleConstraints exampleProperty)
  = [(SName "first_name",
      SStr (constraintMember exampleRenderer "firstName"),
      SStr ", value); this->")].
Proof.
  apply (proj1 (C8_setter_passes_member_name exampleRenderer
                  exampleConstraints exampleProperty eq_refl)).
Defined.

(** ** The serialization emitter: the union encoder *)

(** C9, as the specification words it, fails: for a union of a double
    and an integer, whose members are in the same order sorted or not,
    the encoder's cases are the double then the integer, while the
    decoder probes the integer then the double. *)
Lemma C9_counterexample :
  snd (removeNullFromUnion exampleNumberUnion true)
  = snd (removeNullFromUnion exampleNumberUnion false)
  /\ map snd
       (switchCases (unionToJsonSwitch exampleRenderer exampleNumberUnion))
     = [SStr "double"; SStr "int64_t"]
  /\ probeTypes (unionFromJsonBody exampleRenderer exampleNumberUnion)
     = [SStr "int64_t"; SStr "double"]
  /\ map snd
       (switchCases (unionToJsonSwitch exampleRenderer exampleNumberUnion))
     <> probeTypes (unionFromJsonBody exampleRenderer exampleNumberUnion).
Proof. by vm_compute. Qed.

(** The statement of the encoder's [default] branch is the one the enum
    decoder uses for a value outside the schema, not the one the enum
    encoder uses for an impossible case. *)
Lemma union_encoder_default_statement (this : Renderer) (u : Ty) :
  defaultBranch (unionToJsonSwitch this u)
  = Some (q "throw `Input JSON does not conform to schema`;")
  /\ enumFromJsonElse
     = emitLine [SStr (q "else throw `Input JSON does not conform to schema`;")]
  /\ enumToJsonDefault
     = emitLine [SStr (q "default: throw `This should not happen`;")].
Proof.
  split; [|done]. unfold defaultBranch, unionToJsonSwitch, emitLine.
  by rewrite last_snoc.
Qed.

(** C9, amended. The emitted union encoder switches on the index of the
    active alternative and its case [i] serializes the [i]-th non-null
    member of the union sorted by kind, which is the [i]-th alternative
    of the variant type the same function renders (not the order of the
    decoder's probes); the switch ends with a [default] branch that
    throws. *)
Theorem C9_union_encode_case_order (this : Renderer) (u : Ty) :
  let nonNulls := snd (removeNullFromUnion u true) in
  let render t := cppType this t (mkTypeContext true true true) false in
  switchCases (unionToJsonSwitch this u)
  = imap (fun i t => (toString i, render t)) nonNulls
  /\ (length nonNulls <> 1 ->
      cppTypeInOptional this nonNulls (mkTypeContext false false true) false
      = SArr [SStr "boost::variant<";
              SArr (arrayIntercalate (SStr ", ") (map render nonNulls));
              SStr ">"])
  /\ (exists statement,
         defaultBranch (unionToJsonSwitch this u) = Some statement
         /\ startsWith "throw " statement = true).
Proof.
  intros nonNulls render. split; [|split].
  - unfold unionToJsonSwitch, emitLine. fold nonNulls.
    by rewrite toJsonCases_switch.
  - intros Hlen. unfold cppTypeInOptional.
    rewrite typeListLoop_intercalate. cbn [inJsonNamespace].
    erewrite (map_ext _ render);
      [|intros t; apply cppType_optional_indirection].
    by destruct nonNulls as [|t [|t' rest]].
  - destruct (union_encoder_default_statement this u) as [-> _].
    by eexists.
Qed.

(** * Further properties of the renderer *)

(** ** Namespaces *)

Lemma flat_map_const_snoc {A B} (c : list B) (l : list A) :
  flat_map (fun _ => c) l ++ c = c ++ flat_map (fun _ => c) l.
Proof.
  induction l as [|x l IH]; simpl; [by rewrite app_nil_r|].
  by rewrite <- app_assoc, IH.
Qed.

Lemma emitNamespaces_closed (namespaceNames : list string)
      (f : list Emission) :
  emitNamespaces namespaceNames f
  = flat_map namespaceOpen namespaceNames
    ++ (match namespaceNames with [] => f | _ => indent f end)
    ++ flat_map (fun _ => namespaceClose) namespaceNames.
Proof.
  induction namespaceNames as [|first rest IH].
  - simpl. by rewrite app_nil_r.
  - cbn [emitNamespaces]. rewrite IH. unfold emitBlock, emitLine.
    destruct rest as [|second rest].
    + rewrite bool_decide_eq_true_2 by done. simpl. by rewrite app_nil_r.
    + rewrite bool_decide_eq_false_2 by done.
      change (flat_map (fun _ => namespaceClose) (first :: second :: rest))
        with (namespaceClose
              ++ flat_map (fun _ => namespaceClose) (second :: rest)).
      rewrite <- flat_map_const_snoc.
      cbn [flat_map namespaceOpen]. unfold namespaceClose at 3.
      by rewrite <- !app_assoc.
Qed.

(** X1. [emitNamespaces] opens one block per namespace, in order, emits
    the body once and closes every block; the body is indented exactly one
    level however many namespaces enclose it, and not at all when there
    is none. *)
Theorem emitNamespaces_structure (namespaceNames : list string)
        (f : list Emission) :
  emitNamespaces namespaceNames f
  = flat_map namespaceOpen namespaceNames
    ++ (match namespaceNames with [] => f | _ => indent f end)
    ++ flat_map (fun _ => namespaceClose) namespaceNames.
Proof. apply emitNamespaces_closed. Qed.

(** ** The ordered map *)

Section JsMapProofs.

Context {K V : Type} `{EqDecision K}.

Lemma mapGet_mapSet_eq (m : list (K * V)) k v :
  mapGet (mapSet m k v) k = Some v.
Proof.
  induction m as [|[k' v'] m IH]; simpl.
  - by rewrite decide_True.
  - destruct (decide (k' = k)) as [->|Hne]; simpl.
    + by rewrite decide_True.
    + by rewrite decide_False.
Qed.

Lemma mapGet_mapSet_ne (m : list (K * V)) k k' v :
  k <> k' -> mapGet (mapSet m k v) k' = mapGet m k'.
Proof.
  intros Hne. induction m as [|[k0 v0] m IH]; simpl.
  - by rewrite decide_False.
  - destruct (decide (k0 = k)) as [->|Hne0]; simpl.
    + by rewrite !decide_False.
    + by rewrite IH.
Qed.

Lemma mapGet_None (m : list (K * V)) k :
  mapGet m k = None <-> k ∉ map fst m.
Proof.
  induction m as [|[k' v'] m IH]; simpl.
  - split; [intros _; apply not_elem_of_nil | done].
  - rewrite not_elem_of_cons. destruct (decide (k' = k)) as [->|Hne].
    + split; [done | by intros [? _]].
    + rewrite IH. split; [by split | by intros [_ ?]].
Qed.

Lemma mapSet_keys (m : list (K * V)) k v :
  map fst (mapSet m k v)
  = match mapGet m k with
    | Some _ => map fst m
    | None => map fst m ++ [k]
    end.
Proof.
  induction m as [|[k' v'] m IH]; simpl; [done|].
  destruct (decide (k' = k)) as [->|Hne]; simpl; [done|].
  rewrite IH. by destruct (mapGet m k).
Qed.

Lemma mapSet_NoDup (m : list (K * V)) k v :
  NoDup (map fst m) -> NoDup (map fst (mapSet m k v)).
Proof.
  intros Hnd. rewrite mapSet_keys.
  destruct (mapGet m k) eqn:Hk; [done|].
  apply NoDup_app. split; [done|]. split; [|apply NoDup_singleton].
  intros x Hx ->%list_elem_of_singleton. by apply mapGet_None in Hk.
Qed.

Lemma mapSet_Forall (P : K * V -> Prop) (m : list (K * V)) k v :
  Forall P m -> P (k, v) -> Forall P (mapSet m k v).
Proof.
  intros Hm Hkv. induction Hm as [|[k' v'] m Hx Hm IH]; simpl.
  - by constructor.
  - destruct (decide (k' = k)); by constructor.
Qed.

Lemma mapGet_Some_elem (m : list (K * V)) k v :
  mapGet m k = Some v -> (k, v) ∈ m.
Proof.
  induction m as [|[k' v'] m IH]; simpl; [done|].
  destruct (decide (k' = k)) as [->|Hne].
  - intros [= ->]. left.
  - intros Hm. right. by apply IH.
Qed.

Lemma mapGet_elem (m : list (K * V)) k v :
  NoDup (map fst m) -> (k, v) ∈ m -> mapGet m k = Some v.
Proof.
  induction m as [|[k' v'] m IH]; simpl; intros Hnd Hin.
  - by apply elem_of_nil in Hin.
  - apply NoDup_cons in Hnd as [Hk' Hnd].
    apply elem_of_cons in Hin as [[= -> ->]|Hin].
    + by rewrite decide_True.
    + rewrite decide_False; [by apply IH|].
      intros ->. apply Hk'. apply list_elem_of_fmap. by exists (k, v).
Qed.

End JsMapProofs.

(** ** [emitIncludes] *)

(** The three kinds of type a record of the include map may name. *)
Lemma propRecordFor_typeKind (t : TypeRecord) :
  inc_kind (propRecordFor t) <> None ->
  inc_typeKind (propRecordFor t) = Some "class"
  \/ inc_typeKind (propRecordFor t) = Some "enum"
  \/ inc_typeKind (propRecordFor t) = Some "union".
Proof.
  unfold propRecordFor. destruct (tr_type t); simpl; try done; eauto.
  repeat case_match; simpl; eauto.
Qed.

Section IncludeProofs.

Variable this : Renderer.
Variable unionNeedsName : Ty -> bool.
Variable enumType : string.

Abbreviation includesOf := (includesOf unionNeedsName).
Abbreviation emitIncludes_map := (emitIncludes_map unionNeedsName).
Abbreviation declRecords := (declRecords unionNeedsName).

Lemma mergeIncludeOrdered_agrees (l : list (string * IncludeRecord))
      (m : gmap string IncludeRecord) k p :
  (forall n, mapGet l n = m !! n) ->
  forall n, mapGet (mergeIncludeOrdered l k p) n = mergeInclude m k p !! n.
Proof.
  intros Hagree n. unfold mergeIncludeOrdered, mergeInclude.
  rewrite Hagree.
  assert (mapGet (mapSet l k p) n = <[k:=p]> m !! n) as Hset.
  { destruct (decide (k = n)) as [->|Hne].
    - by rewrite mapGet_mapSet_eq, lookup_insert_eq.
    - by rewrite mapGet_mapSet_ne, lookup_insert_ne. }
  destruct (m !! k) as [r|]; [case_bool_decide|]; done.
Qed.

Lemma mergeIncludeOrdered_NoDup (l : list (string * IncludeRecord)) k p :
  NoDup (map fst l) -> NoDup (map fst (mergeIncludeOrdered l k p)).
Proof.
  intros Hnd. unfold mergeIncludeOrdered.
  destruct (mapGet l k) as [r|]; [case_bool_decide|];
    try done; by apply mapSet_NoDup.
Qed.

Lemma includesOf_fold c :
  includesOf c
  = foldl (fun includes t =>
             mergeIncludeOrdered includes (tr_name t) (propRecordFor t))
      [] (declRecords c).
Proof.
  destruct c as [n props| |u]; try done. simpl.
  generalize (@nil (string * IncludeRecord)).
  induction props as [|p props IH]; intros includes; [done|].
  simpl. rewrite foldl_app. apply IH.
Qed.

Lemma foldl_ordered_agrees records :
  forall (l : list (string * IncludeRecord)) (m : gmap string IncludeRecord),
    (forall n, mapGet l n = m !! n) -> NoDup (map fst l) ->
    let l' := foldl (fun includes t =>
                       mergeIncludeOrdered includes (tr_name t)
                         (propRecordFor t)) l records in
    (forall n, mapGet l' n = foldl includeStep m records !! n)
    /\ NoDup (map fst l').
Proof.
  induction records as [|t records IH]; intros l m Hagree Hnd; [done|].
  simpl. apply IH.
  - by apply mergeIncludeOrdered_agrees.
  - by apply mergeIncludeOrdered_NoDup.
Qed.

(** The ordered map holds the same records as the map of the
    classifier, each name once. *)
Lemma includesOf_agrees c :
  (forall n, mapGet (includesOf c) n = emitIncludes_map c !! n)
  /\ NoDup (map fst (includesOf c)).
Proof.
  rewrite includesOf_fold, emitIncludes_map_fold.
  apply foldl_ordered_agrees; [|constructor].
  intros n. by rewrite lookup_empty.
Qed.

Lemma includesOf_elem c n r :
  (n, r) ∈ includesOf c <-> emitIncludes_map c !! n = Some r.
Proof.
  destruct (includesOf_agrees c) as [Hagree Hnd]. rewrite <- Hagree.
  split; [by apply mapGet_elem | apply mapGet_Some_elem].
Qed.

Lemma emitIncludes_map_defined c : includesDefined (emitIncludes_map c).
Proof.
  rewrite emitIncludes_map_fold.
  apply foldl_includeStep_defined;
    [apply includesDefined_empty | apply declRecords_defined].
Qed.

(** Every record of the map has one of the three type kinds. *)
Lemma foldl_includeStep_typeKind records :
  forall m : gmap string IncludeRecord,
    Forall (fun t => inc_kind (propRecordFor t) <> None) records ->
    (forall k r, m !! k = Some r ->
                 inc_typeKind r = Some "class" \/ inc_typeKind r = Some "enum"
                 \/ inc_typeKind r = Some "union") ->
    forall k r, foldl includeStep m records !! k = Some r ->
                inc_typeKind r = Some "class" \/ inc_typeKind r = Some "enum"
                \/ inc_typeKind r = Some "union".
Proof.
  induction records as [|t records IH]; intros m Hrs Hm; [done|].
  apply Forall_cons in Hrs as [Ht Hrs]. simpl. apply IH; [done|].
  intros k r. unfold includeStep.
  destruct (decide (tr_name t = k)) as [<-|Hne].
  - rewrite mergeInclude_lookup_eq.
    destruct (m !! tr_name t) as [r0|] eqn:H0.
    + case_bool_decide; intros [= <-];
        [by apply propRecordFor_typeKind | by eapply Hm].
    + intros [= <-]. by apply propRecordFor_typeKind.
  - rewrite mergeInclude_lookup_ne by done. apply Hm.
Qed.

Lemma emitIncludes_map_typeKind c k r :
  emitIncludes_map c !! k = Some r ->
  inc_typeKind r = Some "class" \/ inc_typeKind r = Some "enum"
  \/ inc_typeKind r = Some "union".
Proof.
  rewrite emitIncludes_map_fold.
  apply foldl_includeStep_typeKind; [apply declRecords_defined|].
  intros k' r'. by rewrite lookup_empty.
Qed.

Lemma filter_cons_bool {A} (f : A -> bool) (x : A) (l : list A) :
  filter f (x :: l) = if f x then x :: filter f l else filter f l.
Proof.
  destruct (f x) eqn:E.
  - rewrite filter_cons_True; [done | by rewrite E].
  - rewrite filter_cons_False; [done | rewrite E; by intros []].
Qed.

(** The include lines name the entries counted as includes. *)
Lemma includeLines_names defName (l : list (string * IncludeRecord)) :
  omap includedType (flat_map (includeLine defName) l)
  = map fst (filter (countsAsInclude defName) l)
  /\ omap forwardDeclared (flat_map (includeLine defName) l) = [].
Proof.
  induction l as [|[name rec] l [IH1 IH2]]; [done|].
  cbn [flat_map]. rewrite !omap_app, IH1, IH2, filter_cons_bool.
  replace (countsAsInclude defName (name, rec))
    with (negb (bool_decide (name = defName))
          && bool_decide (inc_kind rec ≠ Some ForwardDeclare)) by done.
  unfold includeLine.
  destruct (bool_decide (name = defName)); cbn [negb andb]; [done|].
  by destruct (bool_decide (inc_kind rec ≠ Some ForwardDeclare)).
Qed.

(** The forward declarations never panic and name the entries counted
    as forwards. *)
Lemma forwardLines_names defName (l : list (string * IncludeRecord)) :
  Forall (fun e => inc_typeKind (snd e) = Some "class"
                   \/ inc_typeKind (snd e) = Some "enum"
                   \/ inc_typeKind (snd e) = Some "union") l ->
  exists lines,
    forwardLines this enumType defName l = Some lines
    /\ omap forwardDeclared lines = map fst (filter (countsAsForward defName) l)
    /\ omap includedType lines = [].
Proof.
  induction 1 as [|[name rec] l Hrec _ (lines & Hlines & IH1 & IH2)].
  - by exists [].
  - cbn [forwardLines]. rewrite Hlines, filter_cons_bool.
    replace (countsAsForward defName (name, rec))
      with (negb (bool_decide (name = defName))
            && bool_decide (inc_kind rec = Some ForwardDeclare)) by done.
    unfold forwardLine. cbn [fst snd] in *.
    destruct (bool_decide (name = defName)); cbn [negb andb];
      [by exists lines|].
    destruct (decide (inc_kind rec = Some ForwardDeclare)) as [Hfd|Hfd].
    2: { rewrite (bool_decide_eq_true_2 (inc_kind rec ≠ Some ForwardDeclare)),
           (bool_decide_eq_false_2 (inc_kind rec = Some ForwardDeclare))
           by done.
         by exists lines. }
    rewrite (bool_decide_eq_false_2 (inc_kind rec ≠ Some ForwardDeclare))
      by (intros H; by apply H).
    rewrite (bool_decide_eq_true_2 (inc_kind rec = Some ForwardDeclare))
      by done.
    destruct Hrec as [Hc|[He|Hu]]; rewrite ?Hc, ?He, ?Hu;
      cbn -[countsAsForward filter]; try destruct (codeFormat this);
      eexists; (split; [reflexivity|]);
      unfold emitLine; rewrite !omap_app, IH1, IH2; split; reflexivity.
Qed.

Lemma omap_emitNamespaces_forward names f :
  omap forwardDeclared (emitNamespaces names f) = omap forwardDeclared f.
Proof.
  rewrite emitNamespaces_closed, !omap_app.
  assert (omap forwardDeclared (flat_map namespaceOpen names) = []) as ->
      by (induction names as [|n names IH]; [done | by simpl]).
  assert (omap forwardDeclared (flat_map (fun _ => namespaceClose) names) = [])
    as -> by (induction names as [|n names IH]; [done | by simpl]).
  rewrite app_nil_r. destruct names; [done|].
  unfold indent. by rewrite !omap_app, app_nil_r.
Qed.

Lemma omap_emitNamespaces_included names f :
  omap includedType (emitNamespaces names f) = omap includedType f.
Proof.
  rewrite emitNamespaces_closed, !omap_app.
  assert (omap includedType (flat_map namespaceOpen names) = []) as ->
      by (induction names as [|n names IH]; [done | by simpl]).
  assert (omap includedType (flat_map (fun _ => namespaceClose) names) = [])
    as -> by (induction names as [|n names IH]; [done | by simpl]).
  rewrite app_nil_r. destruct names; [done|].
  unfold indent. by rewrite !omap_app, app_nil_r.
Qed.

(** What [emitIncludes] emits, by name. *)
Lemma emitIncludes_names c defName :
  exists out,
    emitIncludes this unionNeedsName enumType c defName = Some out
    /\ omap includedType out
       = map fst (filter (countsAsInclude defName) (includesOf c))
    /\ omap forwardDeclared out
       = map fst (filter (countsAsForward defName) (includesOf c)).
Proof.
  unfold emitIncludes. fold (includesOf c).
  destruct (includeLines_names defName (includesOf c)) as [Hinc1 Hinc2].
  destruct (forwardLines_names defName (includesOf c))
    as (lines & Hlines & Hfwd1 & Hfwd2).
  { apply Forall_forall. intros [n r] Hin. simpl.
    apply includesOf_elem in Hin. by eapply emitIncludes_map_typeKind. }
  case_bool_decide as Hsize.
  - set (blank := if bool_decide (0 < _) then [EnsureBlankLine] else []).
    assert (omap includedType blank = [] /\ omap forwardDeclared blank = [])
      as [Hb1 Hb2] by (unfold blank; by case_bool_decide).
    case_bool_decide as Hnum.
    + rewrite Hlines. eexists. split; [done|].
      rewrite !omap_app, omap_emitNamespaces_included,
        omap_emitNamespaces_forward, Hinc1, Hinc2, Hb1, Hb2, Hfwd1, Hfwd2.
      by rewrite !app_nil_r.
    + eexists. split; [done|].
      rewrite !omap_app, Hinc1, Hinc2, Hb1, Hb2. rewrite !app_nil_r.
      split; [done|]. simpl.
      destruct (filter (countsAsForward defName) (includesOf c)); [done|].
      simpl in Hnum. lia.
  - exists []. split; [done|].
    destruct (includesOf c); [done|]. simpl in Hsize. lia.
Qed.

End IncludeProofs.

Lemma elem_of_filter_keys {V} (f : string * V -> bool)
      (l : list (string * V)) (n : string) :
  n ∈ map fst (filter f l) <-> exists r, (n, r) ∈ l /\ f (n, r) = true.
Proof.
  change (map fst (filter f l)) with (fst <$> filter f l).
  rewrite list_elem_of_fmap. split.
  - intros ([n' r] & -> & Hin). apply list_elem_of_filter in Hin as [Hf Hin].
    exists r. split; [done|]. by apply Is_true_true.
  - intros (r & Hin & Hf). exists (n, r). split; [done|].
    apply list_elem_of_filter. split; [by apply Is_true_true | done].
Qed.

Lemma NoDup_filter_keys {V} (f : string * V -> bool) (l : list (string * V)) :
  NoDup (map fst l) -> NoDup (map fst (filter f l)).
Proof.
  induction l as [|[n r] l IH]; [done|]. simpl. intros Hnd.
  apply NoDup_cons in Hnd as [Hn Hnd]. rewrite filter_cons_bool.
  destruct (f (n, r)); [|by apply IH]. simpl. apply NoDup_cons.
  split; [|by apply IH]. intros Hin. apply Hn.
  apply elem_of_filter_keys in Hin as (r' & Hin & _).
  change (map fst l) with (fst <$> l). apply list_elem_of_fmap.
  by exists (n, r').
Qed.

(** X2. The panic of [emitIncludes] is dead code.  Whenever the walk of
    [generatedTypes] over the types of the definition ends, as it does
    on the finite trees modelled here, every record of the include map
    names a class, a union or an enum, so no forward declaration takes
    the [Invalid type] branch, which is the only way [emitIncludes] has
    of being [None].  (A union that reaches itself through a sequence or
    a map is no finite tree: the walk of the source, which keeps no set
    of visited types, does not end on it, and nothing is said of it.) *)
Theorem emitIncludes_never_panics
        (this : Renderer) (unionNeedsName : Ty -> bool) (enumType : string)
        (c : Definition_) (defName : string) :
  is_Some (emitIncludes this unionNeedsName enumType c defName)
  /\ (forall n r, emitIncludes_map unionNeedsName c !! n = Some r ->
                  inc_typeKind r = Some "class" \/ inc_typeKind r = Some "enum"
                  \/ inc_typeKind r = Some "union").
Proof.
  split.
  - destruct (emitIncludes_names this unionNeedsName enumType c defName)
      as (out & -> & _). by eexists.
  - intros n r. apply emitIncludes_map_typeKind.
Qed.

Lemma emitIncludes_membership
        (this : Renderer) (unionNeedsName : Ty -> bool) (enumType : string)
        (c : Definition_) (defName : string) :
  exists out,
    emitIncludes this unionNeedsName enumType c defName = Some out
    /\ (forall n,
           n ∈ omap includedType out <->
           n <> defName
           /\ exists r, emitIncludes_map unionNeedsName c !! n = Some r
                        /\ inc_kind r = Some Include)
    /\ (forall n,
           n ∈ omap forwardDeclared out <->
           n <> defName
           /\ exists r, emitIncludes_map unionNeedsName c !! n = Some r
                        /\ inc_kind r = Some ForwardDeclare)
    /\ NoDup (omap includedType out ++ omap forwardDeclared out).
Proof.
  destruct (emitIncludes_names this unionNeedsName enumType c defName)
    as (out & Hout & Hinc & Hfwd).
  destruct (includesOf_agrees unionNeedsName c) as [Hagree Hnd].
  exists out. split; [done|]. rewrite Hinc, Hfwd.
  assert (forall n r, (n, r) ∈ includesOf unionNeedsName c ->
                      countsAsInclude defName (n, r) = true <->
                      n <> defName /\ inc_kind r = Some Include) as Hci.
  { intros n r Hin. apply includesOf_elem in Hin.
    apply emitIncludes_map_defined in Hin.
    unfold countsAsInclude. cbn [fst snd].
    rewrite andb_true_iff, negb_true_iff, bool_decide_eq_false,
      bool_decide_eq_true.
    split; intros [? Hk]; (split; [done|]);
      destruct (inc_kind r) as [[]|]; congruence. }
  assert (forall n r, countsAsForward defName (n, r) = true <->
                      n <> defName /\ inc_kind r = Some ForwardDeclare)
    as Hcf.
  { intros n r. unfold countsAsForward. cbn [fst snd].
    by rewrite andb_true_iff, negb_true_iff, bool_decide_eq_false,
      bool_decide_eq_true. }
  split; [|split].
  - intros n. rewrite elem_of_filter_keys. split.
    + intros (r & Hin & Hc). apply Hci in Hc as [? ?]; [|done].
      split; [done|]. exists r. by rewrite <- includesOf_elem.
    + intros (Hne & r & Hr & Hk). exists r.
      apply includesOf_elem in Hr. split; [done|]. by apply Hci.
  - intros n. rewrite elem_of_filter_keys. split.
    + intros (r & Hin & Hc). apply Hcf in Hc as [? ?].
      split; [done|]. exists r. by rewrite <- includesOf_elem.
    + intros (Hne & r & Hr & Hk). exists r.
      apply includesOf_elem in Hr. split; [done|]. by apply Hcf.
  - apply NoDup_app. split; [by apply NoDup_filter_keys|].
    split; [|by apply NoDup_filter_keys].
    intros n Hi Hf.
    apply elem_of_filter_keys in Hi as (r1 & Hin1 & Hc1).
    apply elem_of_filter_keys in Hf as (r2 & Hin2 & Hc2).
    apply Hci in Hc1 as [_ Hk1]; [|done]. apply Hcf in Hc2 as [_ Hk2].
    apply (mapGet_elem _ _ _ Hnd) in Hin1, Hin2. congruence.
Qed.

(** X3. Every name of the include map other than the one being defined
    is emitted exactly once: as [#include "Name.hpp"] when its record is
    [Include], as a forward declaration when it is [ForwardDeclare]; the
    name being defined gets neither. *)
Theorem emitIncludes_each_name_once
        (this : Renderer) (unionNeedsName : Ty -> bool) (enumType : string)
        (c : Definition_) (defName : string) :
  exists out,
    emitIncludes this unionNeedsName enumType c defName = Some out
    /\ (forall n,
           n ∈ omap includedType out <->
           n <> defName
           /\ exists r, emitIncludes_map unionNeedsName c !! n = Some r
                        /\ inc_kind r = Some Include)
    /\ (forall n,
           n ∈ omap forwardDeclared out <->
           n <> defName
           /\ exists r, emitIncludes_map unionNeedsName c !! n = Some r
                        /\ inc_kind r = Some ForwardDeclare)
    /\ NoDup (omap includedType out ++ omap forwardDeclared out).
Proof. apply emitIncludes_membership. Qed.

(** ** What a definition's file includes *)

Section DefinitionProofs.

Variable unionNeedsName : Ty -> bool.

(** Outside class members nothing is forced and no union is recorded. *)
Lemma recur_outside_member t : forall isVariant l r,
  r ∈ recur unionNeedsName false false isVariant l t ->
  tr_forceInclude r = false
  /\ (kind (tr_type r) = "class" \/ kind (tr_type r) = "enum").
Proof.
  induction t as [ | | | | | | items IH | n | values IH | n | n ms IH]
    using Ty_members_ind; intros v l r Hr;
    try (by apply elem_of_nil in Hr).
  - by apply (IH v (S l)).
  - apply list_elem_of_singleton in Hr as ->. by eauto.
  - by apply (IH v (S l)).
  - apply list_elem_of_singleton in Hr as ->. by eauto.
  - rewrite recur_union in Hr. cbv zeta in Hr.
    rewrite andb_false_r in Hr.
    pose proof (removeNullFromUnion_nonNulls (UnionType n ms)) as Hnn.
    destruct (removeNullFromUnion (UnionType n ms) false)
      as [hasNull nonNulls]. simpl in Hnn. subst nonNulls.
    simpl in Hr. apply elem_of_flat_map in Hr as (m & Hm & Hr).
    apply list_elem_of_filter in Hm as [_ Hm].
    rewrite Forall_forall in IH. by eapply IH.
Qed.

(** The records of a union definition are forward declarations. *)
Lemma union_records_forward n ms r :
  r ∈ declRecords unionNeedsName (DefUnion (UnionType n ms)) ->
  inc_kind (propRecordFor r) = Some ForwardDeclare
  /\ inc_typeKind (propRecordFor r) <> Some "union".
Proof.
  simpl. unfold generatedTypes. intros Hr.
  destruct (recur_outside_member _ _ _ _ Hr) as [Hforce Hkind].
  assert (tr_level r <> 0) as Hlevel.
  { rewrite recur_union in Hr. cbv zeta in Hr. rewrite andb_false_r in Hr.
    destruct (removeNullFromUnion (UnionType n ms) false)
      as [hasNull nonNulls]. simpl in Hr.
    apply elem_of_flat_map in Hr as (m & _ & Hr).
    apply recur_level in Hr as [Hle _]. lia. }
  unfold propRecordFor.
  destruct (tr_type r); simpl in Hkind; try (by destruct Hkind).
  rewrite Hforce. by rewrite bool_decide_eq_false_2.
Qed.

(** Every record of the map comes from the start or from a merged
    record. *)
Lemma foldl_includeStep_origin records :
  forall (m : gmap string IncludeRecord) k r,
    foldl includeStep m records !! k = Some r ->
    m !! k = Some r
    \/ exists t, t ∈ records /\ tr_name t = k /\ propRecordFor t = r.
Proof.
  induction records as [|t records IH]; intros m k r Hk; [by left|].
  simpl in Hk. apply IH in Hk as [Hk|(t' & Hin & Hn & Hp)].
  - unfold includeStep in Hk.
    destruct (decide (tr_name t = k)) as [Heq|Hne].
    + rewrite <- Heq, mergeInclude_lookup_eq in Hk. rewrite <- Heq.
      destruct (m !! tr_name t) as [r0|] eqn:H0.
      * case_bool_decide; simplify_eq; [right | by left].
        exists t. split; [left | done].
      * simplify_eq. right. exists t. split; [left | done].
    + rewrite mergeInclude_lookup_ne in Hk by done. by left.
  - right. exists t'. split; [by right | done].
Qed.

End DefinitionProofs.

(** X4. The file of a union definition includes no other type's header:
    every class or enum the union refers to is forward declared, and no
    union is recorded. *)
Theorem union_definition_only_forward_declares
        (this : Renderer) (unionNeedsName : Ty -> bool) (enumType : string)
        (n : string) (ms : list Ty) (defName : string) :
  let c := DefUnion (UnionType n ms) in
  (forall k r, emitIncludes_map unionNeedsName c !! k = Some r ->
               inc_kind r = Some ForwardDeclare
               /\ inc_typeKind r <> Some "union")
  /\ exists out,
       emitIncludes this unionNeedsName enumType c defName = Some out
       /\ omap includedType out = [].
Proof.
  intros c.
  assert (forall k r, emitIncludes_map unionNeedsName c !! k = Some r ->
                      inc_kind r = Some ForwardDeclare
                      /\ inc_typeKind r <> Some "union") as Hall.
  { intros k r. rewrite emitIncludes_map_fold. intros Hk.
    apply foldl_includeStep_origin in Hk as [Hk|(t & Hin & _ & <-)].
    - by rewrite lookup_empty in Hk.
    - by eapply union_records_forward. }
  split; [done|].
  destruct (emitIncludes_membership this unionNeedsName enumType c defName)
    as (out & Hout & Hinc & _).
  exists out. split; [done|].
  destruct (omap includedType out) as [|k ks]; [done|]. exfalso.
  destruct (Hinc k) as [(_ & r & Hr & Hkind) _]; [left|].
  apply Hall in Hr as [Hfd _]. congruence.
Qed.

(** X5. In the file of a definition, a class held by value (recorded at
    level 0) other than the defined one gets its header included and no
    forward declaration; a name whose records are all classes below
    level 0 without forced inclusion, or all enums, gets a forward
    declaration and no include. *)
Theorem definition_file_includes_by_value_only
        (this : Renderer) (unionNeedsName : Ty -> bool) (enumType : string)
        (c : Definition_) (defName : string) :
  exists out,
    emitIncludes this unionNeedsName enumType c defName = Some out
    /\ (forall r, r ∈ declRecords unionNeedsName c ->
                  isClassType (tr_type r) = true -> tr_level r = 0 ->
                  tr_name r <> defName ->
                  tr_name r ∈ omap includedType out
                  /\ tr_name r ∉ omap forwardDeclared out)
    /\ (forall n, n <> defName ->
                  (exists r, r ∈ declRecords unionNeedsName c
                             /\ tr_name r = n) ->
                  (forall r, r ∈ declRecords unionNeedsName c ->
                             tr_name r = n ->
                             isClassType (tr_type r) = true
                             /\ tr_level r <> 0
                             /\ tr_forceInclude r = false) ->
                  n ∈ omap forwardDeclared out
                  /\ n ∉ omap includedType out)
    /\ (forall n, n <> defName ->
                  (exists r, r ∈ declRecords unionNeedsName c
                             /\ tr_name r = n) ->
                  (forall r, r ∈ declRecords unionNeedsName c ->
                             tr_name r = n -> kind (tr_type r) = "enum") ->
                  n ∈ omap forwardDeclared out
                  /\ n ∉ omap includedType out).
Proof.
  destruct (emitIncludes_membership this unionNeedsName enumType c defName)
    as (out & Hout & Hinc & Hfwd & _).
  exists out. split; [done|].
  assert (forall n p,
             inc_kind p = Some ForwardDeclare -> n <> defName ->
             (exists r, r ∈ declRecords unionNeedsName c /\ tr_name r = n) ->
             (forall r, r ∈ declRecords unionNeedsName c -> tr_name r = n ->
                        propRecordFor r = p) ->
             n ∈ omap forwardDeclared out /\ n ∉ omap includedType out)
    as Hforward.
  { intros n p Hp Hne (r0 & Hr0 & Hn0) Hall.
    assert (emitIncludes_map unionNeedsName c !! n = Some p) as Hmap.
    { rewrite emitIncludes_map_fold.
      apply forward_only; [done| | |apply lookup_empty].
      - apply Forall_forall. intros r Hr Hn. by apply Hall.
      - apply Exists_exists. by exists r0. }
    split.
    - apply Hfwd. split; [done|]. by exists p.
    - intros Hin. apply Hinc in Hin as (_ & r & Hr & Hk). congruence. }
  split; [|split].
  - intros r Hr Hclass Hlevel Hne.
    assert (inc_kind <$> (emitIncludes_map unionNeedsName c !! tr_name r)
            = Some (Some Include)) as Hmap.
    { rewrite emitIncludes_map_fold.
      apply include_wins;
        [apply includesDefined_empty | apply declRecords_defined | done |].
      unfold propRecordFor. destruct (tr_type r); try done.
      rewrite Hlevel. simpl. by destruct (tr_forceInclude r). }
    destruct (emitIncludes_map unionNeedsName c !! tr_name r) as [r0|] eqn:H0;
      [|done].
    injection Hmap as Hk. split.
    + apply Hinc. split; [done|]. by exists r0.
    + intros Hin. apply Hfwd in Hin as (_ & r1 & Hr1 & Hk1). congruence.
  - intros n Hne Hex Hall.
    apply (Hforward n (mkIncludeRecord (Some ForwardDeclare) (Some "class")));
      try done.
    intros r Hr Hn. destruct (Hall r Hr Hn) as (Hclass & Hlevel & Hforce).
    unfold propRecordFor. destruct (tr_type r); try done.
    rewrite Hforce. by rewrite bool_decide_eq_false_2.
  - intros n Hne Hex Hall.
    apply (Hforward n (mkIncludeRecord (Some ForwardDeclare) (Some "enum")));
      try done.
    intros r Hr Hn. specialize (Hall r Hr Hn).
    unfold propRecordFor. by destruct (tr_type r).
Qed.

(** ** Enum decoder and encoder *)

Section EnumProofs.

Variable this : Renderer.

(** The emitted lines are one chain, opened by [if] and continued by
    [else if]; without any case they are the lone [else throw], which is
    no statement. *)
Lemma enumFromJsonCases_run equals enumName cases :
  forall onFirst,
    runEnumDecoder equals onFirst
      (enumFromJsonCases this enumName onFirst cases ++ enumFromJsonElse)
    = match find (fun c => equals (stringEscape this (ec_jsonName c))) cases
      with
      | Some c => AssignsCase (ec_name c)
      | None =>
          match cases with
          | [] => if onFirst then DecodeMalformed
                  else DecodeThrows
                         (q "else throw `Input JSON does not conform to schema`;")
          | _ :: _ =>
              DecodeThrows
                (q "else throw `Input JSON does not conform to schema`;")
          end
      end.
Proof.
  induction cases as [|c cases IH]; intros onFirst;
    [by destruct onFirst|].
  cbn [enumFromJsonCases emitLine app runEnumDecoder find].
  rewrite String.eqb_refl.
  cbn [andb]. cbn -[runEnumDecoder enumFromJsonCases enumFromJsonElse find].
  destruct (equals _); [done|]. rewrite IH.
  destruct (find _ cases); [done|]. by destruct cases.
Qed.

Lemma enumToJsonCases_run isActive enumName cases :
  runEnumEncoder isActive (enumToJsonSwitch this cases enumName)
  = match find (fun c => isActive (ec_name c)) cases with
    | Some c => WritesLiteral (stringEscape this (ec_jsonName c))
    | None => EncodeThrows (q "default: throw `This should not happen`;")
    end.
Proof.
  unfold enumToJsonSwitch, enumToJsonCases.
  induction cases as [|c cases IH]; [done|].
  cbn [flat_map emitLine app runEnumEncoder find].
  cbn -[runEnumEncoder flat_map enumToJsonDefault find].
  destruct (isActive _); [done | apply IH].
Qed.

End EnumProofs.

Lemma find_unique_key {A} (key : A -> string) (l : list A) (x : A) :
  NoDup (map key l) -> x ∈ l ->
  find (fun y => String.eqb (key x) (key y)) l = Some x.
Proof.
  induction l as [|y l IH]; intros Hnd Hin; [by apply elem_of_nil in Hin|].
  simpl in Hnd. apply NoDup_cons in Hnd as [Hy Hnd]. simpl.
  apply elem_of_cons in Hin as [->|Hin]; [by rewrite String.eqb_refl|].
  destruct (String.eqb (key x) (key y)) eqn:E; [|by apply IH].
  apply String.eqb_eq in E. exfalso. apply Hy. rewrite <- E.
  change (map key l) with (key <$> l). apply list_elem_of_fmap. by exists x.
Qed.

(** X6. The emitted enum decoder is one statement, an [if] followed by
    [else if]s and a final [else throw]: it compares the value with the
    wire labels in declared order and assigns the first case whose label
    matches; when none matches it throws.  (For an enum without cases
    the [else throw] would stand alone.)  The emitted encoder writes the
    wire label of the first case equal to the value and throws in its
    default branch otherwise. *)
Theorem enum_functions_first_match
        (this : Renderer) (cases : list EnumCase) (enumName : string)
        (equals isActive : string -> bool) :
  runEnumDecoder equals true (enumFromJsonBody this cases enumName)
  = match find (fun c => equals (stringEscape this (ec_jsonName c))) cases
    with
    | Some c => AssignsCase (ec_name c)
    | None =>
        match cases with
        | [] => DecodeMalformed
        | _ :: _ =>
            DecodeThrows
              (q "else throw `Input JSON does not conform to schema`;")
        end
    end
  /\ runEnumEncoder isActive (enumToJsonSwitch this cases enumName)
     = match find (fun c => isActive (ec_name c)) cases with
       | Some c => WritesLiteral (stringEscape this (ec_jsonName c))
       | None => EncodeThrows (q "default: throw `This should not happen`;")
       end.
Proof.
  split; [apply enumFromJsonCases_run | apply enumToJsonCases_run].
Qed.

(** X7. Round trip of an enum whose case names are distinct and whose
    escaped wire labels are distinct: encoding a case writes its label,
    and decoding that label assigns the case back. *)
Theorem enum_encode_decode_round_trip
        (this : Renderer) (cases : list EnumCase) (enumName : string)
        (c : EnumCase) :
  NoDup (map ec_name cases) ->
  NoDup (map (fun c => stringEscape this (ec_jsonName c)) cases) ->
  c ∈ cases ->
  exists lit,
    runEnumEncoder (String.eqb (ec_name c))
      (enumToJsonSwitch this cases enumName) = WritesLiteral lit
    /\ lit = stringEscape this (ec_jsonName c)
    /\ runEnumDecoder (String.eqb lit) true
         (enumFromJsonBody this cases enumName)
       = AssignsCase (ec_name c).
Proof.
  intros Hnames Hlabels Hin. eexists. split; [|split; [reflexivity|]].
  - rewrite enumToJsonCases_run.
    by rewrite (find_unique_key ec_name cases c Hnames Hin).
  - unfold enumFromJsonBody. rewrite enumFromJsonCases_run.
    by rewrite (find_unique_key
                  (fun c => stringEscape this (ec_jsonName c)) cases c
                  Hlabels Hin).
Qed.

(** The enum of red and green: encoding [GREEN] writes [green], which
    decodes to [GREEN]. *)
Lemma enum_round_trip_witness :
  let cases := [mkEnumCase "RED" "red"; mkEnumCase "GREEN" "green"] in
  runEnumDecoder (String.eqb "green") true
    (enumFromJsonBody exampleRenderer cases "Color")
  = AssignsCase "GREEN".
Proof.
  intros cases.
  destruct (enum_encode_decode_round_trip exampleRenderer cases "Color"
              (mkEnumCase "GREEN" "green")) as (lit & _ & -> & Hdecode).
  - apply (bool_decide_unpack _). by vm_compute.
  - apply (bool_decide_unpack _). by vm_compute.
  - right. left.
  - exact Hdecode.
Defined.

(** ** The keys of the class decoder and encoder *)

Section ClassFunctionProofs.

Variable this : Renderer.

Lemma fromJsonProperty_keys property :
  omap fromJsonKey (fromJsonProperty this property)
  = [stringEscape this (cp_jsonName property)]
  /\ omap toJsonKey (fromJsonProperty this property) = [].
Proof.
  destruct property as [name json t]. unfold fromJsonProperty.
  cbn [cp_type cp_jsonName cp_name].
  destruct (gettersAndSettersForPropertyName this name)
    as [[getterName mutableGetterName] setterName].
  destruct (removeNullFromUnion t true) as [maybeNull nonNulls].
  destruct (isUnionType t && neq_null maybeNull);
    [|destruct (bool_decide (kind t = "null") || bool_decide (kind t = "any"))];
    destruct (codeFormat this); split; reflexivity.
Qed.

Lemma toJsonProperty_keys property :
  omap toJsonKey (toJsonProperty this property)
  = [stringEscape this (cp_jsonName property)]
  /\ omap fromJsonKey (toJsonProperty this property) = [].
Proof.
  destruct property as [name json t]. unfold toJsonProperty.
  cbn [cp_type cp_jsonName cp_name].
  destruct (gettersAndSettersForPropertyName this name)
    as [[getterName mutableGetterName] setterName].
  destruct (codeFormat this); split; reflexivity.
Qed.

Lemma omap_flat_map_singleton {A B C} (g : B -> option C) (f : A -> list B)
      (h : A -> C) (l : list A) :
  (forall x, omap g (f x) = [h x]) -> omap g (flat_map f l) = map h l.
Proof.
  intros H. induction l as [|x l IH]; [done|].
  cbn [flat_map map]. by rewrite omap_app, H, IH.
Qed.

Lemma omap_flat_map_nil {A B C} (g : B -> option C) (f : A -> list B)
      (l : list A) :
  (forall x, omap g (f x) = []) -> omap g (flat_map f l) = [].
Proof.
  intros H. induction l as [|x l IH]; [done|].
  cbn [flat_map]. by rewrite omap_app, H, IH.
Qed.

End ClassFunctionProofs.

(** X8. The decoder and the encoder emitted for a class agree on the
    keys: [from_json] reads, and [to_json] writes, the escaped wire name
    of every property exactly once, in declared order. *)
Theorem class_functions_same_keys
        (this : Renderer) (props : list ClassProperty) (className : string) :
  let keys := map (fun p => stringEscape this (cp_jsonName p)) props in
  omap fromJsonKey (emitClassFunctions this props className) = keys
  /\ omap toJsonKey (emitClassFunctions this props className) = keys.
Proof.
  intros keys. unfold emitClassFunctions, emitBlock, emitLine, indent.
  rewrite !omap_app.
  rewrite (omap_flat_map_singleton fromJsonKey (fromJsonProperty this)
             (fun p => stringEscape this (cp_jsonName p)))
    by (intros p; apply fromJsonProperty_keys).
  rewrite (omap_flat_map_nil fromJsonKey (toJsonProperty this))
    by (intros p; apply toJsonProperty_keys).
  rewrite (omap_flat_map_singleton toJsonKey (toJsonProperty this)
             (fun p => stringEscape this (cp_jsonName p)))
    by (intros p; apply toJsonProperty_keys).
  rewrite (omap_flat_map_nil toJsonKey (fromJsonProperty this))
    by (intros p; apply fromJsonProperty_keys).
  split; cbn; by rewrite ?app_nil_r.
Qed.

(** ** Checked setters across a class *)

Section ClassMemberProofs.

Variable this : Renderer.

Lemma checkConstraintCalls_app checkConst l1 l2 :
  checkConstraintCalls checkConst (l1 ++ l2)
  = checkConstraintCalls checkConst l1 ++ checkConstraintCalls checkConst l2.
Proof. apply omap_app. Qed.

Lemma checkConstraintCalls_flat_map_nil {A} checkConst
      (f : A -> list Emission) (l : list A) :
  (forall x, checkConstraintCalls checkConst (f x) = []) ->
  checkConstraintCalls checkConst (flat_map f l) = [].
Proof. unfold checkConstraintCalls. apply omap_flat_map_nil. Qed.

Lemma checkConstraintCalls_flat_map {A} checkConst
      (f : A -> list Emission) (l : list A) :
  checkConstraintCalls checkConst (flat_map f l)
  = flat_map (fun x => checkConstraintCalls checkConst (f x)) l.
Proof.
  induction l as [|x l IH]; [done|].
  cbn [flat_map]. by rewrite checkConstraintCalls_app, IH.
Qed.

Lemma emitMember_no_call checkConst cppType name :
  checkConstraintCalls checkConst (emitMember cppType name) = [].
Proof.
  unfold checkConstraintCalls, emitMember, emitLine.
  cbn [omap list_omap].
  repeat (rewrite checkConstraintCall_skip by (intros; simplify_eq)).
  done.
Qed.

Lemma emitAccessors_calls constraints property :
  checkConstraintCalls (lookupGlobalName this CheckConstraint)
    (emitAccessors this constraints property)
  = if hasConstraint constraints (cp_jsonName property)
    then [(SName (cp_name property),
           SStr (constraintMember this (cp_jsonName property)),
           SStr (if isNullableUnion (cp_type property)
                 then ", *value); this->" else ", value); this->"))]
    else [].
Proof.
  unfold emitAccessors.
  destruct (gettersAndSettersForPropertyName this (cp_name property))
    as [[getterName mutableGetterName] setterName].
  set (rendered := cppType this (cp_type property) _ true).
  set (checkConst := lookupGlobalName this CheckConstraint).
  assert (forall open, rendered = SStr open ->
                       String.eqb open (q "(`") = false) as Hrendered
      by (intros open; apply cppType_not_open).
  clearbody rendered checkConst. unfold checkConstraintCalls.
  destruct (hasConstraint constraints (cp_jsonName property));
    destruct (isNullableUnion (cp_type property));
    cbn [emitLine app omap list_omap];
    repeat (rewrite checkConstraintCall_skip
              by (intros; simplify_eq;
                  first [done | by left | left; by eapply Hrendered]));
    cbn [checkConstraintCall]; rewrite ?String.eqb_refl; done.
Qed.

End ClassMemberProofs.

(** X9. Across a class, the checker is called only by the setters of
    constrained properties, once each and in declared order, and only in
    the getter/setter format: with plain struct members no check is
    emitted at all. *)
Theorem checks_only_in_setters_of_constrained_properties
        (this : Renderer) (c : string) (props : list ClassProperty)
        (constraints : option (gmap string string)) :
  checkConstraintCalls (lookupGlobalName this CheckConstraint)
    (emitClassMembers this c props constraints)
  = if codeFormat this then
      map (fun property =>
             (SName (cp_name property),
              SStr (constraintMember this (cp_jsonName property)),
              SStr (if isNullableUnion (cp_type property)
                    then ", *value); this->" else ", value); this->")))
        (filter (fun property =>
                   hasConstraint constraints (cp_jsonName property)) props)
    else [].
Proof.
  unfold emitClassMembers. rewrite checkConstraintCalls_app.
  destruct (codeFormat this); cbn [negb].
  - rewrite !checkConstraintCalls_app.
    assert (checkConstraintCalls (lookupGlobalName this CheckConstraint)
              (emitLine [SStr "private:"]) = []) as -> by done.
    assert (checkConstraintCalls (lookupGlobalName this CheckConstraint)
              (emitLine [SStr "public:"]) = []) as -> by done.
    assert (checkConstraintCalls (lookupGlobalName this CheckConstraint)
              [EnsureBlankLine] = []) as -> by done.
    rewrite (checkConstraintCalls_flat_map_nil _ _ props).
    2: { intros p.
         rewrite checkConstraintCalls_app, emitMember_no_call.
         destruct (hasConstraint constraints (cp_jsonName p)); [|done].
         apply emitMember_no_call. }
    cbn [app]. rewrite checkConstraintCalls_flat_map.
    induction props as [|p props IH]; [done|].
    cbn [flat_map]. rewrite IH.
    change (checkConstraintCalls ?cc (EmitDescription ?d :: ?l))
      with (checkConstraintCalls cc l).
    rewrite emitAccessors_calls, filter_cons_bool.
    by destruct (hasConstraint constraints (cp_jsonName p)).
  - cbn [app]. apply checkConstraintCalls_flat_map_nil. intros p.
    change (checkConstraintCalls ?cc (EmitDescription ?d :: ?l))
      with (checkConstraintCalls cc l).
    apply emitMember_no_call.
Qed.

(** ** More on the representation mapper *)

Lemma insertByKind_length t l : length (insertByKind t l) = S (length l).
Proof.
  induction l as [|x l IH]; [done|]. simpl.
  destruct (string_ltb (kind x) (kind t)); simpl; by rewrite ?IH.
Qed.

Lemma setSortByKind_length l : length (setSortByKind l) = length l.
Proof.
  induction l as [|x l IH]; [done|].
  unfold setSortByKind in *. simpl. by rewrite insertByKind_length, IH.
Qed.

Lemma sourcelikeToString_SArr parts :
  sourcelikeToString (SArr parts)
  = foldr (fun p acc => sourcelikeToString p +:+ acc) EmptyString parts.
Proof. induction parts as [|p parts IH]; [done|]. simpl. by rewrite <- IH. Qed.

Lemma nullableFromUnion_member n ms x :
  nullableFromUnion (UnionType n ms) = JsVal x -> x ∈ ms.
Proof.
  rewrite nullableFromUnion_members. simpl members.
  destruct (existsb _ ms); [|done].
  destruct (filter _ ms) as [|alt [|alt' rest]] eqn:Hf; try done.
  intros [= ->].
  assert (x ∈ filter (fun m => kind m ≠ "null") ms) as Hin
      by (rewrite Hf; left).
  by apply list_elem_of_filter in Hin as [_ Hin].
Qed.

Section TextProofs.

Variable this : Renderer.

Lemma cppType_text_withIssues t : forall ctx,
  sourcelikeToString (cppType this t ctx true)
  = sourcelikeToString (cppType this t ctx false).
Proof.
  induction t as [ | | | | | | items IH | n | values IH | n | n ms IH]
    using Ty_members_ind; intros ctx; try done.
  - cbn [cppType]. rewrite !sourcelikeToString_SArr. cbn [foldr].
    by rewrite IH.
  - cbn [cppType]. rewrite !sourcelikeToString_SArr. cbn [foldr].
    by rewrite IH.
  - rewrite !cppType_union.
    destruct (nullableFromUnion (UnionType n ms)) as [| |x] eqn:Hn; try done.
    apply nullableFromUnion_member in Hn. rewrite Forall_forall in IH.
    rewrite !sourcelikeToString_SArr. cbn [foldr]. by rewrite (IH x Hn).
Qed.

Lemma typeListLoop_text ctx nonNulls :
  forall acc acc',
    Forall2 (fun a b => sourcelikeToString a = sourcelikeToString b) acc acc' ->
    Forall2 (fun a b => sourcelikeToString a = sourcelikeToString b)
      (typeListLoop this ctx true acc nonNulls)
      (typeListLoop this ctx false acc' nonNulls).
Proof.
  induction nonNulls as [|t nonNulls IH]; intros acc acc' Hacc; [done|].
  cbn [typeListLoop]. apply IH.
  rewrite <- (Forall2_length _ _ _ Hacc).
  apply Forall2_app; [|constructor; [apply cppType_text_withIssues|done]].
  case_bool_decide; [|done]. apply Forall2_app; [done|]. by constructor.
Qed.

Lemma SArr_text_Forall2 l l' :
  Forall2 (fun a b => sourcelikeToString a = sourcelikeToString b) l l' ->
  sourcelikeToString (SArr l) = sourcelikeToString (SArr l').
Proof.
  rewrite !sourcelikeToString_SArr.
  induction 1 as [|a b l l' Hab _ IH]; [done|]. simpl. by rewrite Hab, IH.
Qed.

Lemma cppTypeInOptional_text_withIssues nonNulls ctx :
  sourcelikeToString (cppTypeInOptional this nonNulls ctx true)
  = sourcelikeToString (cppTypeInOptional this nonNulls ctx false).
Proof.
  unfold cppTypeInOptional.
  assert (sourcelikeToString
            (SArr [SStr "boost::variant<";
                   SArr (typeListLoop this ctx true [] nonNulls); SStr ">"])
          = sourcelikeToString
              (SArr [SStr "boost::variant<";
                     SArr (typeListLoop this ctx false [] nonNulls);
                     SStr ">"])) as Hvariant.
  { rewrite (sourcelikeToString_SArr [_; _; _]).
    rewrite (sourcelikeToString_SArr [_; SArr (typeListLoop _ _ false _ _); _]).
    cbn [foldr]. do 2 f_equal.
    apply SArr_text_Forall2, typeListLoop_text. constructor. }
  destruct nonNulls as [|t [|t' rest]]; try done.
  apply cppType_text_withIssues.
Qed.

(** With two alternatives or more, [cppTypeInOptional] reads only the
    namespace flag of its context. *)
Lemma cppTypeInOptional_variant nonNulls ctx withIssues :
  length nonNulls <> 1 ->
  cppTypeInOptional this nonNulls ctx withIssues
  = SArr [SStr "boost::variant<";
          SArr (arrayIntercalate (SStr ", ")
                  (map (fun t =>
                          cppType this t
                            (mkTypeContext true false (inJsonNamespace ctx))
                            withIssues) nonNulls));
          SStr ">"].
Proof.
  intros Hlen. unfold cppTypeInOptional.
  rewrite typeListLoop_intercalate.
  by destruct nonNulls as [|t [|t' rest]].
Qed.

End TextProofs.

(** X10. Issue annotations never change the emitted text: a type, a
    variant's alternatives and a union's variant type render to the same
    characters with and without them. *)
Theorem annotations_keep_text
        (this : Renderer) (t : Ty) (nonNulls : list Ty) (ctx : TypeContext) :
  sourcelikeToString (cppType this t ctx true)
  = sourcelikeToString (cppType this t ctx false)
  /\ sourcelikeToString (cppTypeInOptional this nonNulls ctx true)
     = sourcelikeToString (cppTypeInOptional this nonNulls ctx false).
Proof.
  split; [apply cppType_text_withIssues
         | apply cppTypeInOptional_text_withIssues].
Qed.

(** Outside or inside the json namespace, a type that names nothing in a
    namespace renders the same. *)
Lemma cppType_namespaceFree (this : Renderer) (t : Ty) :
  namespaceFree t = true ->
  forall forward optional inJson inJson' withIssues,
    cppType this t (mkTypeContext forward optional inJson) withIssues
    = cppType this t (mkTypeContext forward optional inJson') withIssues.
Proof.
  induction t as [ | | | | | | items IH | n | values IH | n | n ms IH]
    using Ty_members_ind; intros Hfree forward optional inJson inJson' w;
    try done.
  - cbn [cppType inJsonNamespace]. by rewrite (IH Hfree false true inJson inJson').
  - cbn [cppType inJsonNamespace]. by rewrite (IH Hfree false true inJson inJson').
Qed.

(** X11. [variantType] fails exactly when the union has fewer than two
    non-null members.  Otherwise it is the variant over the non-null
    members sorted by kind, each rendered with forward indirection,
    wrapped in the optional type exactly when the union has a null
    member.  The union's [from_json] and [to_json] are declared for the
    variant over the same members in the same order, rendered inside
    the json namespace, while the typedef, the one caller of
    [variantType], renders them outside it; the two variants are the
    same when no member names anything in a namespace. *)
Theorem variantType_shape (this : Renderer) (u : Ty) :
  let nonNulls := snd (removeNullFromUnion u true) in
  let variantOver inJson :=
    SArr [SStr "boost::variant<";
          SArr (arrayIntercalate (SStr ", ")
                  (map (fun t =>
                          cppType this t (mkTypeContext true false inJson)
                            true) nonNulls));
          SStr ">"] in
  (forall inJson,
      variantType this u inJson
      = (if bool_decide (2 <= length nonNulls)%nat then
           Some (if existsb (fun m => bool_decide (kind m = "null"))
                      (members u)
                 then SArr [SStr optionalType; SStr "<"; variantOver inJson;
                            SStr ">"]
                 else variantOver inJson)
         else None))
  /\ ((2 <= length nonNulls)%nat ->
      sourcelikeToString
        (cppTypeInOptional this nonNulls (mkTypeContext false false true)
           false)
      = sourcelikeToString (variantOver true))
  /\ (forallb namespaceFree nonNulls = true ->
      variantOver false = variantOver true).
Proof.
  intros nonNulls variantOver. split; [|split].
  - intros inJson. unfold variantType. subst nonNulls variantOver.
    pose proof (neq_null_existsb u true) as Hnull.
    destruct (removeNullFromUnion u true) as [maybeNull nonNulls].
    cbn [fst snd] in *. rewrite Hnull.
    case_bool_decide as Hlen; [|done].
    rewrite cppTypeInOptional_variant by lia. cbn [inJsonNamespace].
    by destruct (existsb _ (members u)).
  - intros Hlen. subst variantOver. cbn beta.
    rewrite <- cppTypeInOptional_text_withIssues.
    by rewrite cppTypeInOptional_variant by lia.
  - intros Hfree. subst variantOver. cbn beta. do 5 f_equal.
    apply map_ext_in. intros t Ht.
    apply cppType_namespaceFree.
    rewrite forallb_forall in Hfree. by apply Hfree.
Qed.

(** For a union of an integer and a sequence of strings, the type the
    functions are declared for is the typedef's variant. *)
Lemma variantType_shape_witness :
  let u := UnionType "U" [IntegerType; ArrayType StringType] in
  let nonNulls := snd (removeNullFromUnion u true) in
  sourcelikeToString
    (SArr [SStr "boost::variant<";
           SArr (arrayIntercalate (SStr ", ")
                   (map (fun t =>
                           cppType exampleRenderer t
                             (mkTypeContext true false false) true)
                      nonNulls));
           SStr ">"])
  = sourcelikeToString
      (cppTypeInOptional exampleRenderer nonNulls
         (mkTypeContext false false true) false).
Proof.
  intros u nonNulls.
  destruct (variantType_shape exampleRenderer u) as (_ & Hdeclared & Hsame).
  etransitivity; [|symmetry; apply Hdeclared; simpl; lia].
  exact (f_equal sourcelikeToString (Hsame eq_refl)).
Defined.

(** With a class among the members the two variants differ: the typedef
    names the class, the functions qualify it. *)
Lemma variant_of_a_class_is_qualified :
  let u := UnionType "U" [IntegerType; ClassType "A"] in
  (sourcelikeToString <$> variantType exampleRenderer u false)
  = Some "boost::variant<A, int64_t>"
  /\ sourcelikeToString
       (cppTypeInOptional exampleRenderer (snd (removeNullFromUnion u true))
          (mkTypeContext false false true) false)
     = "boost::variant<quicktype::A, int64_t>".
Proof. by vm_compute. Qed.

Lemma cppType_without_forward_indirection (this this' : Renderer) t :
  namespaceNames this = namespaceNames this' ->
  forall ctx withIssues,
    needsForwardIndirection ctx = false ->
    cppType this t ctx withIssues = cppType this' t ctx withIssues.
Proof.
  intros Hns.
  assert (forall b, ourQualifier this b = ourQualifier this' b) as Hq
      by (intros b; unfold ourQualifier; by rewrite Hns).
  induction t as [ | | | | | | items IH | n | values IH | n | n ms IH]
    using Ty_members_ind; intros ctx w Hctx; try done.
  - cbn [cppType]. by rewrite IH.
  - cbn [cppType]. by rewrite Hctx, Hq.
  - cbn [cppType]. by rewrite IH.
  - cbn [cppType]. by rewrite Hq.
  - rewrite !cppType_union.
    destruct (nullableFromUnion (UnionType n ms)) as [| |x] eqn:Hn;
      rewrite ?Hq; try done.
    apply nullableFromUnion_member in Hn. rewrite Forall_forall in IH.
    by rewrite (IH x Hn).
Qed.

(** X12. Only a class that is itself the rendered type can be wrapped in
    the ownership indirection: the rendering of any other type, and of
    any type in a context without forward indirection, does not depend
    on which classes are forward declared.  Classes inside sequences,
    maps and optionals are rendered by name. *)
Theorem forward_indirection_only_on_the_rendered_class
        (this this' : Renderer) (t : Ty) (ctx : TypeContext)
        (withIssues : bool) :
  namespaceNames this = namespaceNames this' ->
  isClassType t = false \/ needsForwardIndirection ctx = false ->
  cppType this t ctx withIssues = cppType this' t ctx withIssues.
Proof.
  intros Hns [Hclass|Hctx];
    [|by apply cppType_without_forward_indirection].
  assert (forall b, ourQualifier this b = ourQualifier this' b) as Hq
      by (intros b; unfold ourQualifier; by rewrite Hns).
  destruct t as [ | | | | | | items | n | values | n | n ms]; try done.
  - cbn [cppType].
    by rewrite (cppType_without_forward_indirection this this' items Hns).
  - cbn [cppType].
    by rewrite (cppType_without_forward_indirection this this' values Hns).
  - cbn [cppType]. by rewrite Hq.
  - rewrite !cppType_union.
    destruct (nullableFromUnion (UnionType n ms)) as [| |x]; rewrite ?Hq;
      try done.
    by rewrite (cppType_without_forward_indirection this this' x Hns).
Qed.

(** A sequence of a forward-declared class holds the class by name. *)
Lemma forward_indirection_witness :
  cppType
    (mkRenderer true ["quicktype"] (fun s => s) (fun s => s)
       (fun n => ("get_" +:+ n, "getMutable_" +:+ n, "set_" +:+ n))
       (fun _ => true) (fun s => s) (fun _ _ => None))
    (ArrayType (ClassType "Node")) (mkTypeContext true true false) true
  = cppType exampleRenderer (ArrayType (ClassType "Node"))
      (mkTypeContext true true false) true.
Proof.
  apply forward_indirection_only_on_the_rendered_class;
    [reflexivity | by left].
Defined.

(** ** The generated names *)

(** X13. After [setupGlobalNames] every lookup of a generated name is
    defined and returns the styled key of the name, and every generated
    global name, like every keyword, is among the names forbidden in the
    global namespace. *)
Theorem generated_names_defined_and_forbidden (this : Renderer) :
  let tables := setupGlobalNames this emptyNameTables in
  (forall g, lookupGlobalNameIn tables g = Some (lookupGlobalName this g))
  /\ (forall m, lookupMemberNameIn tables m = Some (lookupMemberName this m))
  /\ (forall g, lookupGlobalName this g
                ∈ forbiddenNamesForGlobalNamespace tables)
  /\ (forall k, k ∈ keywords -> k ∈ forbiddenNamesForGlobalNamespace tables)
  /\ forbiddenGlobalNames tables
     = map (lookupGlobalName this) numberEnumValues_GlobalNames.
Proof.
  intros tables. split; [|split; [|split; [|split]]].
  - intros g. by destruct g.
  - intros m. by destruct m.
  - intros g. unfold forbiddenNamesForGlobalNamespace.
    apply elem_of_app. right.
    destruct g; cbn; unfold lookupGlobalName; cbn; set_solver.
  - intros k Hk. unfold forbiddenNamesForGlobalNamespace.
    apply elem_of_app. by left.
  - done.
Qed.

(** ** The validation runtime *)

(** X14. The validation runtime declares what its checkers use: the
    exceptions the two checkers throw are exactly the declared exception
    classes, each derived from the constraint exception; the getters
    their conditions call are exactly the getters the constraint class
    declares; and the constructor of the constraint class takes the five
    bounds in the order minimum, maximum, minimum length, maximum length,
    pattern, with a comma after each but the last. *)
Theorem validation_runtime_is_self_consistent (this : Renderer) :
  let out := emitConstraintClasses this in
  let checkers :=
    emitCheckConstraintInt64 this ++ emitCheckConstraintString this in
  omap declaredSubclass out
  = map (fun ex => (lookupGlobalName this ex,
                    lookupGlobalName this ClassMemberConstraintException))
      exceptions
  /\ omap thrownClass checkers = map (lookupGlobalName this) exceptions
  /\ omap calledGetter checkers = omap declaredGetter out
  /\ omap declaredGetter out
     = map (fun m => lookupMemberName this (cm_getter m)) constraintMembers
  /\ omap constructorParameter out
     = [(lookupMemberName this MinValue, true);
        (lookupMemberName this MaxValue, true);
        (lookupMemberName this MinLength, true);
        (lookupMemberName this MaxLength, true);
        (lookupMemberName this Pattern, false)].
Proof. intros out checkers. repeat split; by vm_compute. Qed.

(** ** Class declarations *)

Lemma mapSet_fresh {K V} `{EqDecision K} (m : list (K * V)) k v :
  mapGet m k = None -> mapSet m k v = m ++ [(k, v)].
Proof.
  induction m as [|[k' v'] m IH]; simpl; [done|].
  destruct (decide (k' = k)); [done|]. intros Hm. by rewrite IH.
Qed.

Lemma omap_ext_elem {A B} (f g : A -> option B) (l : list A) :
  (forall x, x ∈ l -> f x = g x) -> omap f l = omap g l.
Proof.
  induction l as [|x l IH]; [done|]. intros Hfg.
  cbn [omap list_omap]. rewrite (Hfg x) by (by left).
  rewrite IH; [done|]. intros y Hy. apply Hfg. by right.
Qed.

Lemma constructorInitializers_cons e rest :
  constructorInitializers (e :: rest)
  = if isConstructorHead e then initializersAfter rest
    else constructorInitializers rest.
Proof.
  by destruct e as [[|[] [|[] [|]]]| | | | |].
Qed.

Lemma constructorInitializers_no_head body :
  Forall (fun e => isConstructorHead e = false) body ->
  constructorInitializers body = [].
Proof.
  induction 1 as [|e body He _ IH]; [done|].
  by rewrite constructorInitializers_cons, He.
Qed.

Section ClassDeclarationProofs.

Variable this : Renderer.
Variable number : Type.
Variable numberToString : number -> string.
Variable TypeNode : Type.
Variable typeNode : ClassProperty -> TypeNode.
Variable minMaxValueForType :
  TypeNode -> option (option number * option number).
Variable minMaxLengthForType :
  TypeNode -> option (option number * option number).
Variable patternForType : TypeNode -> option string.
Variable descriptionForType : Name -> option (list string).

Abbreviation constraintsForType :=
  (constraintsForType number TypeNode minMaxValueForType
     minMaxLengthForType patternForType).
Abbreviation constrainedProperties :=
  (constrainedProperties number TypeNode typeNode minMaxValueForType
     minMaxLengthForType patternForType).
Abbreviation initializerOf := (initializerOf this number numberToString).
Abbreviation generateClassConstraints :=
  (generateClassConstraints this number numberToString TypeNode typeNode
     minMaxValueForType minMaxLengthForType patternForType).
Abbreviation emitClass :=
  (emitClass this number numberToString TypeNode typeNode
     minMaxValueForType minMaxLengthForType patternForType
     descriptionForType).

Lemma constrainedProperties_cons p props :
  constrainedProperties (p :: props)
  = match constraintsForType (typeNode p) with
    | None => constrainedProperties props
    | Some constraints =>
        (cp_jsonName p, constraints) :: constrainedProperties props
    end.
Proof.
  unfold constrainedProperties. cbn [omap list_omap].
  by destruct (constraintsForType (typeNode p)).
Qed.

Lemma constrainedProperties_keys props k :
  k ∈ map fst (constrainedProperties props) -> k ∈ map cp_jsonName props.
Proof.
  induction props as [|p props IH]; [done|].
  rewrite constrainedProperties_cons. cbn [map].
  destruct (constraintsForType (typeNode p)); cbn [map fst];
    rewrite ?elem_of_cons; [intros [->|Hk]|intros Hk]; auto.
Qed.

Lemma constrainedProperties_NoDup props :
  NoDup (map cp_jsonName props) ->
  NoDup (map fst (constrainedProperties props)).
Proof.
  induction props as [|p props IH]; [done|]. cbn [map]. intros Hnd.
  apply NoDup_cons in Hnd as [Hp Hnd].
  rewrite constrainedProperties_cons.
  destruct (constraintsForType (typeNode p)); [|by apply IH].
  cbn [map fst]. apply NoDup_cons. split; [|by apply IH].
  intros Hin. by apply Hp, constrainedProperties_keys.
Qed.

(** With distinct wire names, every [set] of [generateClassConstraints]
    adds a new entry at the end of the map. *)
Lemma generateClassConstraints_fold props :
  NoDup (map cp_jsonName props) ->
  forall acc,
    (forall k, k ∈ map fst acc -> k ∉ map cp_jsonName props) ->
    foldl (fun res property =>
             match constraintsForType (typeNode property) with
             | None => res
             | Some constraints =>
                 mapSet res (cp_jsonName property)
                   (constraintMember this (cp_jsonName property)
                    +:+ constrArg number numberToString constraints)
             end) acc props
    = acc ++ map (fun e => (fst e, initializerOf e))
               (constrainedProperties props).
Proof.
  induction props as [|p props IH]; intros Hnd acc Hacc.
  - simpl. by rewrite app_nil_r.
  - cbn [map] in Hnd. apply NoDup_cons in Hnd as [Hp Hnd].
    cbn [foldl]. rewrite constrainedProperties_cons.
    destruct (constraintsForType (typeNode p)) as [cs|] eqn:Hcs.
    + rewrite mapSet_fresh.
      2: { apply mapGet_None. intros Hin. apply (Hacc _ Hin).
           cbn [map]. apply elem_of_cons. by left. }
      rewrite IH; [by rewrite <- app_assoc | done |].
      intros k Hk. rewrite map_app in Hk. apply elem_of_app in Hk as [Hk|Hk].
      * intros Hin. apply (Hacc k Hk). cbn [map]. apply elem_of_cons.
        by right.
      * cbn [map fst] in Hk. by apply list_elem_of_singleton in Hk as ->.
    + apply IH; [done|]. intros k Hk Hin. apply (Hacc k Hk).
      cbn [map]. apply elem_of_cons. by right.
Qed.

Lemma generateClassConstraints_entries props :
  NoDup (map cp_jsonName props) ->
  generateClassConstraints props
  = match constrainedProperties props with
    | [] => None
    | constrained =>
        Some (map (fun e => (fst e, initializerOf e)) constrained)
    end.
Proof.
  intros Hnd. unfold generateClassConstraints.
  rewrite (generateClassConstraints_fold props Hnd []).
  - cbn [app]. by destruct (constrainedProperties props).
  - intros k Hk. by apply elem_of_nil in Hk.
Qed.

Lemma jsonName_determines props p p' :
  NoDup (map cp_jsonName props) -> p ∈ props -> p' ∈ props ->
  cp_jsonName p' = cp_jsonName p -> p' = p.
Proof.
  intros Hnd Hp Hp' Hk. induction props as [|x props IH];
    [by apply elem_of_nil in Hp|].
  cbn [map] in Hnd. apply NoDup_cons in Hnd as [Hx Hnd].
  assert (forall y, y ∈ props -> cp_jsonName y ∈ map cp_jsonName props)
    as Hmem.
  { intros y Hy. change (map cp_jsonName props) with (cp_jsonName <$> props).
    apply list_elem_of_fmap. by exists y. }
  apply elem_of_cons in Hp as [->|Hp];
    apply elem_of_cons in Hp' as [->|Hp']; try done.
  - exfalso. apply Hx. rewrite <- Hk. by apply Hmem.
  - exfalso. apply Hx. rewrite Hk. by apply Hmem.
  - by apply IH.
Qed.

Lemma constrainedProperties_elem props k cs :
  (k, cs) ∈ constrainedProperties props
  <-> exists p, p ∈ props /\ cp_jsonName p = k
                /\ constraintsForType (typeNode p) = Some cs.
Proof.
  unfold constrainedProperties. rewrite list_elem_of_omap. split.
  - intros (p & Hp & He). exists p. split; [done|].
    destruct (constraintsForType (typeNode p)); [|done].
    by injection He as -> ->.
  - intros (p & Hp & <- & Hcs). exists p. split; [done|]. by rewrite Hcs.
Qed.

(** A property has an entry in the generated map exactly when its type
    carries constraints. *)
Lemma hasConstraint_generated props p :
  NoDup (map cp_jsonName props) -> p ∈ props ->
  hasConstraint (list_to_map <$> generateClassConstraints props)
    (cp_jsonName p)
  = bool_decide (is_Some (constraintsForType (typeNode p))).
Proof.
  intros Hnd Hp. rewrite generateClassConstraints_entries by done.
  set (entries := map (fun e => (fst e, initializerOf e))
                    (constrainedProperties props)).
  assert (map fst entries = map fst (constrainedProperties props))
    as Hkeys.
  { subst entries. rewrite map_map. by apply map_ext. }
  assert (is_Some ((list_to_map entries : gmap string string)
                   !! cp_jsonName p)
          <-> is_Some (constraintsForType (typeNode p))) as Hiff.
  { split.
    - intros [v Hv]. apply elem_of_list_to_map in Hv.
      2: { change (entries.*1) with (map fst entries). rewrite Hkeys.
           by apply constrainedProperties_NoDup. }
      subst entries. change (map ?f ?l) with (f <$> l) in Hv.
      apply list_elem_of_fmap in Hv as ([k cs] & Hkv & He).
      cbn [fst] in Hkv. injection Hkv as Hk _. subst k.
      apply constrainedProperties_elem in He as (p' & Hp' & Hk & Hcs).
      assert (p' = p) as -> by (by eapply jsonName_determines).
      by rewrite Hcs.
    - intros [cs Hcs]. exists (initializerOf (cp_jsonName p, cs)).
      apply elem_of_list_to_map.
      { change (entries.*1) with (map fst entries). rewrite Hkeys.
        by apply constrainedProperties_NoDup. }
      subst entries. change (map ?f ?l) with (f <$> l).
      apply list_elem_of_fmap. exists (cp_jsonName p, cs). split; [done|].
      apply constrainedProperties_elem. by exists p. }
  clear Hkeys. subst entries. revert Hiff.
  destruct (constrainedProperties props) as [|e constrained]; intros Hiff.
  - cbn [fmap option_fmap option_map hasConstraint].
    symmetry. apply bool_decide_eq_false_2. intros Hsome.
    apply Hiff in Hsome as [v Hv].
    cbn in Hv. by rewrite lookup_empty in Hv.
  - cbn [fmap option_fmap option_map hasConstraint].
    by apply bool_decide_ext.
Qed.

(** The loop of [emitClass] emits one initializer per entry, followed by
    a comma unless the counter has reached the size of the map. *)
Lemma initializersAfter_lines size entries rest :
  forall k,
    initializersAfter
      (initializerLines size k entries ++ EmitLine [SStr "{}"] :: rest)
    = imap (fun i (e : string * string) =>
              (snd e, negb (bool_decide (S (k + i) = size)))) entries.
Proof.
  induction entries as [|[propName initializer] entries IH]; intros k.
  - done.
  - cbn [initializerLines imap]. rewrite Nat.add_0_r.
    case_bool_decide; cbn [indent emitLine app initializersAfter negb snd];
      rewrite IH; f_equal; apply imap_ext; intros i e _; cbn;
      by rewrite Nat.add_succ_r.
Qed.

Lemma initializerLines_declare_nothing size entries :
  forall k,
    omap declaredConstraintMember (initializerLines size k entries) = [].
Proof.
  induction entries as [|[propName initializer] entries IH]; intros k;
    [done|].
  cbn [initializerLines]. rewrite omap_app, IH.
  by case_bool_decide.
Qed.

Lemma emitAccessors_declare_nothing constraints property :
  omap declaredConstraintMember (emitAccessors this constraints property)
  = [].
Proof.
  unfold emitAccessors.
  destruct (gettersAndSettersForPropertyName this (cp_name property))
    as [[getterName mutableGetterName] setterName].
  generalize (cppType this (cp_type property)
                (mkTypeContext true true false) true).
  intros rendered.
  by destruct (hasConstraint constraints (cp_jsonName property)),
       (isNullableUnion (cp_type property)), rendered.
Qed.

Lemma emitMember_declares_nothing cppType name :
  omap declaredConstraintMember (emitMember cppType (SName name)) = [].
Proof.
  by destruct cppType.
Qed.

Lemma emitAccessors_no_head constraints property :
  Forall (fun e => isConstructorHead e = false)
    (emitAccessors this constraints property).
Proof.
  unfold emitAccessors.
  destruct (gettersAndSettersForPropertyName this (cp_name property))
    as [[getterName mutableGetterName] setterName].
  generalize (cppType this (cp_type property)
                (mkTypeContext true true false) true).
  intros rendered.
  destruct (hasConstraint constraints (cp_jsonName property)),
    (isNullableUnion (cp_type property));
    cbn [emitLine app]; repeat constructor; by destruct rendered.
Qed.

Lemma emitMember_no_head cppType name :
  Forall (fun e => isConstructorHead e = false) (emitMember cppType name).
Proof.
  unfold emitMember, emitLine. repeat constructor. by destruct cppType.
Qed.

Lemma emitClassMembers_no_head c props constraints :
  Forall (fun e => isConstructorHead e = false)
    (emitClassMembers this c props constraints).
Proof.
  unfold emitClassMembers. apply Forall_app. split.
  - destruct (codeFormat this); [|constructor].
    repeat (apply Forall_app; split); try (by repeat constructor).
    apply List.Forall_flat_map, Forall_forall. intros p _.
    apply Forall_app. split; [apply emitMember_no_head|].
    destruct (hasConstraint _ _); [|constructor].
    by repeat constructor.
  - apply List.Forall_flat_map, Forall_forall. intros p _.
    apply Forall_app. split; [by repeat constructor|].
    destruct (codeFormat this); cbn [negb];
      [apply emitAccessors_no_head | apply emitMember_no_head].
Qed.

(** The private section declares one constraint member for each property
    that has an entry in the map, in declared order; no other line of the
    members declares one. *)
Lemma emitClassMembers_declared c props constraints :
  omap declaredConstraintMember (emitClassMembers this c props constraints)
  = if codeFormat this
    then omap (fun p => if hasConstraint constraints (cp_jsonName p)
                        then Some (constraintMember this (cp_jsonName p))
                        else None) props
    else [].
Proof.
  unfold emitClassMembers.
  assert (omap declaredConstraintMember
            (flat_map
               (fun property =>
                  [EmitDescription
                     (descriptionForClassProperty this c
                        (cp_jsonName property))]
                  ++
                  (if negb (codeFormat this) then
                     emitMember
                       (cppType this (cp_type property)
                          (mkTypeContext true true false) true)
                       (SName (cp_name property))
                   else emitAccessors this constraints property))
               props) = []) as Hpublic.
  { induction props as [|p props IH]; [done|].
    cbn [flat_map]. rewrite !omap_app, IH.
    destruct (codeFormat this); cbn [negb];
      [by rewrite emitAccessors_declare_nothing
      | by rewrite emitMember_declares_nothing]. }
  rewrite omap_app, Hpublic, app_nil_r. clear Hpublic.
  destruct (codeFormat this); [|done].
  rewrite !omap_app. cbn [emitLine omap list_omap declaredConstraintMember].
  rewrite app_nil_r. cbn [app].
  induction props as [|p props IH]; [done|].
  cbn [flat_map omap list_omap].
  rewrite !omap_app, IH, emitMember_declares_nothing.
  destruct (hasConstraint constraints (cp_jsonName p)); [|done].
  cbn [emitMember emitLine omap list_omap declaredConstraintMember app].
  by rewrite !String.eqb_refl.
Qed.

(** X15. In a class with getters and setters, the constructor
    initializes exactly the constraint members the private section
    declares: one initializer [member(min, max, minLength, maxLength,
    pattern)] for each property whose type node carries constraints, in
    declared order, each but the last followed by a comma; a class with
    no constrained property gets no initializer and no constraint
    member.  The constraints are those of each property's own node, so
    of two properties of the same kind one may be constrained and the
    other not. *)
Theorem constructor_initializes_declared_constraints
        (c : Name) (props : list ClassProperty) (className : Name) :
  NoDup (map cp_jsonName props) ->
  codeFormat this = true ->
  let constrained := constrainedProperties props in
  let out := emitClass c props className in
  constructorInitializers out
  = imap (fun i e =>
            (initializerOf e, negb (bool_decide (S i = length constrained))))
      constrained
  /\ omap declaredConstraintMember out
     = map (fun e => constraintMember this (fst e)) constrained.
Proof.
  intros Hnd Hfmt constrained out. split.
  - subst out. unfold emitClass. cbv zeta. rewrite Hfmt.
    rewrite generateClassConstraints_entries by done. fold constrained.
    set (members := emitClassMembers this c props _).
    assert (Forall (fun e => isConstructorHead e = false) members)
      as Hmembers by apply emitClassMembers_no_head.
    clearbody members.
    destruct constrained as [|e constrained'].
    + cbn [emitBlock emitLine indent app imap].
      repeat (rewrite constructorInitializers_cons;
              cbn [isConstructorHead]).
      replace (String.eqb "() = default;" "() :") with false by done.
      apply constructorInitializers_no_head.
      repeat (apply Forall_app; split); [done | by repeat constructor..].
    + set (entries := map _ (e :: constrained')).
      cbn [emitBlock emitLine indent app].
      repeat (rewrite constructorInitializers_cons;
              cbn [isConstructorHead]).
      rewrite String.eqb_refl, <- !app_assoc. cbn [emitLine app].
      rewrite initializersAfter_lines.
      subst entries. change (map ?f ?l) with (f <$> l).
      rewrite imap_fmap. apply imap_ext. intros i x _.
      unfold compose. cbn [snd Nat.add]. by rewrite length_fmap.
  - subst out. unfold emitClass, emitBlock, indent. cbv zeta.
    rewrite Hfmt.
    cbn [emitLine app omap list_omap declaredConstraintMember].
    rewrite !omap_app, emitClassMembers_declared, Hfmt.
    assert (forall constraints : option (list (string * string)),
               omap declaredConstraintMember
                 (match constraints with
                  | None => [EmitLine [SName className;
                                       SStr "() = default;"]]
                  | Some constraints =>
                      EmitLine [SName className; SStr "() :"]
                      :: initializerLines (length constraints) 0 constraints
                         ++ [EmitLine [SStr "{}"]]
                  end) = []) as ->.
    { intros [constraints|]; [|done].
      cbn [omap list_omap declaredConstraintMember].
      by rewrite omap_app, initializerLines_declare_nothing. }
    cbn [emitLine omap list_omap declaredConstraintMember app].
    rewrite !app_nil_r.
    rewrite (omap_ext_elem _
               (fun p => if bool_decide
                              (is_Some (constraintsForType (typeNode p)))
                         then Some (constraintMember this (cp_jsonName p))
                         else None)).
    2: { intros p Hp. by rewrite hasConstraint_generated. }
    subst constrained. clear Hnd.
    induction props as [|p props IH]; [done|].
    rewrite constrainedProperties_cons. cbn [omap list_omap].
    destruct (constraintsForType (typeNode p)) as [cs|].
    + rewrite bool_decide_eq_true_2 by done. cbn [map fst]. by rewrite IH.
    + rewrite bool_decide_eq_false_2 by (by intros [? ?]). done.
Qed.

End ClassDeclarationProofs.

(** The class with the integer properties [a], bounded below by 1, and
    [b], unbounded, and the string property [c] of at most 5
    characters: the nodes are named after the properties. *)
Lemma constructor_initializers_witness :
  let valueBounds (node : string) :=
    if String.eqb node "a" then Some (Some "1", None) else None in
  let lengthBounds (node : string) :=
    if String.eqb node "c" then Some (None, Some "5") else None in
  constructorInitializers
    (emitClass exampleRenderer string (fun n => n) string cp_jsonName
       valueBounds lengthBounds (fun _ => None) (fun _ => None) "K"
       [mkClassProperty "a" "a" IntegerType;
        mkClassProperty "b" "b" IntegerType;
        mkClassProperty "c" "c" StringType]
       "K")
  = [("aConstraint(1, boost::none, boost::none, boost::none, boost::none)",
      true);
     ("cConstraint(boost::none, boost::none, boost::none, 5, boost::none)",
      false)].
Proof.
  intros valueBounds lengthBounds.
  refine (proj1 (constructor_initializes_declared_constraints
                   exampleRenderer string (fun n => n) string cp_jsonName
                   valueBounds lengthBounds (fun _ => None) (fun _ => None)
                   "K"
                   [mkClassProperty "a" "a" IntegerType;
                    mkClassProperty "b" "b" IntegerType;
                    mkClassProperty "c" "c" StringType]
                   "K" _ _)).
  - apply (bool_decide_unpack _). by vm_compute.
  - reflexivity.
Defined.
